(** * gospeak: the Go type translator (types.go, internal/parser)

    A shallow embedding of the walker that turns the go/types graph of a
    service contract into the webrpc schema, together with the properties
    of the specification that concern it.

    Conventions of the embedding.
    - A Go [string] is a [string] of bytes; the [strings] and
      [path/filepath] helpers used by the sources are written out below.
      The two tests that Go makes on runes with the Unicode tables,
      unicode.IsLetter and the white space of strings.TrimSpace, are written
      out for ASCII text only (a byte above 127 counts as no letter and as no
      blank); the properties that depend on them are stated for ASCII text.
    - A [types.Type] object is identified by a number ([tid]); the memo
      [parsedTypes] is keyed by that identity, as the Go map is keyed by the
      interface value.
    - A [*schema.VarType] is an address ([loc]) into a heap of records, so
      that the placeholder written by the deferred function and every alias
      of it are one object.
    - A [*schema.Type] is the position of the record in [Schema.Types]: the
      sources only ever append to that slice, and every record they create is
      appended right after its construction. *)

From Stdlib Require Import Ascii DecimalString.
From Stdlib Require String.
From stdpp Require Import gmap strings list fin_maps.

(** ** Go string helpers *)

Module GoStrings.

(** The double quote character (code 34). *)
Definition dquote : ascii := "034"%char.
Definition q : string := String dquote EmptyString.

Fixpoint drop (n : nat) (s : string) : string :=
  match n, s with
  | 0, _ => s
  | S n', String _ s' => drop n' s'
  | S _, EmptyString => EmptyString
  end.

Fixpoint take (n : nat) (s : string) : string :=
  match n, s with
  | 0, _ => EmptyString
  | S n', String c s' => String c (take n' s')
  | S _, EmptyString => EmptyString
  end.

Definition HasPrefix (s prefix : string) : bool := String.prefix prefix s.

Definition HasSuffix (s suffix : string) : bool :=
  let n := String.length s in
  let m := String.length suffix in
  (m <=? n) && String.eqb (drop (n - m) s) suffix.

(** strings.Contains(s, substr) *)
Fixpoint Contains (s substr : string) : bool :=
  String.prefix substr s ||
  match s with
  | EmptyString => false
  | String _ s' => Contains s' substr
  end.

Definition TrimPrefix (s prefix : string) : string :=
  if HasPrefix s prefix then drop (String.length prefix) s else s.

(** strings.CutPrefix(s, prefix) *)
Definition CutPrefix (s prefix : string) : string * bool :=
  if HasPrefix s prefix then (drop (String.length prefix) s, true) else (s, false).

(** strings.Cut(s, sep): split around the first occurrence of [sep]. *)
Fixpoint Cut (s sep : string) : string * string * bool :=
  if String.prefix sep s then (EmptyString, drop (String.length sep) s, true)
  else match s with
       | EmptyString => (s, EmptyString, false)
       | String c s' =>
           let '(before, after, found) := Cut s' sep in
           if found then (String c before, after, true) else (s, EmptyString, false)
       end.

(** The white space of strings.TrimSpace among the ASCII bytes. *)
Definition isSpace (c : ascii) : bool :=
  let n := nat_of_ascii c in
  (n =? 32) || ((9 <=? n) && (n <=? 13)).

Fixpoint trimLeft (s : string) : string :=
  match s with
  | String c s' => if isSpace c then trimLeft s' else s
  | EmptyString => EmptyString
  end.

Definition TrimSpace (s : string) : string :=
  String.rev (trimLeft (String.rev (trimLeft s))).

(** unicode.IsLetter on an ASCII byte. *)
Definition IsLetter (c : ascii) : bool :=
  let n := nat_of_ascii c in
  ((65 <=? n) && (n <=? 90)) || ((97 <=? n) && (n <=? 122)).

(** strings.LastIndex(s, sep) for a one-byte separator; [None] is -1. *)
Fixpoint LastIndex (s : string) (sep : ascii) : option nat :=
  match s with
  | EmptyString => None
  | String c s' =>
      match LastIndex s' sep with
      | Some i => Some (S i)
      | None => if Ascii.eqb c sep then Some 0 else None
      end
  end.

Definition isSlash (c : ascii) : bool := Ascii.eqb c "/"%char.

(** The part of a reversed path before its first slash, reversed back:
    the last element of the path. *)
Fixpoint lastElemRev (r : string) (acc : string) : string :=
  match r with
  | EmptyString => acc
  | String c r' => if isSlash c then acc else lastElemRev r' (String c acc)
  end.

Fixpoint stripSlashes (r : string) : string :=
  match r with
  | String c r' => if isSlash c then stripSlashes r' else r
  | EmptyString => EmptyString
  end.

(** filepath.Base on a Unix path. *)
Definition Base (path : string) : string :=
  match path with
  | EmptyString => "."
  | _ =>
      let e := lastElemRev (stripSlashes (String.rev path)) EmptyString in
      match e with
      | EmptyString => "/"
      | _ => e
      end
  end.

(** fmt.Sprintf of an int with the verb v. *)
Definition itoa (n : nat) : string := NilEmpty.string_of_uint (Nat.to_uint n).

(** The longest prefix of [s] whose bytes satisfy [p], and the rest. *)
Fixpoint span (p : ascii -> bool) (s : string) : string * string :=
  match s with
  | EmptyString => (EmptyString, EmptyString)
  | String c s' =>
      if p c then let '(a, b) := span p s' in (String c a, b)
      else (EmptyString, s)
  end.

End GoStrings.

(** ** The webrpc schema records (github.com/webrpc/webrpc/schema) *)

Definition tid := nat.
Definition loc := nat.

(** schema.CoreType; [T_Invalid] stands for the zero value of the Go type,
    which is what a freshly claimed memo record carries. *)
Inductive CoreType : Type :=
| T_Invalid | T_Null | T_Any | T_Byte | T_Bool
| T_Uint | T_Uint8 | T_Uint16 | T_Uint32 | T_Uint64
| T_Int | T_Int8 | T_Int16 | T_Int32 | T_Int64
| T_Float32 | T_Float64
| T_String | T_Timestamp | T_Map | T_List | T_Struct | T_Enum.

Global Instance CoreType_eq_dec : EqDecision CoreType.
Proof. solve_decision. Defined.

(** schema.VarType. The payload records VarListType, VarMapType and
    VarStructType are written once and never updated, so they are kept
    inline; the two pointers that matter, to the element VarType and to the
    schema.Type, stay references. *)
Record VarType : Type := mkVarType {
  Expr : string;
  Type_ : CoreType;
  List_ : option loc;               (* List.Elem *)
  Map_ : option (CoreType * loc);   (* Map.Key, Map.Value *)
  Struct_ : option (string * nat)   (* Struct.Name, Struct.Type *)
}.

Global Instance VarType_eq_dec : EqDecision VarType.
Proof. solve_decision. Defined.

(** schema.TypeField with its embedded TypeExtra. A TypeFieldMeta is a
    one-entry map, kept as the pair of its key and value. *)
Record TypeField : Type := mkTypeField {
  f_Name : string;
  f_Type : option loc;
  f_Value : string;
  f_Meta : list (string * string);
  f_Optional : bool
}.

Global Instance TypeField_eq_dec : EqDecision TypeField.
Proof. solve_decision. Defined.

(** schema.Type *)
Record SchemaType : Type := mkSchemaType {
  t_Kind : string;
  t_Name : string;
  t_Type : option loc;       (* set for enums *)
  t_Fields : list TypeField
}.

Global Instance SchemaType_eq_dec : EqDecision SchemaType.
Proof. solve_decision. Defined.

(** ** appendOrOverrideExistingField (types.go and internal/parser) *)

(** copy(slice[i:], slice[i+1:]) on a slice of length [len] backed by [arr]:
    the elements i+1 .. len-1 move one place down; the cell len-1 and
    everything behind it keep their contents. *)
Definition copyDown (arr : list TypeField) (i len : nat) : list TypeField :=
  firstn i arr ++ firstn (len - i - 1) (skipn (i + 1) arr) ++ skipn (len - 1) arr.

(** The range loop. The range expression is evaluated once, so the loop makes
    [steps] iterations over the indices of the original slice and reads
    [item] from the shared backing array [arr], while [len] is the length of
    the slice variable as the body has shortened it. [None] is a run-time
    panic (slice bounds out of range). *)
Fixpoint overrideLoop (name : string) (steps i : nat)
    (arr : list TypeField) (len : nat) : option (list TypeField * nat) :=
  match steps with
  | 0 => Some (arr, len)
  | S steps' =>
      match arr !! i with
      | None => None
      | Some item =>
          if String.eqb (f_Name item) name then
            if i + 1 <=? len
            then overrideLoop name steps' (S i) (copyDown arr i len) (len - 1)
            else None
          else overrideLoop name steps' (S i) arr len
      end
  end.

Definition appendOrOverrideExistingField (slice : list TypeField)
    (newItem : TypeField) : option (list TypeField) :=
  match overrideLoop (f_Name newItem) (length slice) 0 slice (length slice) with
  | Some (arr, len) => Some (firstn len arr ++ [newItem])
  | None => None
  end.

(** ** The tag parser (types.go) *)

Record jsonTag : Type := mkJsonTag {
  tag_Name : string;
  tag_Value : string;
  tag_IsString : bool;
  tag_Omitempty : bool
}.

Global Instance jsonTag_eq_dec : EqDecision jsonTag.
Proof. solve_decision. Defined.

Definition zeroJsonTag : jsonTag := mkJsonTag EmptyString EmptyString false false.

Definition jsonKey : string := "json:" +:+ GoStrings.q.

Definition notCommaQuote (c : ascii) : bool :=
  negb (Ascii.eqb c ","%char) && negb (Ascii.eqb c GoStrings.dquote).

Definition notQuote (c : ascii) : bool := negb (Ascii.eqb c GoStrings.dquote).

(** The rest of jsonTagRegex after the literal key and its opening quote:
    a run of bytes other than comma and quote (group 1), optionally a comma
    with a run of bytes other than quote (group 2), and the closing quote.
    Both runs are greedy and end in front of the only bytes that can follow
    them, so there is one way to match at a given place. *)
Definition matchTagBody (s : string) : option (string * string) :=
  let '(name, r1) := GoStrings.span notCommaQuote s in
  match r1 with
  | EmptyString => None
  | String c r2 =>
      if Ascii.eqb c GoStrings.dquote then Some (name, EmptyString)
      else
        let '(opts, r3) := GoStrings.span notQuote r2 in
        match r3 with
        | EmptyString => None
        | String _ _ => Some (name, String c opts)
        end
  end.

(** jsonTagRegex.FindStringSubmatch: the leftmost place where the pattern
    matches. The optional blank in front of the key only moves the start of
    the whole match, which the caller does not read. *)
Fixpoint findJsonTag (s : string) : option (string * string) :=
  let here :=
    if String.prefix jsonKey s
    then matchTagBody (GoStrings.drop (String.length jsonKey) s)
    else None in
  match here with
  | Some r => Some r
  | None =>
      match s with
      | EmptyString => None
      | String _ s' => findJsonTag s'
      end
  end.

Definition getJsonTag (structTags : string) : jsonTag * bool :=
  if negb (GoStrings.Contains structTags jsonKey) then (zeroJsonTag, false)
  else
    match findJsonTag structTags with
    | None => (zeroJsonTag, false)
    | Some (g1, g2) =>
        (mkJsonTag g1 (g1 +:+ g2)
           (GoStrings.Contains g2 ",string")
           (GoStrings.Contains g2 ",omitempty"),
         true)
    end.

(** ** The go/types object model, as far as the walker reads it *)

(** A struct field: the *types.Var of Struct.Field(i). *)
Record Var : Type := mkVar {
  v_Name : string;
  v_Exported : bool;
  v_Embedded : bool;
  v_Type : tid
}.

(** What the walker reads of a *types.Named: the package path of its object
    ([None] for the universe scope), the object id, the underlying type, and
    the verdicts of the two marshaler probes, which are functions of the
    method set of the type, and whether the object is an alias. *)
Record NamedInfo : Type := mkNamed {
  n_PkgPath : option string;
  n_Id : string;
  n_Underlying : tid;
  n_TextMarshaler : bool;
  n_JsonMarshaler : bool;
  n_IsAlias : bool
}.

(** The dynamic type of a types.Type value. [Alias] is a *types.Alias (a
    declared alias, such as any), with the type its Underlying() returns;
    the walker has no case for it. [Other] covers every other type the
    walker has no case for (channels, signatures, tuples, ...), with the
    name the verb T prints for it. *)
Inductive Shape : Type :=
| Named (info : NamedInfo)
| Basic (name : string)
| Struct (fields : list (Var * string))     (* Field(i), Tag(i) *)
| Slice (elem : tid)
| Array (elem : tid)
| Map (key elem : tid)
| Pointer (elem : tid)
| Interface (methods : list string)
| Other (goType : string)
| Alias (underlying : tid).

Record TypeObj : Type := mkTypeObj {
  String_ : string;      (* typ.String() *)
  shape : Shape
}.

(** The syntax of the package, as far as the enum extraction walks it. *)
Inductive AstExpr : Type := Ident (name : string) | OtherExpr.
Inductive AstSpec : Type := TypeSpec (type_ : AstExpr) | OtherSpec.
Inductive AstDecl : Type :=
| GenDecl (isTypeTok : bool) (doc : option (list string)) (specs : list AstSpec)
| OtherDecl.

(** The parser: the loaded package and the schema package name. The type
    graph is finite. schema.ParseVarTypeExpr belongs to the webrpc library;
    it is given by the function [ParseVarTypeExpr], which returns the record
    it fills in or the text of its error. *)
Record Parser : Type := mkParser {
  graph : gmap tid TypeObj;
  schemaPkgName : string;
  pkgSyntax : list (list AstDecl);
  ParseVarTypeExpr : list SchemaType -> string -> VarType + string
}.

(** The mutable part of the parser: the memo, the VarType records it points
    to, and Schema.Types. *)
Record State : Type := mkState {
  parsedTypes : gmap tid loc;
  heap : list VarType;
  schemaTypes : list SchemaType
}.

Definition initState : State := mkState ∅ [] [].

(** An identifier outside the graph stands for a value the type switch has no
    case for (the nil interface). *)
Definition nilObj : TypeObj := mkTypeObj "<nil>" (Other "<nil>").

Definition typeObj (p : Parser) (t : tid) : TypeObj := default nilObj (graph p !! t).
Definition shapeOf (p : Parser) (t : tid) : Shape := shape (typeObj p t).

(** typ.Underlying(): a named type and an alias have an underlying type of
    their own; a type literal is its own underlying type. *)
Definition Underlying (p : Parser) (t : tid) : tid :=
  match shapeOf p t with
  | Named info => n_Underlying info
  | Alias underlying => underlying
  | _ => t
  end.

(** ** Results, errors and panics *)

Inductive Res (A : Type) : Type :=
| Ok (a : A)
| Err (msg : string)
| Panic (msg : string).
Arguments Ok {A} a.
Arguments Err {A} msg.
Arguments Panic {A} msg.

(** A call either returns (a value, an error or a panic, with the state it
    leaves behind) or has used up the recursion budget of the model. *)
Inductive Outcome (A : Type) : Type :=
| Done (r : Res A) (st : State)
| OutOfFuel.
Arguments Done {A} r st.
Arguments OutOfFuel {A}.

Definition M (A : Type) : Type := State -> Outcome A.

Definition ret {A} (a : A) : M A := fun st => Done (Ok a) st.
Definition fail {A} (msg : string) : M A := fun st => Done (Err msg) st.
Definition panic {A} (msg : string) : M A := fun st => Done (Panic msg) st.

Definition bind {A B} (m : M A) (f : A -> M B) : M B :=
  fun st =>
    match m st with
    | Done (Ok a) st' => f a st'
    | Done (Err e) st' => Done (Err e) st'
    | Done (Panic e) st' => Done (Panic e) st'
    | OutOfFuel => OutOfFuel
    end.

Notation "x <- m ;; k" := (bind m (fun x => k))
  (at level 100, m at next level, right associativity).

(** fmt.Errorf with a prefix and the verb w around the error of [m]. *)
Definition wrapErr {A} (prefix : string) (m : M A) : M A :=
  fun st =>
    match m st with
    | Done (Err e) st' => Done (Err (prefix +:+ e)) st'
    | o => o
    end.

(** A composite literal whose address is taken: a new record on the heap. *)
Definition alloc (v : VarType) : M loc :=
  fun st => Done (Ok (length (heap st)))
                 (mkState (parsedTypes st) (heap st ++ [v]) (schemaTypes st)).

(** Reading through a *schema.VarType. *)
Definition deref (l : loc) : M VarType :=
  fun st =>
    match heap st !! l with
    | Some v => Done (Ok v) st
    | None => Done (Panic "nil pointer dereference") st
    end.

(** p.schema.Types = append(p.schema.Types, t); the result is the position
    of the record, which stands for its address. *)
Definition appendType (t : SchemaType) : M nat :=
  fun st => Done (Ok (length (schemaTypes st)))
                 (mkState (parsedTypes st) (heap st) (schemaTypes st ++ [t])).

Definition getTypes : M (list SchemaType) := fun st => Done (Ok (schemaTypes st)) st.

Definition liftPanic {A} (o : option A) : M A :=
  match o with
  | Some a => ret a
  | None => panic "slice bounds out of range"
  end.

(** ** Name canonicalizer (types.go) *)

Fixpoint findFirstLetterFrom (s : string) (i : nat) : option nat :=
  match s with
  | EmptyString => None
  | String c s' => if GoStrings.IsLetter c then Some i else findFirstLetterFrom s' (S i)
  end.

Definition findFirstLetter (s : string) : nat := default 0 (findFirstLetterFrom s 0).

Definition goTypeNameOf (schemaPkg : string) (str : string) : string :=
  let firstLetter := findFirstLetter str in
  let prefix := GoStrings.take firstLetter str in
  let name := GoStrings.drop firstLetter str in
  let name := GoStrings.TrimPrefix name (schemaPkg +:+ ".") in
  let name := GoStrings.TrimPrefix name "command-line-arguments." in
  let name := GoStrings.Base name in
  let name := if String.eqb name "invalid type" then "invalidType" else name in
  prefix +:+ name.

Definition goTypeName (p : Parser) (typ : tid) : string :=
  goTypeNameOf (schemaPkgName p) (String_ (typeObj p typ)).

Definition goTypeImportOf (schemaPkg : string) (str : string) : string :=
  let name := GoStrings.drop (findFirstLetter str) str in
  match GoStrings.LastIndex name "."%char with
  | None | Some 0 => EmptyString
  | Some lastDot =>
      let name := GoStrings.take lastDot name in
      if String.eqb name schemaPkg || String.eqb name "command-line-arguments"
         || String.eqb name "time"
      then EmptyString else name
  end.

Definition goTypeImport (p : Parser) (typ : tid) : string :=
  goTypeImportOf (schemaPkgName p) (String_ (typeObj p typ)).

(** ** The walker of types.go *)

Definition anyVarType : VarType := mkVarType "any" T_Any None None None.
Definition stringVarType : VarType := mkVarType "string" T_String None None None.
Definition timestampVarType : VarType := mkVarType "timestamp" T_Timestamp None None None.

Definition gospeakPkgPath : string := "github.com/golang-cz/gospeak".

Definition isPointer (s : Shape) : bool := match s with Pointer _ => true | _ => false end.
Definition isStruct (s : Shape) : bool := match s with Struct _ => true | _ => false end.

(** One comment line of an enum declaration: [i] is its index in the doc
    block. *)
Definition enumValueOf (i : nat) (text : string) : TypeField :=
  let commentValue := fst (GoStrings.CutPrefix text "//") in
  let '(name, value, found) := GoStrings.Cut commentValue "=" in
  let value := if found then value else GoStrings.itoa i in
  let name := if found then name else commentValue in
  mkTypeField (GoStrings.TrimSpace name) None (GoStrings.TrimSpace value) [] false.

Definition enumValuesOfSpec (doc : option (list string)) (spec : AstSpec) : list TypeField :=
  match spec with
  | TypeSpec (Ident typeName) =>
      if String.eqb typeName "Enum" then
        match doc with
        | Some comments => imap enumValueOf comments
        | None => []
        end
      else []
  | _ => []
  end.

Definition enumValuesOfDecl (decl : AstDecl) : list TypeField :=
  match decl with
  | GenDecl true doc specs => concat (map (enumValuesOfSpec doc) specs)
  | _ => []
  end.

Definition enumValues (p : Parser) : list TypeField :=
  concat (map (fun file => concat (map enumValuesOfDecl file)) (pkgSyntax p)).

Section Walker.

Variable p : Parser.

(** The recursive call p.parseNamedType(typeName, typ). *)
Variable rec : string -> tid -> M loc.

Definition parseBasic (name : string) : M loc :=
  types <- getTypes ;;
  match ParseVarTypeExpr p types name with
  | inl varType => alloc varType
  | inr e => fail ("failed to parse basic type: " +:+ name +:+ ": " +:+ e)
  end.

Definition parseAny (typeName : string) (methods : list string) : M loc :=
  alloc anyVarType.

Definition parseSlice (typeName : string) (sliceElem : tid) : M loc :=
  elem <- wrapErr "failed to parse slice type: " (rec typeName sliceElem) ;;
  e <- deref elem ;;
  alloc (mkVarType ("[]" +:+ Expr e) T_List (Some elem) None None).

Definition parseMap (typeName : string) (mKey mElem : tid) : M loc :=
  key <- wrapErr "failed to parse map key type: " (rec typeName mKey) ;;
  value <- wrapErr "failed to parse map value type: " (rec typeName mElem) ;;
  k <- deref key ;;
  v <- deref value ;;
  alloc (mkVarType ("map<" +:+ Expr k +:+ "," +:+ Expr v +:+ ">") T_Map
           None (Some (Type_ k, value)) None).

Definition metaOf (goFieldName goFieldType goFieldImport : string)
    (jsonValue : option string) : list (string * string) :=
  [("go.field.name", goFieldName); ("go.field.type", goFieldType)]
  ++ (if String.eqb goFieldImport "" then [] else [("go.type.import", goFieldImport)])
  ++ match jsonValue with Some v => [("go.tag.json", v)] | None => [] end.

Definition parseStructField (structTypeName : string) (field : Var)
    (structTags : string) : M (option TypeField) :=
  let fieldName := v_Name field in
  let fieldType := v_Type field in
  let goFieldType := goTypeName p fieldType in
  let goFieldImport := goTypeImport p fieldType in
  let '(jsonTag, ok) := getJsonTag structTags in
  if ok && String.eqb (tag_Name jsonTag) "-" then ret None
  else
    let jsonFieldName :=
      if ok && negb (String.eqb (tag_Name jsonTag) "") then tag_Name jsonTag
      else fieldName in
    let optional := if ok then tag_Omitempty jsonTag else false in
    if ok && tag_IsString jsonTag then
      stringType <- alloc stringVarType ;;
      ret (Some (mkTypeField jsonFieldName (Some stringType) EmptyString
                   (metaOf fieldName goFieldType goFieldImport (Some (tag_Value jsonTag)))
                   optional))
    else
      let optional :=
        if isPointer (shapeOf p (Underlying p fieldType)) then true else optional in
      let structTypeName :=
        if isStruct (shapeOf p (Underlying p fieldType))
        then structTypeName +:+ "Anonymous" +:+ fieldName
        else structTypeName in
      varType <- wrapErr ("failed to parse var " +:+ fieldName +:+ ": ")
                   (rec structTypeName fieldType) ;;
      ret (Some (mkTypeField jsonFieldName (Some varType) EmptyString
                   (metaOf fieldName goFieldType goFieldImport
                      (if String.eqb (tag_Value jsonTag) "" then None
                       else Some (tag_Value jsonTag)))
                   optional)).

(** The inner loop of parseStruct over the fields of an embedded struct. *)
Fixpoint appendAll (fields : list TypeField) (embedded : list TypeField)
    : option (list TypeField) :=
  match embedded with
  | [] => Some fields
  | embeddedField :: rest =>
      match appendOrOverrideExistingField fields embeddedField with
      | Some fields' => appendAll fields' rest
      | None => None
      end
  end.

(** varType.Struct.Type.Fields *)
Definition structFieldsOf (v : VarType) : M (list TypeField) :=
  match Struct_ v with
  | None => panic "nil pointer dereference"
  | Some (_, t) =>
      types <- getTypes ;;
      match types !! t with
      | Some ty => ret (t_Fields ty)
      | None => panic "nil pointer dereference"
      end
  end.

(** The loop of parseStruct from field [i] on, with structType.Fields so
    far. *)
Fixpoint structLoop (typeName : string) (fields : list (Var * string)) (i : nat)
    (acc : list TypeField) : M (list TypeField) :=
  match fields with
  | [] => ret acc
  | (structField, structTags) :: rest =>
      if negb (v_Exported structField) then structLoop typeName rest (S i) acc
      else if v_Embedded structField
              || GoStrings.Contains structTags (jsonKey +:+ ",inline" +:+ GoStrings.q) then
        varType <- wrapErr ("parsing var " +:+ v_Name structField +:+ ": ")
                     (rec "" (v_Type structField)) ;;
        v <- deref varType ;;
        if decide (Type_ v = T_Struct) then
          embedded <- structFieldsOf v ;;
          acc' <- liftPanic (appendAll acc embedded) ;;
          structLoop typeName rest (S i) acc'
        else structLoop typeName rest (S i) acc
      else
        field <- wrapErr ("parsing struct field " +:+ GoStrings.itoa i +:+ ": ")
                   (parseStructField typeName structField structTags) ;;
        match field with
        | Some f =>
            acc' <- liftPanic (appendOrOverrideExistingField acc f) ;;
            structLoop typeName rest (S i) acc'
        | None => structLoop typeName rest (S i) acc
        end
  end.

Definition parseStruct (typeName : string) (fields : list (Var * string)) : M loc :=
  structFields <- structLoop typeName fields 0 [] ;;
  structType <- appendType (mkSchemaType "struct" typeName None structFields) ;;
  alloc (mkVarType typeName T_Struct None None (Some (typeName, structType))).

(** The branch of the sentinel enum type. *)
Definition parseEnum (info : NamedInfo) (underlyingTypeName : string) : M loc :=
  let name := n_Id info in
  enumElemType <- wrapErr "parsing gospeak.Enum underlying type: "
                    (rec underlyingTypeName (n_Underlying info)) ;;
  enumType <- appendType (mkSchemaType "enum" name (Some enumElemType) (enumValues p)) ;;
  alloc (mkVarType name T_Struct None None (Some (name, enumType))).

(** The switch on the underlying type of a named type. *)
Definition parseNamedUnderlying (info : NamedInfo) (typeName : string) : M loc :=
  let underlying := n_Underlying info in
  match shapeOf p underlying with
  | Pointer _ =>
      rec (goTypeName p underlying) (Underlying p underlying)
  | Slice uElem | Array uElem =>
      if n_JsonMarshaler info then
        elem <- alloc anyVarType ;;
        alloc (mkVarType "[]any" T_List (Some elem) None None)
      else
        match shapeOf p (Underlying p uElem) with
        | Basic basic =>
            basicType <- wrapErr "failed to parse []namedBasicType: " (parseBasic basic) ;;
            b <- deref basicType ;;
            alloc (mkVarType ("[]" +:+ Expr b) T_List (Some basicType) None None)
        | _ => rec (goTypeName p underlying) (Underlying p underlying)
        end
  | _ =>
      if n_JsonMarshaler info then alloc anyVarType
      else rec typeName underlying
  end.

Definition parseNamed (typ : tid) (info : NamedInfo) : M loc :=
  let typeName := goTypeName p typ in
  let rest :=
    if n_TextMarshaler info then alloc stringVarType
    else parseNamedUnderlying info typeName in
  match n_PkgPath info with
  | Some path =>
      if String.eqb path "time" && String.eqb typeName "Time" then alloc timestampVarType
      else
        let underlyingTypeName := goTypeName p (n_Underlying info) in
        if String.eqb path gospeakPkgPath
           && GoStrings.HasPrefix typeName "Enum["
           && GoStrings.HasSuffix typeName "]"
        then parseEnum info underlyingTypeName
        else rest
  | None => rest
  end.

(** The type switch of parseNamedType. *)
Definition dispatch (typeName : string) (typ : tid) : M loc :=
  match shapeOf p typ with
  | Named info => parseNamed typ info
  | Basic name => parseBasic name
  | Struct fields => parseStruct typeName fields
  | Slice elem => parseSlice typeName elem
  | Interface methods => parseAny typeName methods
  | Map key elem => parseMap typeName key elem
  | Pointer elem =>
      if String.eqb typeName "" then rec (goTypeName p typ) elem
      else rec typeName elem
  | Array _ => fail "unsupported argument type *types.Array"
  | Other goType => fail ("unsupported argument type " +:+ goType)
  | Alias _ => fail "unsupported argument type *types.Alias"
  end.

End Walker.

(** The cache claim: a new record with the parent name, stored under the
    key of the type. *)
Definition claim (typeName : string) (typ : tid) (st : State) : State :=
  mkState (<[typ := length (heap st)]> (parsedTypes st))
          (heap st ++ [mkVarType typeName T_Invalid None None None])
          (schemaTypes st).

(** The deferred function: when the call returns a record, its contents are
    copied into the claimed record, and the claimed record is returned. *)
Definition fill (cacheDoNotReturn : loc) (o : Outcome loc) : Outcome loc :=
  match o with
  | Done (Ok varType) st =>
      match heap st !! varType with
      | Some v =>
          Done (Ok cacheDoNotReturn)
               (mkState (parsedTypes st) (<[cacheDoNotReturn := v]> (heap st)) (schemaTypes st))
      | None => Done (Panic "nil pointer dereference") st
      end
  | _ => o
  end.

(** parseNamedType. [fuel] bounds the depth of the recursion. *)
Fixpoint parseNamedType (p : Parser) (fuel : nat) (typeName : string) (typ : tid)
    : M loc :=
  fun st =>
    match fuel with
    | 0 => OutOfFuel
    | S fuel' =>
        match parsedTypes st !! typ with
        | Some parsedType => Done (Ok parsedType) st
        | None =>
            fill (length (heap st))
                 (dispatch p (parseNamedType p fuel') typeName typ (claim typeName typ st))
        end
    end.

Definition parseType (p : Parser) (fuel : nat) (typ : tid) : M loc :=
  parseNamedType p fuel "" typ.

(** ** The walker of internal/parser *)

Module Internal.

(** JsonTag of internal/parser, as ParseStruct and parseStructField read
    it. *)
Record JsonTag : Type := mkJsonTag {
  Name : string;
  Value : string;
  IsString : bool;
  Omitempty : bool;
  Inline : bool
}.

Section Struct.

Variable p : Parser.

(** Functions of the package that the two files call and do not define:
    the name helpers, the tag parser, and the translator under the
    signature this file calls it with (a parent name and a type). *)
Variable GoTypeName : tid -> string.
Variable GoTypeImport : tid -> string.
Variable GoTypeNameToWebrpc : string -> string.
Variable GetJsonTag : string -> JsonTag * bool.
Variable ParseNamedType : string -> tid -> M loc.

Definition isAliasNamed (s : Shape) : bool :=
  match s with
  | Named info => n_IsAlias info
  | _ => false
  end.

Definition metaOf (fieldName goFieldType goFieldImport : string)
    (jsonValue : option string) : list (string * string) :=
  [("go.field.name", fieldName); ("go.field.type", goFieldType)]
  ++ (if String.eqb goFieldImport "" then [] else [("go.type.import", goFieldImport)])
  ++ match jsonValue with Some v => [("go.tag.json", v)] | None => [] end.

Definition parseStructField (structTypeName : string) (field : Var)
    (jsonTag : JsonTag) : M (option TypeField) :=
  let fieldName := v_Name field in
  let fieldType := v_Type field in
  let goFieldType := GoTypeName fieldType in
  let goFieldImport := GoTypeImport fieldType in
  if String.eqb (Name jsonTag) "-" then ret None
  else
    let jsonFieldName :=
      if String.eqb (Name jsonTag) "" then fieldName else Name jsonTag in
    let optional := Omitempty jsonTag in
    let goFieldType :=
      if Omitempty jsonTag then "*" +:+ goFieldType else goFieldType in
    if IsString jsonTag then
      stringType <- alloc stringVarType ;;
      ret (Some (mkTypeField jsonFieldName (Some stringType) EmptyString
                   (metaOf fieldName goFieldType goFieldImport (Some (Value jsonTag)))
                   optional))
    else
      (* the assignment to structTypeName for anonymous structs is never
         read afterwards *)
      let ptr := isPointer (shapeOf p (Underlying p fieldType)) in
      let optional := if ptr then true else optional in
      let goFieldType := if ptr then "*" +:+ goFieldType else goFieldType in
      if isAliasNamed (shapeOf p fieldType)
         || isAliasNamed (shapeOf p (Underlying p fieldType))
      then panic ("alias: " +:+ String_ (typeObj p fieldType))
      else
        varType <- wrapErr ("failed to parse var " +:+ fieldName +:+ ": ")
                     (ParseNamedType goFieldType fieldType) ;;
        ret (Some (mkTypeField jsonFieldName (Some varType) EmptyString
                     (metaOf fieldName goFieldType goFieldImport
                        (if String.eqb (Value jsonTag) "" then None
                         else Some (Value jsonTag)))
                     optional)).

Fixpoint structLoop (goTypeName : string) (fields : list (Var * string)) (i : nat)
    (acc : list TypeField) : M (list TypeField) :=
  match fields with
  | [] => ret acc
  | (structField, structTags) :: rest =>
      if negb (v_Exported structField) then structLoop goTypeName rest (S i) acc
      else
        let jsonTag := fst (GetJsonTag structTags) in
        if String.eqb (Name jsonTag) "-" then structLoop goTypeName rest (S i) acc
        else if v_Embedded structField || Inline jsonTag then
          varType <- wrapErr ("parsing var " +:+ v_Name structField +:+ ": ")
                       (ParseNamedType "" (v_Type structField)) ;;
          v <- deref varType ;;
          if decide (Type_ v = T_Struct) then
            embedded <- structFieldsOf v ;;
            acc' <- liftPanic (appendAll acc embedded) ;;
            structLoop goTypeName rest (S i) acc'
          else structLoop goTypeName rest (S i) acc
        else
          field <- wrapErr ("parsing struct field " +:+ GoStrings.itoa i +:+ ": ")
                     (parseStructField (goTypeName +:+ "Field") structField jsonTag) ;;
          match field with
          | Some f =>
              acc' <- liftPanic (appendOrOverrideExistingField acc f) ;;
              structLoop goTypeName rest (S i) acc'
          | None => structLoop goTypeName rest (S i) acc
          end
  end.

Definition ParseStruct (goTypeName : string) (fields : list (Var * string)) : M loc :=
  let webrpcTypeName := GoTypeNameToWebrpc goTypeName in
  structFields <- structLoop goTypeName fields 0 [] ;;
  structType <- appendType (mkSchemaType "struct" webrpcTypeName None structFields) ;;
  alloc (mkVarType webrpcTypeName T_Struct None None
           (Some (webrpcTypeName, structType))).

End Struct.

Section Named.

Variable p : Parser.

(** p.ParsedEnumTypes, filled before the walk, keyed by typ.String(). *)
Variable ParsedEnumTypes : gmap string SchemaType.

(** Functions that named.go calls with a *types.Named parent and that are
    not defined under that signature in the files at hand; each receives
    the recursive call where it needs one. *)
Variable GoTypeName : option tid -> string.
Variable ParseBasic : string -> M loc.
Variable ParseStruct : (option tid -> tid -> M loc) -> option tid -> list (Var * string) -> M loc.
Variable ParseSlice : (option tid -> tid -> M loc) -> option tid -> tid -> M loc.
Variable ParseAny : option tid -> list string -> M loc.
Variable ParseMap : (option tid -> tid -> M loc) -> option tid -> tid -> tid -> M loc.

Variable rec : option tid -> tid -> M loc.

Definition parseNamedUnderlying (v : tid) (info : NamedInfo) : M loc :=
  let underlying := n_Underlying info in
  match shapeOf p underlying with
  | Pointer _ => rec (Some v) (Underlying p underlying)
  | Slice uElem | Array uElem =>
      if n_JsonMarshaler info then
        elem <- alloc anyVarType ;;
        alloc (mkVarType "[]any" T_List (Some elem) None None)
      else
        match shapeOf p (Underlying p uElem) with
        | Basic basic =>
            basicType <- wrapErr "failed to parse []namedBasicType: " (ParseBasic basic) ;;
            b <- deref basicType ;;
            alloc (mkVarType ("[]" +:+ Expr b) T_List (Some basicType) None None)
        | _ => rec (Some v) (Underlying p underlying)
        end
  | _ =>
      if n_JsonMarshaler info then alloc anyVarType
      else rec (Some v) underlying
  end.

Definition parseNamed (typ : tid) (info : NamedInfo) : M loc :=
  let goTypeName := GoTypeName (Some typ) in
  if bool_decide (is_Some (n_PkgPath info)) && String.eqb goTypeName "time.Time"
  then alloc timestampVarType
  else
    match ParsedEnumTypes !! String_ (typeObj p typ) with
    | Some enum => alloc (mkVarType (t_Name enum) T_String None None None)
    | None =>
        if n_TextMarshaler info then alloc stringVarType
        else parseNamedUnderlying typ info
    end.

Definition dispatch (parent : option tid) (typ : tid) : M loc :=
  match shapeOf p typ with
  | Named info => parseNamed typ info
  | Basic name => ParseBasic name
  | Struct fields => ParseStruct rec parent fields
  | Slice elem => ParseSlice rec parent elem
  | Interface methods => ParseAny parent methods
  | Map key elem => ParseMap rec parent key elem
  | Pointer elem => rec parent elem
  | Array _ => fail "unsupported argument type *types.Array"
  | Other goType => fail ("unsupported argument type " +:+ goType)
  | Alias _ => fail "unsupported argument type *types.Alias"
  end.

End Named.

Fixpoint ParseNamedType (p : Parser) (ParsedEnumTypes : gmap string SchemaType)
    (GoTypeName : option tid -> string)
    (ParseBasic : string -> M loc)
    (ParseStruct : (option tid -> tid -> M loc) -> option tid -> list (Var * string) -> M loc)
    (ParseSlice : (option tid -> tid -> M loc) -> option tid -> tid -> M loc)
    (ParseAny : option tid -> list string -> M loc)
    (ParseMap : (option tid -> tid -> M loc) -> option tid -> tid -> tid -> M loc)
    (fuel : nat) (parent : option tid) (typ : tid) : M loc :=
  fun st =>
    match fuel with
    | 0 => OutOfFuel
    | S fuel' =>
        match parsedTypes st !! typ with
        | Some parsedType => Done (Ok parsedType) st
        | None =>
            fill (length (heap st))
              (dispatch p ParsedEnumTypes GoTypeName ParseBasic ParseStruct ParseSlice
                 ParseAny ParseMap
                 (ParseNamedType p ParsedEnumTypes GoTypeName ParseBasic ParseStruct
                    ParseSlice ParseAny ParseMap fuel')
                 parent typ
                 (claim (GoTypeName parent) typ st))
        end
    end.

End Internal.

(** ** Notions used by the statements *)

Definition otherName (name : string) (f : TypeField) : Prop := f_Name f ≠ name.

Global Instance otherName_dec name f : Decision (otherName name f).
Proof. unfold otherName. apply _. Defined.

(** The state only grows: every memo entry stays, with its address, and the
    records and the schema types that existed keep their place and their
    contents. *)
Definition extends (st st' : State) : Prop :=
  parsedTypes st ⊆ parsedTypes st'
  ∧ heap st `prefix_of` heap st'
  ∧ schemaTypes st `prefix_of` schemaTypes st'.

(** The number of types of the graph that have no memo entry yet. *)
Definition unclaimed (p : Parser) (st : State) : nat :=
  size (dom (graph p) ∖ dom (parsedTypes st) : gset tid).

(** What holds of the memo between two calls of the walker: its records
    exist, no two keys share a record, and the record of an interface type
    is the any record. *)
Definition WF (p : Parser) (st : State) : Prop :=
  (∀ t l, parsedTypes st !! t = Some l → l < length (heap st))
  ∧ (∀ t1 t2 l, parsedTypes st !! t1 = Some l → parsedTypes st !! t2 = Some l → t1 = t2)
  ∧ (∀ t l ms, parsedTypes st !! t = Some l → shapeOf p t = Interface ms →
       heap st !! l = Some anyVarType).

(** The value of a Meta key. *)
Fixpoint metaGet (key : string) (meta : list (string * string)) : option string :=
  match meta with
  | [] => None
  | (k, v) :: rest => if String.eqb k key then Some v else metaGet key rest
  end.

(** The kinds the specification calls primitive or string-like. *)
Definition primitiveOrStringLike (k : CoreType) : bool :=
  match k with
  | T_Byte | T_Bool
  | T_Uint | T_Uint8 | T_Uint16 | T_Uint32 | T_Uint64
  | T_Int | T_Int8 | T_Int16 | T_Int32 | T_Int64
  | T_Float32 | T_Float64 | T_String | T_Timestamp => true
  | _ => false
  end.

(** A judgement on a computation of the walker: when fewer than [n] types
    of the graph are unclaimed it returns, and whenever it returns, the
    state has only grown and the memo invariant is kept. *)
Definition Safe (p : Parser) {A} (n : nat) (m : M A) : Prop :=
  ∀ st,
    (unclaimed p st < n → ∃ r st', m st = Done r st')
    ∧ (∀ r st', m st = Done r st' → extends st st' ∧ (WF p st → WF p st')).

(** A computation all of whose results are field lists with unique names. *)
Definition uniq (m : M (list TypeField)) : Prop :=
  ∀ st r st', m st = Done (Ok r) st' → NoDup (map f_Name r).

(** The star in front of the type expression of a pointer field. *)
Definition ptrStar (ptr : bool) (s : string) : string :=
  if ptr then "*" +:+ s else s.

(** ** Sample inputs *)

Definition tagOf (body : string) : string := jsonKey +:+ body +:+ GoStrings.q.

(** The core type names of webrpc among the names of the Go basic types. *)
Definition sampleCoreOf (name : string) : option CoreType :=
  if String.eqb name "bool" then Some T_Bool
  else if String.eqb name "int" then Some T_Int
  else if String.eqb name "int64" then Some T_Int64
  else if String.eqb name "uint64" then Some T_Uint64
  else if String.eqb name "float64" then Some T_Float64
  else if String.eqb name "string" then Some T_String
  else None.

Definition sampleParseVarTypeExpr (types : list SchemaType) (name : string)
    : VarType + string :=
  match sampleCoreOf name with
  | Some k => inl (mkVarType name k None None None)
  | None => inr ("unknown type " +:+ name)
  end.

Definition samplePkg : string := "example.com/proto".

Definition sampleParser (g : list (tid * TypeObj)) : Parser :=
  mkParser (list_to_map g) samplePkg [] sampleParseVarTypeExpr.

Definition namedIn (pkg id : string) (underlying : tid) : TypeObj :=
  mkTypeObj (pkg +:+ "." +:+ id)
            (Named (mkNamed (Some pkg) id underlying false false false)).

Definition cyclicGraph : list (tid * TypeObj) :=
  [ (0, namedIn samplePkg "Node" 1);
    (1, mkTypeObj "struct{Value int; Next *example.com/proto.Node}"
          (Struct [(mkVar "Value" true false 2, EmptyString);
                   (mkVar "Next" true false 3, EmptyString)]));
    (2, mkTypeObj "int" (Basic "int"));
    (3, mkTypeObj "*example.com/proto.Node" (Pointer 0)) ].


(** map[Point]string with Point an empty struct. *)
Definition mapGraph : list (tid * TypeObj) :=
  [ (0, mkTypeObj "map[example.com/proto.Point]string" (Map 1 3));
    (1, namedIn samplePkg "Point" 2);
    (2, mkTypeObj "struct{}" (Struct []));
    (3, mkTypeObj "string" (Basic "string")) ].

(** map[string]chan int *)
Definition mapChanGraph : list (tid * TypeObj) :=
  [ (0, mkTypeObj "map[string]chan int" (Map 1 2));
    (1, mkTypeObj "string" (Basic "string"));
    (2, mkTypeObj "chan int" (Other "*types.Chan")) ].

(** interface{ Read(p []byte) (n int, err error) } *)
Definition ifaceGraph : list (tid * TypeObj) :=
  [ (0, mkTypeObj "interface{Read(p []byte) (n int, err error)}"
          (Interface ["Read(p []byte) (n int, err error)"])) ].

(** The basic types of the field examples. *)
Definition fieldGraph : list (tid * TypeObj) :=
  [ (0, mkTypeObj "string" (Basic "string"));
    (1, mkTypeObj "int64" (Basic "int64")) ].

Definition fieldEmail : Var := mkVar "Email" true false 0.
Definition fieldID : Var := mkVar "ID" true false 1.






Definition fieldNamed (name value : string) : TypeField :=
  mkTypeField name None value [] false.

(** ** Notions used by the further properties *)

(** An ASCII byte. In ASCII text every byte is a rune of its own, and
    unicode.IsLetter and the white space of strings.TrimSpace are the tests
    written out in [GoStrings]. *)
Definition isASCII (c : ascii) : bool := nat_of_ascii c <? 128.

(** Every byte of [s] satisfies [p]. *)
Fixpoint allChars (p : ascii → bool) (s : string) : bool :=
  match s with
  | EmptyString => true
  | String c s' => p c && allChars p s'
  end.

(** The options of a tag, each behind its comma. *)
Fixpoint joinOptions (tokens : list string) : string :=
  match tokens with
  | [] => EmptyString
  | t :: rest => String ","%char (t +:+ joinOptions rest)
  end.

Definition notComma (c : ascii) : bool := negb (Ascii.eqb c ","%char).

(** [s] is empty or starts with a byte that fails [p]. *)
Definition stopsAt (p : ascii → bool) (s : string) : Prop :=
  match s with
  | EmptyString => True
  | String c _ => p c = false
  end.

(** The name of the field is not among [names]. *)
Definition notIn (names : list string) (f : TypeField) : Prop := f_Name f ∉ names.
Global Instance notIn_dec names f : Decision (notIn names f).
Proof. unfold notIn. apply _. Defined.

(** ASCII letters, digits and the underscore. *)
Definition isIdentChar (c : ascii) : bool :=
  let n := nat_of_ascii c in
  GoStrings.IsLetter c || ((48 <=? n) && (n <=? 57)) || (n =? 95).

Definition notLetter (c : ascii) : bool := negb (GoStrings.IsLetter c).

(** [s] starts with a letter. *)
Definition startsWithLetter (s : string) : Prop :=
  match s with
  | String c _ => GoStrings.IsLetter c = true
  | EmptyString => False
  end.

Definition notSlash (c : ascii) : bool := negb (GoStrings.isSlash c).

(** [s] is empty or starts with a slash. *)
Definition slashOrEnd (s : string) : Prop :=
  match s with
  | EmptyString => True
  | String c _ => GoStrings.isSlash c = true
  end.

(** A parse: a sequence of calls of the translator, each with its budget,
    parent name and type; the results are dropped, the state is threaded. *)
Fixpoint runs (p : Parser) (calls : list (nat * string * tid)) (st : State)
    : option State :=
  match calls with
  | [] => Some st
  | (fuel, typeName, typ) :: rest =>
      match parseNamedType p fuel typeName typ st with
      | Done _ st' => runs p rest st'
      | OutOfFuel => None
      end
  end.

(** A record of struct kind refers to a record of [types] of its name. *)
Definition structRefOk (types : list SchemaType) (v : VarType) : Prop :=
  Type_ v = T_Struct →
  ∃ n i ty, Struct_ v = Some (n, i) ∧ types !! i = Some ty ∧ t_Name ty = n.

(** The records of the memo exist, and every record of struct kind refers to
    a type of the schema. *)
Definition Valid (st : State) : Prop :=
  (∀ t l, parsedTypes st !! t = Some l → l < length (heap st))
  ∧ (∀ l v, heap st !! l = Some v → structRefOk (schemaTypes st) v).

(** What the walker needs of schema.ParseVarTypeExpr: a record of struct kind
    that it returns refers to a type of the schema it was given. *)
Definition resolvesStructs (p : Parser) : Prop :=
  ∀ types name v, ParseVarTypeExpr p types name = inl v → structRefOk types v.

Definition stable (P : State → Prop) : Prop :=
  ∀ st st', extends st st' → P st → P st'.

(** From a valid state in which [P] holds, [m] does not panic, leaves a
    valid state that extends the first, and its value satisfies [Q]. *)
Definition Sound {A} (P : State → Prop) (Q : A → State → Prop) (m : M A) : Prop :=
  ∀ st, Valid st → P st → ∀ r st', m st = Done r st' →
    Valid st' ∧ extends st st'
    ∧ match r with Ok a => Q a st' | Err _ => True | Panic _ => False end.

Definition validLoc (l : loc) (st : State) : Prop := l < length (heap st).

Definition notEquals (c : ascii) : bool := negb (Ascii.eqb c "="%char).
Definition notSpace (c : ascii) : bool := negb (GoStrings.isSpace c).

(** ** The marshaler probes (types.go) *)

(** isTextMarshaler and isJsonMarshaller look two methods up and match the
    printed signature of each against a pattern. The lookup belongs to
    go/types: the probes are given here on its outcome, the text that
    String() prints for the method that was found, or nothing. The walker
    reads the verdict of a probe from [n_TextMarshaler] and
    [n_JsonMarshaler].

    The regular expressions of the marshaler probe use literals, the dot,
    the class of lower-case letters, one-or-more and optional groups; they
    are anchored at both ends. The expressions are written as syntax trees
    and matched by derivatives; [MatchString_lang] below relates the
    matcher to the language of an expression. *)
Inductive Regex : Type :=
| Empty
| Eps
| Chr (c : ascii)
| AnyChar                       (* the dot: any byte but the newline *)
| Lower                         (* [a-z] *)
| Seq (r1 r2 : Regex)
| Alt (r1 r2 : Regex)
| Star (r : Regex).

Definition notNewline (c : ascii) : bool := negb (nat_of_ascii c =? 10).
Definition isLower (c : ascii) : bool :=
  let n := nat_of_ascii c in (97 <=? n) && (n <=? 122).

Fixpoint nullable (r : Regex) : bool :=
  match r with
  | Empty | Chr _ | AnyChar | Lower => false
  | Eps | Star _ => true
  | Seq r1 r2 => nullable r1 && nullable r2
  | Alt r1 r2 => nullable r1 || nullable r2
  end.

(** What is left of [r] after the byte [c]. *)
Fixpoint deriv (c : ascii) (r : Regex) : Regex :=
  match r with
  | Empty | Eps => Empty
  | Chr d => if Ascii.eqb c d then Eps else Empty
  | AnyChar => if notNewline c then Eps else Empty
  | Lower => if isLower c then Eps else Empty
  | Seq r1 r2 =>
      if nullable r1 then Alt (Seq (deriv c r1) r2) (deriv c r2)
      else Seq (deriv c r1) r2
  | Alt r1 r2 => Alt (deriv c r1) (deriv c r2)
  | Star r1 => Seq (deriv c r1) (Star r1)
  end.

(** MatchString for a pattern anchored at both ends: the whole text is in the
    language of the expression. *)
Fixpoint MatchString (r : Regex) (s : string) : bool :=
  match s with
  | EmptyString => nullable r
  | String c s' => MatchString (deriv c r) s'
  end.

Fixpoint Lit (s : string) : Regex :=
  match s with
  | EmptyString => Eps
  | String c s' => Seq (Chr c) (Lit s')
  end.

Definition Plus (r : Regex) : Regex := Seq r (Star r).
Definition Opt (r : Regex) : Regex := Alt r Eps.

(** func \((.+)\)\.NAME\(\) \((.+ )?\[\]byte, ([a-z]+ )?error\) *)
Definition marshalerRegex (method : string) : Regex :=
  Seq (Lit "func (") (Seq (Plus AnyChar)
  (Seq (Lit (")." +:+ method +:+ "() ("))
  (Seq (Opt (Seq (Plus AnyChar) (Chr " ")))
  (Seq (Lit "[]byte, ")
  (Seq (Opt (Seq (Plus Lower) (Chr " ")))
       (Lit "error)")))))).

(** func \((.+)\)\.NAME\((.+ )?\[\]byte\) \(?(.+ )?error\)? *)
Definition unmarshalerRegex (method : string) : Regex :=
  Seq (Lit "func (") (Seq (Plus AnyChar)
  (Seq (Lit (")." +:+ method +:+ "("))
  (Seq (Opt (Seq (Plus AnyChar) (Chr " ")))
  (Seq (Lit "[]byte) ")
  (Seq (Opt (Chr "("))
  (Seq (Opt (Seq (Plus AnyChar) (Chr " ")))
  (Seq (Lit "error") (Opt (Chr ")"))))))))).

Definition textMarshalerRegex : Regex := marshalerRegex "MarshalText".
Definition textUnmarshalerRegex : Regex := unmarshalerRegex "UnmarshalText".
Definition jsonMarshalerRegex : Regex := marshalerRegex "MarshalJSON".
Definition jsonUnmarshalerRegex : Regex := unmarshalerRegex "UnmarshalJSON".

(** The probe, on what types.LookupFieldOrMethod finds under the two names:
    the String() of the object, or nothing. *)
Definition probe (marshaler unmarshaler : Regex) (marshalMethod unmarshalMethod : option string)
    : bool :=
  match marshalMethod with
  | None => false
  | Some m =>
      if negb (MatchString marshaler m) then false
      else match unmarshalMethod with
           | None => false
           | Some u => MatchString unmarshaler u
           end
  end.

Definition isTextMarshaler : option string → option string → bool :=
  probe textMarshalerRegex textUnmarshalerRegex.
Definition isJsonMarshaller : option string → option string → bool :=
  probe jsonMarshalerRegex jsonUnmarshalerRegex.

(** The language of an expression. *)
Inductive lang : Regex → string → Prop :=
| lang_Eps : lang Eps EmptyString
| lang_Chr c : lang (Chr c) (String c EmptyString)
| lang_Any c : notNewline c = true → lang AnyChar (String c EmptyString)
| lang_Lower c : isLower c = true → lang Lower (String c EmptyString)
| lang_Seq r1 r2 s1 s2 : lang r1 s1 → lang r2 s2 → lang (Seq r1 r2) (s1 +:+ s2)
| lang_AltL r1 r2 s : lang r1 s → lang (Alt r1 r2) s
| lang_AltR r1 r2 s : lang r2 s → lang (Alt r1 r2) s
| lang_StarNil r : lang (Star r) EmptyString
| lang_StarApp r s1 s2 : lang r s1 → lang (Star r) s2 → lang (Star r) (s1 +:+ s2).

(** A non-empty text of bytes that satisfy [p]. *)
Definition word (p : ascii → bool) (w : string) : Prop :=
  w ≠ EmptyString ∧ allChars p w = true.

(** Nothing, or a word and a blank. *)
Definition optWord (p : ascii → bool) (s : string) : Prop :=
  s = EmptyString ∨ ∃ w, s = w +:+ " " ∧ word p w.

(** The texts of the marshaler pattern for the method [method]. *)
Definition marshalerShape (method s : string) : Prop :=
  ∃ recv res err,
    s = "func (" +:+ recv +:+ (")." +:+ method +:+ "() (") +:+ res +:+ "[]byte, "
        +:+ err +:+ "error)"
    ∧ word notNewline recv ∧ optWord notNewline res ∧ optWord isLower err.

(** The texts of the unmarshaler pattern for the method [method]. *)
Definition unmarshalerShape (method s : string) : Prop :=
  ∃ recv param paren res close,
    s = "func (" +:+ recv +:+ (")." +:+ method +:+ "(") +:+ param +:+ "[]byte) "
        +:+ paren +:+ res +:+ "error" +:+ close
    ∧ word notNewline recv ∧ optWord notNewline param
    ∧ (paren = EmptyString ∨ paren = "(")
    ∧ optWord notNewline res
    ∧ (close = EmptyString ∨ close = ")").

(** [r] is the class of the bytes that satisfy [p]. *)
Definition classOf (p : ascii → bool) (r : Regex) : Prop :=
  ∀ s, lang r s ↔ ∃ c, s = String c EmptyString ∧ p c = true.

(** ** Further sample inputs *)

(** []string *)
Definition sliceGraph : list (tid * TypeObj) :=
  [ (0, mkTypeObj "[]string" (Slice 1));
    (1, mkTypeObj "string" (Basic "string")) ].

(** *int64 *)
Definition pointerGraph : list (tid * TypeObj) :=
  [ (0, mkTypeObj "*int64" (Pointer 1));
    (1, mkTypeObj "int64" (Basic "int64")) ].

(** type UUID [16]byte with the methods MarshalText and UnmarshalText. *)
Definition uuidInfo : NamedInfo := mkNamed (Some samplePkg) "UUID" 1 true false false.
Definition uuidGraph : list (tid * TypeObj) :=
  [ (0, mkTypeObj "example.com/proto.UUID" (Named uuidInfo));
    (1, mkTypeObj "[16]byte" (Array 2));
    (2, mkTypeObj "byte" (Basic "byte")) ].

(** type Raw []byte with the methods MarshalJSON and UnmarshalJSON. *)
Definition rawInfo : NamedInfo := mkNamed (Some samplePkg) "Raw" 1 false true false.
Definition rawGraph : list (tid * TypeObj) :=
  [ (0, mkTypeObj "example.com/proto.Raw" (Named rawInfo));
    (1, mkTypeObj "[]byte" (Slice 2));
    (2, mkTypeObj "byte" (Basic "byte")) ].

(** [4]string *)
Definition arrayGraph : list (tid * TypeObj) :=
  [ (0, mkTypeObj "[4]string" (Array 1));
    (1, mkTypeObj "string" (Basic "string")) ].

(** A recursion that is not reached. *)
Definition noRec (typeName : string) (typ : tid) : M loc := fail "not reached".

(** type IDs []ID with type ID int64 *)
Definition idsInfo : NamedInfo := mkNamed (Some samplePkg) "IDs" 1 false false false.
Definition idsGraph : list (tid * TypeObj) :=
  [ (0, mkTypeObj "example.com/proto.IDs" (Named idsInfo));
    (1, mkTypeObj "[]example.com/proto.ID" (Slice 2));
    (2, namedIn samplePkg "ID" 3);
    (3, mkTypeObj "int64" (Basic "int64")) ].

(** A field that the JSON encoding hides: it is not exported, or it is a
    plain field whose tag names it with a dash. *)
Definition hidden (field : Var) (structTags : string) : Prop :=
  v_Exported field = false
  ∨ (v_Embedded field = false
     ∧ GoStrings.Contains structTags (jsonKey +:+ ",inline" +:+ GoStrings.q) = false
     ∧ ∃ jsonTag, getJsonTag structTags = (jsonTag, true) ∧ tag_Name jsonTag = "-").

(** A struct with a channel behind the tag that hides it. *)
Definition hiddenFields : list (Var * string) :=
  [ (mkVar "Done" true false 2, tagOf "-");
    (mkVar "ID" true false 1, tagOf "id") ].

(** type Text interface{ MarshalText; UnmarshalText }, a named interface
    that is a text marshaler. *)
Definition textInfo : NamedInfo := mkNamed (Some samplePkg) "Text" 1 true false false.
Definition textIfaceGraph : list (tid * TypeObj) :=
  [ (0, mkTypeObj "example.com/proto.Text" (Named textInfo));
    (1, mkTypeObj "interface{MarshalText() ([]byte, error); UnmarshalText(text []byte) error}"
          (Interface ["MarshalText() ([]byte, error)"; "UnmarshalText(text []byte) error"])) ].

(** any, the alias of interface{} *)
Definition anyAliasGraph : list (tid * TypeObj) :=
  [ (0, mkTypeObj "any" (Alias 1));
    (1, mkTypeObj "interface {}" (Interface [])) ].

(** type Reader interface{ Read(p []byte) (n int, err error) } *)
Definition readerInfo : NamedInfo := mkNamed (Some samplePkg) "Reader" 1 false false false.
Definition readerGraph : list (tid * TypeObj) :=
  [ (0, mkTypeObj "example.com/proto.Reader" (Named readerInfo));
    (1, mkTypeObj "interface{Read(p []byte) (n int, err error)}"
          (Interface ["Read(p []byte) (n int, err error)"])) ].

(** type Grid [3]Point with Point an empty struct *)
Definition gridInfo : NamedInfo := mkNamed (Some samplePkg) "Grid" 1 false false false.
Definition gridGraph : list (tid * TypeObj) :=
  [ (0, mkTypeObj "example.com/proto.Grid" (Named gridInfo));
    (1, mkTypeObj "[3]example.com/proto.Point" (Array 2));
    (2, namedIn samplePkg "Point" 3);
    (3, mkTypeObj "struct{}" (Struct [])) ].

(** type Aliased []MyInt with type MyInt = int *)
Definition aliasedInfo : NamedInfo := mkNamed (Some samplePkg) "Aliased" 1 false false false.
Definition aliasedGraph : list (tid * TypeObj) :=
  [ (0, mkTypeObj "example.com/proto.Aliased" (Named aliasedInfo));
    (1, mkTypeObj "[]example.com/proto.MyInt" (Slice 2));
    (2, mkTypeObj "example.com/proto.MyInt" (Alias 3));
    (3, mkTypeObj "int" (Basic "int")) ].

(** ** The embedding on the examples of the sources *)

Example goTypeName_examples :
  goTypeNameOf "github.com/golang-cz/gospeak/pkg" "[]*github.com/golang-cz/gospeak/pkg.Typ" = "[]*Typ"
  /\ goTypeNameOf "x" "[]*github.com/golang-cz/gospeak/pkg.Typ" = "[]*pkg.Typ"
  /\ goTypeNameOf "x" "time.Time" = "time.Time"
  /\ goTypeNameOf "x" "invalid type" = "invalidType"
  /\ goTypeImportOf "x" "[]*github.com/golang-cz/gospeak/pkg.Typ" = "github.com/golang-cz/gospeak/pkg"
  /\ goTypeImportOf "x" "string" = "".
Proof. repeat split; reflexivity. Qed.

(** The submatches that the comment above jsonTagRegex lists. *)
Example getJsonTag_examples :
  findJsonTag ("db:" +:+ GoStrings.q +:+ "id,omitempty,pk" +:+ GoStrings.q +:+ " "
               +:+ tagOf "id,string") = Some ("id", ",string")
  /\ getJsonTag (tagOf "deleted_by,omitempty,string")
     = (mkJsonTag "deleted_by" "deleted_by,omitempty,string" true true, true)
  /\ getJsonTag (tagOf "-") = (mkJsonTag "-" "-" false false, true)
  /\ getJsonTag "db:id" = (zeroJsonTag, false)
  /\ getJsonTag (jsonKey +:+ "id") = (zeroJsonTag, false).
Proof. repeat split; reflexivity. Qed.

(** With two entries of one name in the slice the loop runs out of the
    bounds of the shortened slice. *)
Example appendOrOverride_duplicates :
  appendOrOverrideExistingField [fieldNamed "a" "1"; fieldNamed "a" "2"] (fieldNamed "a" "3")
  = None.
Proof. reflexivity. Qed.

(** Node { Value int; Next *Node }: one struct record, and the field Next is
    Optional. *)
Example recursive_struct :
  ∃ l st' value next,
    parseType (sampleParser cyclicGraph) 5 0 initState = Done (Ok l) st'
    ∧ schemaTypes st' = [mkSchemaType "struct" "Node" None [value; next]]
    ∧ f_Name next = "Next" ∧ f_Optional next = true.
Proof.
  destruct (parseType (sampleParser cyclicGraph) 5 0 initState)
    as [[l| |] st'|] eqn:E; try (vm_compute in E; discriminate E).
  vm_compute in E. injection E as <- <-.
  eexists _, _, _, _. split; [reflexivity|]. repeat split; reflexivity.
Qed.

(** ** The override of a field *)

Lemma eqb_name_false (a b : string) : a ≠ b → String.eqb a b = false.
Proof. intros H. apply String.eqb_neq. exact H. Qed.

Lemma overrideLoop_nomatch name steps : ∀ i arr len,
  (∀ k, i ≤ k < i + steps → ∃ x, arr !! k = Some x ∧ f_Name x ≠ name) →
  overrideLoop name steps i arr len = Some (arr, len).
Proof.
  induction steps as [|steps IH]; intros i arr len H; simpl; [done|].
  destruct (H i) as (x & Hx & Hn); [lia|].
  rewrite Hx, (eqb_name_false _ _ Hn).
  apply IH. intros k Hk. apply H. lia.
Qed.

Lemma overrideLoop_app name a : ∀ b i arr len,
  overrideLoop name (a + b) i arr len =
  match overrideLoop name a i arr len with
  | Some (arr', len') => overrideLoop name b (i + a) arr' len'
  | None => None
  end.
Proof.
  induction a as [|a IH]; intros b i arr len; simpl.
  - by rewrite Nat.add_0_r.
  - destruct (arr !! i) as [item|]; [|done].
    destruct (String.eqb (f_Name item) name).
    + destruct (i + 1 <=? len); [|done].
      rewrite IH. by replace (S i + a) with (i + S a) by lia.
    + rewrite IH. by replace (S i + a) with (i + S a) by lia.
Qed.

Lemma filter_other_all name (l : list TypeField) :
  name ∉ map f_Name l → filter (otherName name) l = l.
Proof.
  induction l as [|x l IH]; simpl; intros H; [done|].
  rewrite not_elem_of_cons in H. destruct H as [H1 H2].
  rewrite filter_cons_True; [|unfold otherName; congruence].
  by rewrite IH.
Qed.

Lemma names_split name (l : list TypeField) :
  NoDup (map f_Name l) → name ∈ map f_Name l →
  ∃ l1 x l2, l = l1 ++ x :: l2 ∧ f_Name x = name
             ∧ (name ∉ map f_Name l1) ∧ (name ∉ map f_Name l2).
Proof.
  intros Hnd Hin.
  apply list_elem_of_fmap in Hin as (x & Hx & Hin).
  apply list_elem_of_split in Hin as (l1 & l2 & ->).
  exists l1, x, l2. split; [done|]. split; [done|].
  rewrite map_app in Hnd. simpl in Hnd.
  apply NoDup_app in Hnd as (_ & Hd & Hnd2).
  apply NoDup_cons in Hnd2 as [Hx2 _].
  split; [|by rewrite Hx].
  intros Hin. apply (Hd _ Hin). rewrite Hx. left.
Qed.

Lemma appendOrOverride_spec (slice : list TypeField) (newItem : TypeField) :
  NoDup (map f_Name slice) →
  appendOrOverrideExistingField slice newItem
  = Some (filter (otherName (f_Name newItem)) slice ++ [newItem]).
Proof.
  intros Hnd. unfold appendOrOverrideExistingField.
  set (name := f_Name newItem).
  destruct (decide (name ∈ map f_Name slice)) as [Hin|Hout].
  - destruct (names_split name slice Hnd Hin) as (l1 & x & l2 & -> & Hx & H1 & H2).
    assert (Hlook1 : ∀ y, y ∈ l1 → f_Name y ≠ name).
    { intros y Hy He. apply H1. rewrite <- He. by apply list_elem_of_fmap_2. }
    assert (Hlook2 : ∀ y, y ∈ l2 → f_Name y ≠ name).
    { intros y Hy He. apply H2. rewrite <- He. by apply list_elem_of_fmap_2. }
    replace (length (l1 ++ x :: l2)) with (length l1 + (1 + length l2))
      by (rewrite length_app; simpl; lia).
    rewrite overrideLoop_app.
    rewrite overrideLoop_nomatch.
    2:{ intros k Hk. destruct (lookup_lt_is_Some_2 l1 k) as [y Hy]; [lia|].
        exists y. split; [by rewrite lookup_app_l by lia|].
        apply Hlook1. by eapply list_elem_of_lookup_2. }
    rewrite overrideLoop_app. simpl.
    rewrite (list_lookup_middle l1 l2 x (length l1) eq_refl).
    rewrite Hx, String.eqb_refl.
    destruct (Nat.leb_spec (length l1 + 1) (length l1 + S (length l2))) as [_|?]; [|lia].
    set (arr := l1 ++ x :: l2).
    assert (Hcd : copyDown arr (length l1) (length l1 + S (length l2))
                  = l1 ++ l2 ++ drop (length l1 + length l2) arr).
    { unfold copyDown, arr.
      rewrite take_app_length.
      replace (length l1 + 1) with (length l1 + 1) by done.
      rewrite drop_app_add'; [|done].
      simpl. rewrite drop_0.
      replace (length l1 + S (length l2) - length l1 - 1) with (length l2) by lia.
      rewrite firstn_all.
      by replace (length l1 + S (length l2) - 1) with (length l1 + length l2) by lia. }
    rewrite Hcd.
    rewrite overrideLoop_nomatch.
    2:{ intros k Hk.
        destruct (decide (k < length l1 + length l2)) as [Hlt|Hge].
        - destruct (lookup_lt_is_Some_2 l2 (k - length l1)) as [y Hy]; [lia|].
          exists y. split.
          + rewrite lookup_app_r by lia. by rewrite lookup_app_l by lia.
          + apply Hlook2. by eapply list_elem_of_lookup_2.
        - assert (k = length l1 + length l2) as -> by lia.
          destruct l2 as [|z l2'] using rev_ind; [simpl in Hk; lia|].
          exists z. split.
          + rewrite lookup_app_r by lia. rewrite lookup_app_r by lia.
            rewrite lookup_drop. unfold arr.
            replace (length l1 + length (l2' ++ [z]) + (length l1 + length (l2' ++ [z]) - length l1 - length (l2' ++ [z])))
              with (length l1 + S (length l2')) by (rewrite length_app; simpl; lia).
            rewrite lookup_app_r by lia.
            replace (length l1 + S (length l2') - length l1) with (S (length l2')) by lia.
            simpl. rewrite lookup_app_r by lia.
            by replace (length l2' - length l2') with 0 by lia.
          + apply Hlook2. apply elem_of_app. right. left. }
    f_equal.
    replace (length l1 + S (length l2) - 1) with (length l1 + length l2) by lia.
    rewrite take_app_add'; [|done].
    rewrite take_app_length.
    unfold arr. rewrite filter_app, filter_cons_False; [|unfold otherName; intros H; by apply H].
    rewrite !filter_other_all by done. done.
  - rewrite overrideLoop_nomatch.
    + rewrite firstn_all. by rewrite filter_other_all.
    + intros k Hk. destruct (lookup_lt_is_Some_2 slice k) as [y Hy]; [lia|].
      exists y. split; [done|]. intros He. apply Hout. rewrite <- He.
      apply list_elem_of_fmap_2. by eapply list_elem_of_lookup_2.
Qed.

(** ** The walker only grows the state, and returns *)

Lemma extends_refl st : extends st st.
Proof. by repeat split. Qed.

Lemma extends_trans st1 st2 st3 : extends st1 st2 → extends st2 st3 → extends st1 st3.
Proof.
  intros (a1 & b1 & c1) (a2 & b2 & c2). repeat split; by etrans.
Qed.

Lemma extends_unclaimed p st st' : extends st st' → unclaimed p st' ≤ unclaimed p st.
Proof.
  intros (Hm & _ & _). unfold unclaimed. apply subseteq_size.
  intros t. rewrite !elem_of_difference. intros [Hg Hn]. split; [exact Hg|].
  intros Hd. apply Hn. apply elem_of_dom in Hd as [l Hl]. apply elem_of_dom.
  exists l. eapply lookup_weaken; [exact Hl|exact Hm].
Qed.

Lemma claim_unclaimed p typeName typ st :
  typ ∈ dom (graph p) → parsedTypes st !! typ = None →
  unclaimed p (claim typeName typ st) < unclaimed p st.
Proof.
  intros Hin Hnone. unfold unclaimed, claim; simpl.
  apply subset_size. rewrite dom_insert_L.
  apply not_elem_of_dom in Hnone. split.
  - intros t. rewrite !elem_of_difference, elem_of_union. intros [Hg Hn].
    split; [exact Hg|]. intros Hd. apply Hn. by right.
  - intros Hsub. specialize (Hsub typ).
    rewrite !elem_of_difference, elem_of_union, elem_of_singleton in Hsub.
    destruct Hsub as [_ Hn]; [by split|]. apply Hn. by left.
Qed.

Section Judgement.
Variable p : Parser.

Lemma safe_ret {A} n (a : A) : Safe p n (ret a).
Proof.
  intros st; split; [by eexists _, _|].
  intros r st' [= <- <-]. split; [apply extends_refl|done].
Qed.

Lemma safe_fail {A} n msg : Safe p n (@fail A msg).
Proof.
  intros st; split; [by eexists _, _|].
  intros r st' [= <- <-]. split; [apply extends_refl|done].
Qed.

Lemma safe_panic {A} n msg : Safe p n (@panic A msg).
Proof.
  intros st; split; [by eexists _, _|].
  intros r st' [= <- <-]. split; [apply extends_refl|done].
Qed.

Lemma safe_liftPanic {A} n (o : option A) : Safe p n (liftPanic o).
Proof. destruct o; [apply safe_ret|apply safe_panic]. Qed.

Lemma safe_getTypes n : Safe p n getTypes.
Proof.
  intros st; split; [by eexists _, _|].
  intros r st' [= <- <-]. split; [apply extends_refl|done].
Qed.

Lemma safe_deref n l : Safe p n (deref l).
Proof.
  intros st; unfold deref; split.
  - destruct (heap st !! l); by eexists _, _.
  - intros r st' H. destruct (heap st !! l); injection H as <- <-;
      (split; [apply extends_refl|done]).
Qed.

Lemma WF_alloc st v :
  WF p st → WF p (mkState (parsedTypes st) (heap st ++ [v]) (schemaTypes st)).
Proof.
  intros (Ha & Hb & Hc). split; [|split]; simpl.
  - intros t l Hl. rewrite length_app. specialize (Ha t l Hl). lia.
  - exact Hb.
  - intros t l ms Hl Hs. rewrite lookup_app_l by eauto. eauto.
Qed.

Lemma safe_alloc n v : Safe p n (alloc v).
Proof.
  intros st; split; [by eexists _, _|].
  intros r st' [= <- <-]. split.
  - repeat split; simpl; [done|by apply prefix_app_r|done].
  - apply WF_alloc.
Qed.

Lemma safe_appendType n t : Safe p n (appendType t).
Proof.
  intros st; split; [by eexists _, _|].
  intros r st' [= <- <-]. split.
  - repeat split; simpl; [done|done|by apply prefix_app_r].
  - intros H; exact H.
Qed.

Lemma safe_bind {A B} n (m : M A) (f : A → M B) :
  Safe p n m → (∀ a, Safe p n (f a)) → Safe p n (bind m f).
Proof.
  intros Hm Hf st. unfold bind. destruct (Hm st) as [Ht Hp]. split.
  - intros Hn. destruct (Ht Hn) as (r & st1 & E). rewrite E.
    destruct (Hp _ _ E) as [Hext _].
    destruct r as [a|e|e]; [|by eexists _, _..].
    apply (Hf a st1). pose proof (extends_unclaimed p _ _ Hext). lia.
  - intros r st' E. destruct (m st) as [[a|e|e] st1|] eqn:Em; [| | |done].
    + destruct (Hp _ _ eq_refl) as [H1 H2].
      destruct (proj2 (Hf a st1) _ _ E) as [H3 H4].
      split; [by eapply extends_trans|auto].
    + injection E as <- <-. apply (Hp _ _ eq_refl).
    + injection E as <- <-. apply (Hp _ _ eq_refl).
Qed.

Lemma safe_wrapErr {A} n prefix (m : M A) : Safe p n m → Safe p n (wrapErr prefix m).
Proof.
  intros Hm st. unfold wrapErr. destruct (Hm st) as [Ht Hp]. split.
  - intros Hn. destruct (Ht Hn) as (r & st1 & E). rewrite E.
    destruct r; by eexists _, _.
  - intros r st' E. destruct (m st) as [[a|e|e] st1|] eqn:Em; [| | |done];
      injection E as <- <-; apply (Hp _ _ eq_refl).
Qed.

Section Helpers.
Variable n : nat.
Variable rec : string → tid → M loc.
Hypothesis Hrec : ∀ name t, Safe p n (rec name t).

Ltac safe_step :=
  first [ apply safe_ret | apply safe_fail | apply safe_panic | apply safe_alloc
        | apply safe_deref | apply safe_appendType | apply safe_getTypes
        | apply safe_liftPanic | apply Hrec
        | apply safe_wrapErr | apply safe_bind; [|intros ?] ].
Ltac safe_auto :=
  repeat (match goal with H : ∀ _, _ |- Safe _ _ _ => apply H end
          || safe_step || (progress (cbv zeta)) || match goal with
                    | |- Safe _ _ (match ?x with _ => _ end) => destruct x
                    | |- Safe _ _ (if ?x then _ else _) => destruct x
                    | |- Safe _ _ (let '(_, _) := ?x in _) => destruct x
                    end).

Lemma safe_parseBasic name : Safe p n (parseBasic p name).
Proof. unfold parseBasic. safe_auto. Qed.

Lemma safe_parseAny name ms : Safe p n (parseAny name ms).
Proof. unfold parseAny. safe_auto. Qed.

Lemma safe_parseSlice name e : Safe p n (parseSlice rec name e).
Proof. unfold parseSlice. safe_auto. Qed.

Lemma safe_parseMap name k e : Safe p n (parseMap rec name k e).
Proof. unfold parseMap. safe_auto. Qed.

Lemma safe_parseStructField name f tags : Safe p n (parseStructField p rec name f tags).
Proof. unfold parseStructField. safe_auto. Qed.

Lemma safe_structFieldsOf v : Safe p n (structFieldsOf v).
Proof. unfold structFieldsOf. safe_auto. Qed.

Lemma safe_structLoop name fields : ∀ i acc, Safe p n (structLoop p rec name fields i acc).
Proof.
  induction fields as [|[f tags] rest IH]; intros i acc; simpl; [apply safe_ret|].
  pose proof safe_parseStructField. pose proof safe_structFieldsOf.
  safe_auto.
Qed.

Lemma safe_parseStruct name fields : Safe p n (parseStruct p rec name fields).
Proof. unfold parseStruct. pose proof safe_structLoop. safe_auto. Qed.

Lemma safe_parseEnum info uname : Safe p n (parseEnum p rec info uname).
Proof. unfold parseEnum. safe_auto. Qed.

Lemma safe_parseNamedUnderlying info name : Safe p n (parseNamedUnderlying p rec info name).
Proof. unfold parseNamedUnderlying. pose proof safe_parseBasic. safe_auto. Qed.

Lemma safe_parseNamed typ info : Safe p n (parseNamed p rec typ info).
Proof.
  unfold parseNamed. pose proof safe_parseEnum. pose proof safe_parseNamedUnderlying.
  safe_auto.
Qed.

Lemma safe_dispatch name typ : Safe p n (dispatch p rec name typ).
Proof.
  unfold dispatch.
  pose proof safe_parseNamed. pose proof safe_parseBasic. pose proof safe_parseStruct.
  pose proof safe_parseSlice. pose proof safe_parseAny. pose proof safe_parseMap.
  safe_auto.
Qed.
End Helpers.
End Judgement.

Lemma unclaimed_le_graph p st : unclaimed p st ≤ size (graph p).
Proof.
  unfold unclaimed. rewrite <- size_dom. apply subseteq_size.
  intros t. rewrite elem_of_difference. by intros [Hg _].
Qed.

Lemma extends_claim name t st :
  parsedTypes st !! t = None → extends st (claim name t st).
Proof.
  intros H. repeat split; simpl; [by apply insert_subseteq|by apply prefix_app_r|done].
Qed.

Lemma WF_claim p name t st :
  parsedTypes st !! t = None → (∀ ms, shapeOf p t ≠ Interface ms) →
  WF p st → WF p (claim name t st).
Proof.
  intros Hmiss Hni (Ha & Hb & Hc). split; [|split]; simpl.
  - intros t' l. rewrite length_app, lookup_insert. case_decide.
    + intros [= <-]. simpl; lia.
    + intros Hl. specialize (Ha _ _ Hl). lia.
  - intros t1 t2 l. rewrite !lookup_insert. repeat case_decide; subst.
    + done.
    + intros [= <-] Hl. specialize (Ha _ _ Hl). lia.
    + intros Hl [= <-]. specialize (Ha _ _ Hl). lia.
    + apply Hb.
  - intros t' l ms. rewrite lookup_insert. case_decide; subst.
    + intros _ Hs. by destruct (Hni ms).
    + intros Hl Hs. rewrite lookup_app_l by eauto. eauto.
Qed.

Lemma prefix_insert_length {A} (l k : list A) x :
  l `prefix_of` k → l `prefix_of` <[length l := x]> k.
Proof.
  intros [k' ->]. destruct k' as [|y k'].
  - rewrite app_nil_r. rewrite list_insert_ge by done. done.
  - rewrite insert_app_r_alt by done. replace (length l - length l) with 0 by lia.
    simpl. by apply prefix_app_r.
Qed.

Lemma safe_parseNamedType p fuel : ∀ name t, Safe p fuel (parseNamedType p fuel name t).
Proof.
  induction fuel as [|fuel IH]; intros name t st.
  - split; [intros H; lia|]. intros r st' H. discriminate H.
  - simpl. destruct (parsedTypes st !! t) as [l|] eqn:Hm.
    + split; [by eexists _, _|]. intros r st' [= <- <-].
      split; [apply extends_refl|done].
    + pose proof (safe_dispatch p fuel _ IH name t (claim name t st)) as [Ht Hp].
      pose proof (extends_claim name t st Hm) as Hext1.
      split.
      * intros Hn.
        destruct (graph p !! t) as [o|] eqn:Hg.
        -- destruct Ht as (r & st2 & E).
           { pose proof (claim_unclaimed p name t st) as Hlt.
             assert (t ∈ dom (graph p)) by (apply elem_of_dom; eauto).
             specialize (Hlt H Hm). lia. }
           rewrite E. unfold fill.
           destruct r as [v|e|e]; [|by eexists _, _..].
           destruct (heap st2 !! v); by eexists _, _.
        -- unfold dispatch, shapeOf, typeObj. rewrite Hg. simpl. by eexists _, _.
      * intros r st' E.
        destruct (dispatch p (parseNamedType p fuel) name t (claim name t st))
          as [r2 st2|] eqn:ED; [|discriminate E].
        destruct (Hp _ _ eq_refl) as [Hext2 Hwf2].
        assert (Hext : extends st st2) by (by eapply extends_trans).
        destruct (shapeOf p t) as [| | | | | | |ms| |] eqn:Hs.
        8:{ (* an interface: the record is filled at once *)
            unfold dispatch in ED. rewrite Hs in ED.
            unfold parseAny, alloc in ED. injection ED as <- <-.
            simpl in E. rewrite lookup_app_r in E by (rewrite length_app; simpl; lia).
            rewrite length_app in E. simpl in E.
            replace (length (heap st) + 1 - (length (heap st) + 1)) with 0 in E by lia.
            simpl in E. injection E as <- <-.
            split.
            - repeat split; simpl; [by apply insert_subseteq| |done].
              apply prefix_insert_length. rewrite <- app_assoc. by apply prefix_app_r.
            - intros (Ha & Hb & Hc). split; [|split]; simpl.
              + intros t' l. rewrite length_insert, !length_app, lookup_insert. simpl.
                case_decide; [intros [= <-]; lia|].
                intros Hl. specialize (Ha _ _ Hl). lia.
              + intros t1 t2 l. rewrite !lookup_insert. repeat case_decide; subst.
                * done.
                * intros [= <-] Hl. specialize (Ha _ _ Hl). lia.
                * intros Hl [= <-]. specialize (Ha _ _ Hl). lia.
                * apply Hb.
              + intros t' l ms'. rewrite lookup_insert. case_decide; subst.
                * intros [= <-] _.
                  rewrite <- app_assoc. rewrite insert_app_r_alt by done.
                  rewrite lookup_app_r by done.
                  by replace (length (heap st) - length (heap st)) with 0 by lia.
                * intros Hl Hs'. pose proof (Ha _ _ Hl).
                  rewrite list_lookup_insert_ne by lia.
                  rewrite <- app_assoc, lookup_app_l by done. eauto. }
        all: assert (Hni : ∀ ms, shapeOf p t ≠ Interface ms) by (rewrite Hs; done).
        all: pose proof (WF_claim p name t st Hm Hni) as Hwf1.
        all: unfold fill in E.
        all: destruct r2 as [v|e|e]; [|injection E as <- <-; split; auto..].
        all: destruct (heap st2 !! v) as [x|] eqn:Hv;
             [|injection E as <- <-; split; auto].
        all: injection E as <- <-.
        all: destruct Hext as (He1 & He2 & He3).
        all: (split;
          [ unfold extends; simpl; split;
            [exact He1|split; [by apply prefix_insert_length|exact He3]]
          | intros Hwf; destruct (Hwf2 (Hwf1 Hwf)) as (Ha & Hb & Hc);
            split; [|split]; simpl;
            [ intros t' l Hl; rewrite length_insert; eauto
            | exact Hb
            | intros t' l ms' Hl Hs';
              assert (Hc0 : parsedTypes st2 !! t = Some (length (heap st)))
                by (destruct Hext2 as (Hm2 & _ & _);
                    eapply lookup_weaken; [|exact Hm2]; simpl; apply lookup_insert_eq);
              assert (l ≠ length (heap st))
                by (intros ->; pose proof (Hb _ _ _ Hl Hc0); subst t'; by destruct (Hni ms'));
              rewrite list_lookup_insert_ne by done; eauto ] ]).
Qed.

(** ** The memo protocol *)

Lemma parseNamedType_hit p fuel typeName typ st l :
  parsedTypes st !! typ = Some l →
  parseNamedType p (S fuel) typeName typ st = Done (Ok l) st.
Proof. intros H. simpl. by rewrite H. Qed.

Lemma parseNamedType_miss p fuel typeName typ st :
  parsedTypes st !! typ = None →
  parseNamedType p (S fuel) typeName typ st
  = fill (length (heap st))
      (dispatch p (parseNamedType p fuel) typeName typ (claim typeName typ st)).
Proof. intros H. simpl. by rewrite H. Qed.

(** The memo protocol of ParseNamedType in internal/parser is the same,
    whatever the helpers are: a hit returns the record at once, a miss runs
    the switch in the state that holds the claim. *)
Lemma internal_ParseNamedType_memo (p : Parser) enums GoTypeName ParseBasic
    ParseStruct ParseSlice ParseAny ParseMap fuel parent typ st :
  (∀ l, parsedTypes st !! typ = Some l →
        Internal.ParseNamedType p enums GoTypeName ParseBasic ParseStruct ParseSlice
          ParseAny ParseMap (S fuel) parent typ st = Done (Ok l) st)
  ∧ (parsedTypes st !! typ = None →
     Internal.ParseNamedType p enums GoTypeName ParseBasic ParseStruct ParseSlice
       ParseAny ParseMap (S fuel) parent typ st
     = fill (length (heap st))
         (Internal.dispatch p enums GoTypeName ParseBasic ParseStruct ParseSlice
            ParseAny ParseMap
            (Internal.ParseNamedType p enums GoTypeName ParseBasic ParseStruct
               ParseSlice ParseAny ParseMap fuel)
            parent typ (claim (GoTypeName parent) typ st))).
Proof.
  split.
  - intros l Hl. simpl. by rewrite Hl.
  - intros Hm. simpl. by rewrite Hm.
Qed.

Lemma fill_Done c o r st' :
  fill c o = Done r st' →
  ∃ r2 st2, o = Done r2 st2 ∧ parsedTypes st' = parsedTypes st2
            ∧ schemaTypes st' = schemaTypes st2
            ∧ (∀ l, r = Ok l → l = c)
            ∧ (∀ e, r = Err e → r2 = Err e ∧ st' = st2).
Proof.
  destruct o as [[v|e|e] st2|]; simpl; [| | |done].
  - destruct (heap st2 !! v); intros [= <- <-]; exists (Ok v), st2; simpl;
      repeat split; try done; try (by intros ? [= <-]).
  - intros [= <- <-]. exists (Err e), st2. repeat split; try done; try (by intros ? [= <-]).
  - intros [= <- <-]. exists (Panic e), st2. repeat split; done.
Qed.

Lemma fill_Ok c l st v :
  heap st !! l = Some v →
  fill c (Done (Ok l) st)
  = Done (Ok c) (mkState (parsedTypes st) (<[c := v]> (heap st)) (schemaTypes st)).
Proof. intros H. simpl. by rewrite H. Qed.

Lemma claim_then_alloc c typeName typ st v :
  c = length (heap st) →
  fill c (alloc v (claim typeName typ st))
  = Done (Ok c)
      (mkState (<[typ := c]> (parsedTypes st)) (heap st ++ [v; v]) (schemaTypes st)).
Proof.
  intros ->. unfold alloc, claim. cbn [heap parsedTypes schemaTypes].
  erewrite fill_Ok.
  2:{ cbn [heap]. rewrite lookup_app_r by done.
      by replace (length (heap st ++ [_]) - length (heap st ++ [_])) with 0 by lia. }
  cbn [heap parsedTypes schemaTypes]. f_equal. f_equal.
  rewrite <- app_assoc, insert_app_r_alt by done.
  by replace (length (heap st) - length (heap st)) with 0 by lia.
Qed.

(** After a call that missed the memo, the key holds the record claimed at
    its start, whatever the call returned. *)
Lemma parseNamedType_claimed p fuel typeName typ st r st' :
  parsedTypes st !! typ = None →
  parseNamedType p fuel typeName typ st = Done r st' →
  parsedTypes st' !! typ = Some (length (heap st)).
Proof.
  intros Hm E. destruct fuel as [|fuel]; [discriminate E|].
  rewrite parseNamedType_miss in E by done.
  apply fill_Done in E as (r2 & st2 & ED & Hp & _).
  rewrite Hp.
  pose proof (safe_dispatch p fuel _ (safe_parseNamedType p fuel) typeName typ
                (claim typeName typ st)) as [_ Hpc].
  destruct (Hpc _ _ ED) as [(Hsub & _ & _) _].
  eapply lookup_weaken; [|exact Hsub]. simpl. apply lookup_insert_eq.
Qed.

Lemma parseNamedType_extends p fuel typeName typ st r st' :
  parseNamedType p fuel typeName typ st = Done r st' → extends st st'.
Proof.
  intros E. exact (proj1 (proj2 (safe_parseNamedType p fuel typeName typ st) _ _ E)).
Qed.

Lemma parseNamedType_WF p fuel typeName typ st r st' :
  parseNamedType p fuel typeName typ st = Done r st' → WF p st → WF p st'.
Proof.
  intros E. exact (proj2 (proj2 (safe_parseNamedType p fuel typeName typ st) _ _ E)).
Qed.

Lemma WF_initState p : WF p initState.
Proof.
  split; [|split]; simpl; intros *; by rewrite lookup_empty.
Qed.

(** C1. On every finite type graph, cyclic or not, parseNamedType returns
    (a record, an error or a panic) once its recursion budget exceeds the
    number of types that have no memo entry, which is at most the size of
    the graph. A type found in the memo is returned at once and the state is
    left alone. On a miss the switch on the type runs in the state in which
    the key already holds the placeholder record, the key still holds that
    record when the call returns, and any later call on the same type, in
    any state that kept the claim, returns that record without recursion. *)
Theorem parseNamedType_terminates (p : Parser) (fuel : nat) (typeName : string)
    (typ : tid) (st : State) :
  unclaimed p st < fuel →
  ∃ r st',
    parseNamedType p fuel typeName typ st = Done r st'
    ∧ (∀ l, parsedTypes st !! typ = Some l → r = Ok l ∧ st' = st)
    ∧ (parsedTypes st !! typ = None →
         let c := length (heap st) in
         let claimed := claim typeName typ st in
         parsedTypes claimed !! typ = Some c
         ∧ heap claimed !! c = Some (mkVarType typeName T_Invalid None None None)
         ∧ parseNamedType p fuel typeName typ st
           = fill c (dispatch p (parseNamedType p (pred fuel)) typeName typ claimed)
         ∧ parsedTypes st' !! typ = Some c
         ∧ ∀ st2 fuel2 typeName2,
             parsedTypes claimed ⊆ parsedTypes st2 →
             parseNamedType p (S fuel2) typeName2 typ st2 = Done (Ok c) st2).
Proof.
  intros Hfuel.
  destruct (proj1 (safe_parseNamedType p fuel typeName typ st) Hfuel) as (r & st' & E).
  exists r, st'. split; [exact E|]. split.
  - intros l Hl. destruct fuel as [|fuel]; [lia|].
    rewrite (parseNamedType_hit _ _ _ _ _ _ Hl) in E. by injection E as <- <-.
  - intros Hm c claimed.
    assert (Hc : parsedTypes claimed !! typ = Some c) by apply lookup_insert_eq.
    split; [exact Hc|]. split.
    { unfold claimed, claim; simpl. rewrite lookup_app_r by done.
      by replace (c - length (heap st)) with 0 by (unfold c; lia). }
    split.
    { destruct fuel as [|fuel]; [lia|]. by apply parseNamedType_miss. }
    split; [by eapply parseNamedType_claimed|].
    intros st2 fuel2 typeName2 Hsub. apply parseNamedType_hit.
    eapply lookup_weaken; [exact Hc|exact Hsub].
Qed.

Lemma parseNamedType_terminates_witness :
  unclaimed (sampleParser cyclicGraph) initState < 5
  ∧ ∃ r st',
      parseNamedType (sampleParser cyclicGraph) 5 "" 0 initState = Done r st'
      ∧ parsedTypes st' !! 0 = Some 0.
Proof.
  assert (H : unclaimed (sampleParser cyclicGraph) initState < 5) by (vm_compute; lia).
  split; [exact H|].
  destruct (parseNamedType_terminates (sampleParser cyclicGraph) 5 "" 0 initState H)
    as (r & st' & E & _ & Hmiss).
  exists r, st'. split; [exact E|].
  by apply Hmiss.
Defined.

(** A call that returns a record leaves that record under the key. *)
Lemma parseNamedType_memoized p fuel typeName typ st l st' :
  parseNamedType p fuel typeName typ st = Done (Ok l) st' →
  parsedTypes st' !! typ = Some l.
Proof.
  intros E. destruct (parsedTypes st !! typ) as [l0|] eqn:Hm.
  - destruct fuel as [|fuel]; [discriminate E|].
    rewrite (parseNamedType_hit _ _ _ _ _ _ Hm) in E. by injection E as <- <-.
  - pose proof (parseNamedType_claimed _ _ _ _ _ _ _ Hm E) as Hc.
    destruct fuel as [|fuel]; [discriminate E|].
    rewrite parseNamedType_miss in E by done.
    apply fill_Done in E as (_ & _ & _ & _ & _ & Hl & _).
    by rewrite (Hl l eq_refl).
Qed.

(** C9. Once parseNamedType has returned a record for a type, every later
    call on that type returns the same address and changes nothing, right
    away and also after any other calls of the walker in between. *)
Theorem parseNamedType_idempotent (p : Parser) (fuel : nat) (typeName : string)
    (typ : tid) (st : State) (l : loc) (st' : State) :
  parseNamedType p fuel typeName typ st = Done (Ok l) st' →
  (∀ fuel2 typeName2,
     parseNamedType p (S fuel2) typeName2 typ st' = Done (Ok l) st')
  ∧ (∀ fuel3 typeName3 typ3 r3 st3,
       parseNamedType p fuel3 typeName3 typ3 st' = Done r3 st3 →
       ∀ fuel2 typeName2,
         parseNamedType p (S fuel2) typeName2 typ st3 = Done (Ok l) st3).
Proof.
  intros E. pose proof (parseNamedType_memoized _ _ _ _ _ _ _ E) as Hl.
  split.
  - intros fuel2 typeName2. by apply parseNamedType_hit.
  - intros fuel3 typeName3 typ3 r3 st3 E3 fuel2 typeName2.
    apply parseNamedType_hit.
    destruct (parseNamedType_extends _ _ _ _ _ _ _ E3) as (Hsub & _ & _).
    eapply lookup_weaken; [exact Hl|exact Hsub].
Qed.

Lemma parseNamedType_idempotent_witness :
  ∃ l st',
    parseNamedType (sampleParser cyclicGraph) 5 "" 0 initState = Done (Ok l) st'
    ∧ parseNamedType (sampleParser cyclicGraph) 1 "Other" 0 st' = Done (Ok l) st'.
Proof.
  destruct (parseNamedType (sampleParser cyclicGraph) 5 "" 0 initState)
    as [[l| |] st'|] eqn:E; try (vm_compute in E; discriminate E).
  exists l, st'. split; [reflexivity|].
  exact (proj1 (parseNamedType_idempotent _ _ _ _ _ _ _ E) 0 "Other").
Defined.




Lemma interface_record (p : Parser) (fuel : nat) (typeName : string) (typ : tid)
    (methods : list string) (st : State) :
  shapeOf p typ = Interface methods →
  WF p st →
  ∃ l st',
    parseNamedType p (S fuel) typeName typ st = Done (Ok l) st'
    ∧ heap st' !! l = Some anyVarType
    ∧ WF p st'.
Proof.
  intros Hs Hwf.
  destruct (parsedTypes st !! typ) as [l|] eqn:Hm.
  - exists l, st. split; [by apply parseNamedType_hit|]. split; [|done].
    destruct Hwf as (_ & _ & Hc). eauto.
  - assert (E : parseNamedType p (S fuel) typeName typ st
               = Done (Ok (length (heap st)))
                   (mkState (<[typ := length (heap st)]> (parsedTypes st))
                      (heap st ++ [anyVarType; anyVarType]) (schemaTypes st))).
    { rewrite parseNamedType_miss by done.
      unfold dispatch. rewrite Hs. unfold parseAny. by apply claim_then_alloc. }
    eexists _, _. split; [exact E|]. split.
    + simpl. rewrite lookup_app_r by done.
      by replace (length (heap st) - length (heap st)) with 0 by lia.
    + eapply parseNamedType_WF; [exact E|exact Hwf].
Qed.

Lemma named_branch (p : Parser) (fuel : nat) (typ : tid) (info : NamedInfo) :
  String.eqb (goTypeName p typ) "Time" = false →
  GoStrings.HasPrefix (goTypeName p typ) "Enum[" = false →
  parseNamed p (parseNamedType p fuel) typ info
  = if n_TextMarshaler info then alloc stringVarType
    else parseNamedUnderlying p (parseNamedType p fuel) info (goTypeName p typ).
Proof.
  intros Htime Henum. unfold parseNamed. rewrite Htime, Henum.
  destruct (n_PkgPath info) as [path|]; [|done].
  by rewrite !andb_false_r, andb_false_l.
Qed.

(** C10, as the code has it. A type whose dynamic type is an interface, with
    any method set, is translated to the any record and never fails. A named
    type whose underlying type is an interface is translated to the any
    record on its first encounter when it is no text marshaler, and to the
    string record when it is one. An alias of an interface type, such as any
    itself, is refused on its first encounter: the switch has no case for an
    alias. *)
Theorem interface_is_any (p : Parser) (fuel : nat) (typeName : string) (typ : tid)
    (st : State) :
  WF p st →
  (∀ methods,
     shapeOf p typ = Interface methods →
     ∃ l st',
       parseNamedType p (S fuel) typeName typ st = Done (Ok l) st'
       ∧ heap st' !! l = Some anyVarType
       ∧ WF p st')
  ∧ (∀ info methods,
       shapeOf p typ = Named info →
       shapeOf p (n_Underlying info) = Interface methods →
       String.eqb (goTypeName p typ) "Time" = false →
       GoStrings.HasPrefix (goTypeName p typ) "Enum[" = false →
       parsedTypes st !! typ = None →
       ∃ st',
         parseNamedType p (S (S fuel)) typeName typ st
         = Done (Ok (length (heap st))) st'
         ∧ heap st' !! length (heap st)
           = Some (if n_TextMarshaler info then stringVarType else anyVarType))
  ∧ (∀ underlying,
       shapeOf p typ = Alias underlying →
       parsedTypes st !! typ = None →
       parseNamedType p (S fuel) typeName typ st
       = Done (Err "unsupported argument type *types.Alias") (claim typeName typ st)).
Proof.
  intros Hwf. split; [|split].
  - intros methods Hs. by eapply interface_record.
  - intros info methods Hs Hu Htime Henum Hm.
    rewrite parseNamedType_miss by done. unfold dispatch. rewrite Hs.
    rewrite named_branch by done.
    assert (Hlast : ∀ v, (heap st ++ [v; v]) !! length (heap st) = Some v).
    { intros v. rewrite lookup_app_r by done. by rewrite Nat.sub_diag. }
    destruct (n_TextMarshaler info).
    { rewrite claim_then_alloc by done. eexists. split; [reflexivity|]. apply Hlast. }
    unfold parseNamedUnderlying. rewrite Hu.
    destruct (n_JsonMarshaler info).
    { rewrite claim_then_alloc by done. eexists. split; [reflexivity|]. apply Hlast. }
    assert (Hwc : WF p (claim typeName typ st)).
    { apply WF_claim; [done| |done]. intros ms Hi. rewrite Hs in Hi. discriminate Hi. }
    destruct (interface_record p fuel (goTypeName p typ) (n_Underlying info) methods
                (claim typeName typ st) Hu Hwc) as (l & st1 & E & Hl & _).
    rewrite E. rewrite (fill_Ok _ _ _ _ Hl). eexists. split; [reflexivity|].
    cbn [heap]. apply list_lookup_insert_eq.
    pose proof (parseNamedType_extends _ _ _ _ _ _ _ E) as (_ & Hh & _).
    apply prefix_length in Hh. simpl in Hh. rewrite length_app in Hh. simpl in Hh. lia.
  - intros underlying Hs Hm. rewrite parseNamedType_miss by done.
    unfold dispatch. by rewrite Hs.
Qed.

Lemma interface_is_any_witness :
  (∃ l st',
     parseNamedType (sampleParser ifaceGraph) 1 "" 0 initState = Done (Ok l) st'
     ∧ heap st' !! l = Some anyVarType)
  ∧ (∃ st',
       parseNamedType (sampleParser readerGraph) 2 "" 0 initState = Done (Ok 0) st'
       ∧ heap st' !! 0 = Some anyVarType).
Proof.
  split.
  - destruct (proj1 (interface_is_any (sampleParser ifaceGraph) 0 "" 0 initState
                       (WF_initState _))
                ["Read(p []byte) (n int, err error)"] eq_refl) as (l & st' & E & Hl & _).
    exists l, st'. split; [exact E|exact Hl].
  - exact (proj1 (proj2 (interface_is_any (sampleParser readerGraph) 0 "" 0 initState
                           (WF_initState _)))
             readerInfo ["Read(p []byte) (n int, err error)"]
             eq_refl eq_refl eq_refl eq_refl eq_refl).
Defined.

(** C10, as the specification has it, fails: the named interface Text, which
    has the methods MarshalText and UnmarshalText, is translated to the
    string record, and any, which is an alias of the empty interface, is
    refused. *)
Lemma interface_is_not_always_any :
  (∃ l st' v,
     parseType (sampleParser textIfaceGraph) 5 0 initState = Done (Ok l) st'
     ∧ heap st' !! l = Some v
     ∧ Expr v = "string" ∧ Type_ v = T_String)
  ∧ (∃ st',
       parseType (sampleParser anyAliasGraph) 5 0 initState
       = Done (Err "unsupported argument type *types.Alias") st').
Proof.
  split.
  - destruct (parseType (sampleParser textIfaceGraph) 5 0 initState)
      as [[l| |] st'|] eqn:E; try (vm_compute in E; discriminate E).
    vm_compute in E. injection E as <- <-.
    eexists _, _, _. split; [reflexivity|]. repeat split; reflexivity.
  - eexists. vm_compute. reflexivity.
Qed.

(** ** Maps *)

(** C3, as the code has it. On its first encounter a map type is translated
    by translating its key and then its value, both under the parent name
    and in the state that holds the claim of the map. An error of the key is
    the error of the map, and the value is not translated; after the key, an
    error of the value is the error of the map; when both return a record,
    the map returns a Map record that carries the kind of the key record,
    whatever that kind is, and the value record. Nothing else fails a map:
    no kind is checked. *)
Theorem parseMap_checks_no_key (p : Parser) (fuel : nat) (typeName : string)
    (typ mKey mElem : tid) (st : State) :
  shapeOf p typ = Map mKey mElem →
  parsedTypes st !! typ = None →
  WF p st →
  let c := length (heap st) in
  let translateKey := parseNamedType p fuel typeName mKey (claim typeName typ st) in
  let translateValue := parseNamedType p fuel typeName mElem in
  let translateMap := parseNamedType p (S fuel) typeName typ st in
  (∀ e st1,
     translateKey = Done (Err e) st1 →
     translateMap = Done (Err ("failed to parse map key type: " +:+ e)) st1)
  ∧ (∀ key st1 e st2,
       translateKey = Done (Ok key) st1 →
       translateValue st1 = Done (Err e) st2 →
       translateMap = Done (Err ("failed to parse map value type: " +:+ e)) st2)
  ∧ (∀ key st1 value st2,
       translateKey = Done (Ok key) st1 →
       translateValue st1 = Done (Ok value) st2 →
       ∃ k v,
         heap st2 !! key = Some k
         ∧ heap st2 !! value = Some v
         ∧ let m := mkVarType ("map<" +:+ Expr k +:+ "," +:+ Expr v +:+ ">")
                      T_Map None (Some (Type_ k, value)) None in
           translateMap
           = Done (Ok c)
               (mkState (parsedTypes st2) (<[c := m]> (heap st2 ++ [m]))
                  (schemaTypes st2))
           ∧ (<[c := m]> (heap st2 ++ [m])) !! c = Some m)
  ∧ (∀ msg st',
       translateMap = Done (Err msg) st' →
       (∃ e, translateKey = Done (Err e) st'
             ∧ msg = "failed to parse map key type: " +:+ e)
       ∨ (∃ key st1 e,
            translateKey = Done (Ok key) st1
            ∧ translateValue st1 = Done (Err e) st'
            ∧ msg = "failed to parse map value type: " +:+ e)).
Proof.
  intros Hs Hm Hwf c translateKey translateValue translateMap.
  assert (Hwc : WF p (claim typeName typ st)).
  { apply WF_claim; [done| |done]. intros ms Hi. rewrite Hs in Hi. discriminate Hi. }
  assert (E0 : translateMap
               = fill c (parseMap (parseNamedType p fuel) typeName mKey mElem
                           (claim typeName typ st))).
  { subst translateMap. rewrite parseNamedType_miss by done.
    unfold dispatch. by rewrite Hs. }
  assert (Hkey : ∀ e st1, translateKey = Done (Err e) st1 →
            translateMap = Done (Err ("failed to parse map key type: " +:+ e)) st1).
  { intros e st1 Ek. rewrite E0. unfold parseMap, bind, wrapErr.
    fold translateKey. by rewrite Ek. }
  assert (Hvalue : ∀ key st1 e st2, translateKey = Done (Ok key) st1 →
            translateValue st1 = Done (Err e) st2 →
            translateMap = Done (Err ("failed to parse map value type: " +:+ e)) st2).
  { intros key st1 e st2 Ek Ev. rewrite E0. unfold parseMap, bind, wrapErr.
    fold translateKey. rewrite Ek. fold (translateValue st1). by rewrite Ev. }
  assert (Hboth : ∀ key st1 value st2, translateKey = Done (Ok key) st1 →
            translateValue st1 = Done (Ok value) st2 →
            ∃ k v, heap st2 !! key = Some k ∧ heap st2 !! value = Some v
              ∧ let m := mkVarType ("map<" +:+ Expr k +:+ "," +:+ Expr v +:+ ">")
                           T_Map None (Some (Type_ k, value)) None in
                translateMap
                = Done (Ok c)
                    (mkState (parsedTypes st2) (<[c := m]> (heap st2 ++ [m]))
                       (schemaTypes st2))
                ∧ (<[c := m]> (heap st2 ++ [m])) !! c = Some m).
  { intros key st1 value st2 Ek Ev.
    pose proof (parseNamedType_WF _ _ _ _ _ _ _ Ek Hwc) as Hw1.
    pose proof (parseNamedType_WF _ _ _ _ _ _ _ Ev Hw1) as Hw2.
    pose proof (parseNamedType_extends _ _ _ _ _ _ _ Ek) as (_ & Hh1 & _).
    pose proof (parseNamedType_extends _ _ _ _ _ _ _ Ev) as (Hsub & Hh2 & _).
    pose proof (parseNamedType_memoized _ _ _ _ _ _ _ Ek) as Hmk.
    pose proof (parseNamedType_memoized _ _ _ _ _ _ _ Ev) as Hmv.
    destruct Hw2 as (Hex & _ & _).
    assert (Hk : is_Some (heap st2 !! key)).
    { apply lookup_lt_is_Some_2. eapply Hex. eapply lookup_weaken; [exact Hmk|exact Hsub]. }
    assert (Hv : is_Some (heap st2 !! value)).
    { apply lookup_lt_is_Some_2. by eapply Hex. }
    destruct Hk as [k Hk]. destruct Hv as [v Hv]. exists k, v.
    split; [done|]. split; [done|]. cbv zeta. split.
    - rewrite E0. unfold parseMap, bind, wrapErr. fold translateKey. rewrite Ek.
      fold (translateValue st1). rewrite Ev. unfold deref. rewrite Hk, Hv.
      unfold alloc. erewrite fill_Ok; [reflexivity|].
      cbn [heap]. rewrite lookup_app_r by done. by rewrite Nat.sub_diag.
    - apply list_lookup_insert_eq. rewrite length_app. cbn [length].
      apply prefix_length in Hh1, Hh2. simpl in Hh1. rewrite length_app in Hh1.
      simpl in Hh1. subst c. lia. }
  split; [exact Hkey|]. split; [exact Hvalue|]. split; [exact Hboth|].
  intros msg st' E.
  destruct translateKey as [[key|e|e] st1|] eqn:Ek.
  - destruct (translateValue st1) as [[value|e|e] st2|] eqn:Ev.
    + destruct (Hboth _ _ _ _ eq_refl Ev) as (k & v & _ & _ & E1 & _).
      rewrite E1 in E. discriminate E.
    + rewrite (Hvalue _ _ _ _ eq_refl Ev) in E. injection E as <- <-.
      right. by exists key, st1, e.
    + rewrite E0 in E. unfold parseMap, bind, wrapErr in E. fold translateKey in E.
      rewrite Ek in E. fold (translateValue st1) in E. rewrite Ev in E. discriminate E.
    + rewrite E0 in E. unfold parseMap, bind, wrapErr in E. fold translateKey in E.
      rewrite Ek in E. fold (translateValue st1) in E. rewrite Ev in E. discriminate E.
  - rewrite (Hkey _ _ eq_refl) in E. injection E as <- <-. left. by exists e.
  - rewrite E0 in E. unfold parseMap, bind, wrapErr in E. fold translateKey in E.
    rewrite Ek in E. discriminate E.
  - rewrite E0 in E. unfold parseMap, bind, wrapErr in E. fold translateKey in E.
    rewrite Ek in E. discriminate E.
Qed.

Lemma parseMap_checks_no_key_witness :
  (∃ st' v value,
     parseNamedType (sampleParser mapGraph) 5 "" 0 initState = Done (Ok 0) st'
     ∧ heap st' !! 0 = Some v
     ∧ Map_ v = Some (T_Struct, value))
  ∧ (∃ e st',
       parseNamedType (sampleParser mapChanGraph) 5 "" 0 initState
       = Done (Err ("failed to parse map value type: " +:+ e)) st').
Proof.
  split.
  - destruct (parseNamedType (sampleParser mapGraph) 4 "" 1 (claim "" 0 initState))
      as [[key| |] st1|] eqn:Ek; try (vm_compute in Ek; discriminate Ek).
    destruct (parseNamedType (sampleParser mapGraph) 4 "" 3 st1)
      as [[value| |] st2|] eqn:Ev;
      try (vm_compute in Ek; injection Ek as <- <-; vm_compute in Ev; discriminate Ev).
    destruct (proj1 (proj2 (proj2 (parseMap_checks_no_key (sampleParser mapGraph) 4 ""
                                     0 1 3 initState eq_refl eq_refl (WF_initState _))))
                key st1 value st2 Ek Ev) as (k & v & Hk & Hv & E & Hl).
    vm_compute in Ek. injection Ek as <- <-.
    vm_compute in Ev. injection Ev as <- <-.
    vm_compute in Hk. injection Hk as <-.
    eexists _, _, _. split; [exact E|]. split; [exact Hl|reflexivity].
  - destruct (parseNamedType (sampleParser mapChanGraph) 4 "" 1 (claim "" 0 initState))
      as [[key| |] st1|] eqn:Ek; try (vm_compute in Ek; discriminate Ek).
    destruct (parseNamedType (sampleParser mapChanGraph) 4 "" 2 st1)
      as [[|e|] st2|] eqn:Ev;
      try (vm_compute in Ek; injection Ek as <- <-; vm_compute in Ev; discriminate Ev).
    exists e, st2.
    exact (proj1 (proj2 (parseMap_checks_no_key (sampleParser mapChanGraph) 4 ""
                           0 1 2 initState eq_refl eq_refl (WF_initState _)))
             key st1 e st2 Ek Ev).
Defined.

(** C3, as the specification has it, fails both ways: map[Point]string, keyed
    by a struct, is translated to a Map record whose key kind is the struct
    kind, and map[string]chan int, keyed by a string, is refused. *)
Lemma map_key_kind_is_not_checked :
  (∃ l st' v value,
     parseType (sampleParser mapGraph) 5 0 initState = Done (Ok l) st'
     ∧ heap st' !! l = Some v
     ∧ Type_ v = T_Map
     ∧ Map_ v = Some (T_Struct, value)
     ∧ primitiveOrStringLike T_Struct = false)
  ∧ (∃ e st' key k,
       parseType (sampleParser mapChanGraph) 5 0 initState = Done (Err e) st'
       ∧ parsedTypes st' !! 1 = Some key
       ∧ heap st' !! key = Some k
       ∧ primitiveOrStringLike (Type_ k) = true).
Proof.
  split.
  - destruct (parseType (sampleParser mapGraph) 5 0 initState)
      as [[l| |] st'|] eqn:E; try (vm_compute in E; discriminate E).
    vm_compute in E. injection E as <- <-.
    eexists _, _, _, _. split; [reflexivity|]. repeat split; reflexivity.
  - destruct (parseType (sampleParser mapChanGraph) 5 0 initState)
      as [[|e|] st'|] eqn:E; try (vm_compute in E; discriminate E).
    vm_compute in E. injection E as <- <-.
    eexists _, _, _, _. split; [reflexivity|]. repeat split; reflexivity.
Qed.

(** ** Enums *)

Lemma lookup_after_fill {A} (l k : list A) (x y : A) :
  l ++ [y] `prefix_of` k → <[length l := x]> k !! length l = Some x.
Proof.
  intros [k' ->]. rewrite <- app_assoc. rewrite insert_app_r_alt by done.
  rewrite lookup_app_r by done.
  by replace (length l - length l) with 0 by lia.
Qed.




(** ** Struct fields *)

Lemma getJsonTag_not_ok structTags jsonTag :
  getJsonTag structTags = (jsonTag, false) → jsonTag = zeroJsonTag.
Proof.
  unfold getJsonTag.
  destruct (negb (GoStrings.Contains structTags jsonKey)); [by intros [= <-]|].
  destruct (findJsonTag structTags) as [[g1 g2]|]; [discriminate|by intros [= <-]].
Qed.

Lemma optional_rule_root (p : Parser) rec structTypeName field structTags st f st' :
  parseStructField p rec structTypeName field structTags st = Done (Ok (Some f)) st' →
  f_Optional f
  = tag_Omitempty (fst (getJsonTag structTags))
    || (negb (tag_IsString (fst (getJsonTag structTags)))
        && isPointer (shapeOf p (Underlying p (v_Type field)))).
Proof.
  unfold parseStructField.
  destruct (getJsonTag structTags) as [jsonTag ok] eqn:Hg. simpl.
  destruct ok; simpl.
  - destruct (String.eqb (tag_Name jsonTag) "-"); [discriminate|].
    destruct (tag_IsString jsonTag); simpl.
    + intros [= <- <-]. simpl. by rewrite orb_false_r.
    + unfold bind, wrapErr.
      destruct (rec _ (v_Type field) st) as [[v|e|e] st1|]; try discriminate.
      intros [= <- <-]. simpl.
      destruct (isPointer _), (tag_Omitempty jsonTag); reflexivity.
  - rewrite (getJsonTag_not_ok _ _ Hg). simpl.
    unfold bind, wrapErr.
    destruct (rec _ (v_Type field) st) as [[v|e|e] st1|]; try discriminate.
    intros [= <- <-]. simpl. by destruct (isPointer _).
Qed.

Lemma optional_rule_internal (p : Parser) GoTypeName GoTypeImport ParseNamedType
    structTypeName field jsonTag st f st' :
  Internal.parseStructField p GoTypeName GoTypeImport ParseNamedType
    structTypeName field jsonTag st = Done (Ok (Some f)) st' →
  f_Optional f
  = Internal.Omitempty jsonTag
    || (negb (Internal.IsString jsonTag)
        && isPointer (shapeOf p (Underlying p (v_Type field)))).
Proof.
  unfold Internal.parseStructField.
  destruct (String.eqb (Internal.Name jsonTag) "-"); [discriminate|].
  destruct (Internal.IsString jsonTag); simpl.
  - intros [= <- <-]. simpl. by rewrite orb_false_r.
  - destruct (_ || _); [discriminate|].
    unfold bind, wrapErr.
    destruct (ParseNamedType _ (v_Type field) st) as [[v|e|e] st1|]; try discriminate.
    intros [= <- <-]. simpl.
    destruct (isPointer _), (Internal.Omitempty jsonTag); reflexivity.
Qed.

(** C5, as the code has it, in both implementations. For an emitted struct
    field that is not at once string-coerced and of pointer type, the field
    is Optional exactly when its tag has omitempty or the underlying type of
    its host type is a pointer; string coercion adds nothing, so a
    string-coerced field of a non-pointer type is Optional exactly when its
    tag has omitempty. *)
Theorem optional_rule :
  (∀ (p : Parser) rec structTypeName field structTags st f st',
     parseStructField p rec structTypeName field structTags st
     = Done (Ok (Some f)) st' →
     let jsonTag := fst (getJsonTag structTags) in
     let ptr := isPointer (shapeOf p (Underlying p (v_Type field))) in
     ¬ (tag_IsString jsonTag = true ∧ ptr = true) →
     f_Optional f = tag_Omitempty jsonTag || ptr)
  ∧ (∀ (p : Parser) GoTypeName GoTypeImport ParseNamedType structTypeName field
       jsonTag st f st',
       Internal.parseStructField p GoTypeName GoTypeImport ParseNamedType
         structTypeName field jsonTag st = Done (Ok (Some f)) st' →
       let ptr := isPointer (shapeOf p (Underlying p (v_Type field))) in
       ¬ (Internal.IsString jsonTag = true ∧ ptr = true) →
       f_Optional f = Internal.Omitempty jsonTag || ptr).
Proof.
  split.
  - intros p rec structTypeName field structTags st f st' E jsonTag ptr Hn.
    rewrite (optional_rule_root _ _ _ _ _ _ _ _ E). fold jsonTag ptr.
    destruct (tag_IsString jsonTag), ptr; simpl; try reflexivity.
    by destruct Hn.
  - intros p GoTypeName GoTypeImport ParseNamedType structTypeName field
      jsonTag st f st' E ptr Hn.
    rewrite (optional_rule_internal _ _ _ _ _ _ _ _ _ _ E). fold ptr.
    destruct (Internal.IsString jsonTag), ptr; simpl; try reflexivity.
    by destruct Hn.
Qed.

Lemma optional_rule_witness :
  ∃ f st',
    parseStructField (sampleParser fieldGraph)
      (parseNamedType (sampleParser fieldGraph) 3) "X" fieldID (tagOf "id,string")
      initState = Done (Ok (Some f)) st'
    ∧ f_Optional f = false.
Proof.
  destruct (parseStructField (sampleParser fieldGraph)
              (parseNamedType (sampleParser fieldGraph) 3) "X" fieldID
              (tagOf "id,string") initState)
    as [[[f|]| |] st'|] eqn:E; try (vm_compute in E; discriminate E).
  exists f, st'. split; [reflexivity|].
  refine (proj1 optional_rule _ _ _ _ _ _ _ _ E _).
  vm_compute. intros [_ H]. discriminate H.
Defined.

(** C5, as the specification has it, fails: the field ID int64 tagged
    json:"id,string" is string-coerced and its host type is not a string,
    yet it is not Optional, in either implementation. *)
Lemma string_coercion_is_not_optional :
  (∃ f st',
     parseStructField (sampleParser fieldGraph)
       (parseNamedType (sampleParser fieldGraph) 3) "X" fieldID (tagOf "id,string")
       initState = Done (Ok (Some f)) st'
     ∧ tag_IsString (fst (getJsonTag (tagOf "id,string"))) = true
     ∧ shapeOf (sampleParser fieldGraph) (v_Type fieldID) = Basic "int64"
     ∧ f_Optional f = false)
  ∧ (∃ f st',
       Internal.parseStructField (sampleParser fieldGraph)
         (goTypeName (sampleParser fieldGraph)) (goTypeImport (sampleParser fieldGraph))
         (parseNamedType (sampleParser fieldGraph) 3) "XField" fieldID
         (Internal.mkJsonTag "id" "id,string" true false false)
         initState = Done (Ok (Some f)) st'
       ∧ f_Optional f = false).
Proof.
  split.
  - eexists _, _. split; [vm_compute; reflexivity|]. repeat split; reflexivity.
  - eexists _, _. split; [vm_compute; reflexivity|]. reflexivity.
Qed.

(** In internal/parser a field with omitempty is Optional and its
    go.field.type is the host type expression behind a star (and behind a
    second one when the field is of pointer type and not string-coerced). *)
Lemma internal_omitempty_marks_field_type (p : Parser) GoTypeName GoTypeImport
    ParseNamedType structTypeName field jsonTag st f st' :
  Internal.parseStructField p GoTypeName GoTypeImport ParseNamedType
    structTypeName field jsonTag st = Done (Ok (Some f)) st' →
  Internal.Omitempty jsonTag = true →
  f_Optional f = true
  ∧ metaGet "go.field.type" (f_Meta f)
    = Some ("*" +:+ ptrStar (negb (Internal.IsString jsonTag)
                             && isPointer (shapeOf p (Underlying p (v_Type field))))
                      (GoTypeName (v_Type field))).
Proof.
  unfold Internal.parseStructField. intros E Ho. rewrite Ho in E.
  destruct (String.eqb (Internal.Name jsonTag) "-"); [discriminate|].
  destruct (Internal.IsString jsonTag); simpl in *.
  - injection E as <- <-. by split.
  - destruct (_ || _); [discriminate|].
    unfold bind, wrapErr in E.
    destruct (ParseNamedType _ (v_Type field) st) as [[v|e|e] st1|]; try discriminate.
    injection E as <- <-. simpl.
    destruct (isPointer _); by split.
Qed.

Lemma internal_email_field :
  ∃ f st',
    Internal.parseStructField (sampleParser fieldGraph)
      (goTypeName (sampleParser fieldGraph)) (goTypeImport (sampleParser fieldGraph))
      (parseNamedType (sampleParser fieldGraph) 3) "PField" fieldEmail
      (Internal.mkJsonTag "email" "email,omitempty" false true false)
      initState = Done (Ok (Some f)) st'
    ∧ f_Name f = "email"
    ∧ f_Optional f = true
    ∧ metaGet "go.field.type" (f_Meta f) = Some "*string".
Proof.
  eexists _, _. split; [vm_compute; reflexivity|]. repeat split; reflexivity.
Qed.

(** C6 on types.go: the field Email string tagged json:"email,omitempty" is
    Optional because of omitempty, and its go.field.type is the bare host
    type expression, without the star that internal/parser puts in front. *)
Theorem root_omitempty_leaves_field_type_bare :
  ∃ f st',
    parseStructField (sampleParser fieldGraph)
      (parseNamedType (sampleParser fieldGraph) 3) "P" fieldEmail
      (tagOf "email,omitempty") initState = Done (Ok (Some f)) st'
    ∧ tag_Omitempty (fst (getJsonTag (tagOf "email,omitempty"))) = true
    ∧ f_Name f = "email"
    ∧ f_Optional f = true
    ∧ metaGet "go.field.type" (f_Meta f) = Some "string".
Proof.
  eexists _, _. split; [vm_compute; reflexivity|]. repeat split; reflexivity.
Qed.

(** ** Tags *)

(** C7 on the code: an option that only starts like a known one is read as
    the known one. The tags json:"id,stringify" and json:"id,omitemptyX" set
    IsString and Omitempty, which the tag json:"id", the same tag without
    the unknown option, leaves unset. *)
Theorem unknown_option_with_known_prefix :
  getJsonTag (tagOf "id,stringify") = (mkJsonTag "id" "id,stringify" true false, true)
  ∧ getJsonTag (tagOf "id,omitemptyX") = (mkJsonTag "id" "id,omitemptyX" false true, true)
  ∧ getJsonTag (tagOf "id") = (mkJsonTag "id" "id" false false, true).
Proof. repeat split; reflexivity. Qed.

(** ** Unique field names *)

Lemma override_keeps_unique (slice : list TypeField) (newItem : TypeField) :
  NoDup (map f_Name slice) →
  NoDup (map f_Name (filter (otherName (f_Name newItem)) slice ++ [newItem])).
Proof.
  intros Hnd. rewrite map_app. simpl. apply NoDup_app. split; [|split].
  - induction slice as [|x l IH]; simpl; [constructor|].
    apply NoDup_cons in Hnd as [Hx Hl].
    destruct (decide (otherName (f_Name newItem) x)).
    + rewrite filter_cons_True by done. simpl. apply NoDup_cons. split; [|by apply IH].
      intros Hin. apply Hx.
      apply list_elem_of_fmap in Hin as (y & Hy & Hin).
      apply list_elem_of_filter in Hin as [_ Hin].
      rewrite Hy. by apply list_elem_of_fmap_2.
    + rewrite filter_cons_False by done. by apply IH.
  - intros name Hin Hnew. apply list_elem_of_singleton in Hnew as ->.
    apply list_elem_of_fmap in Hin as (y & Hy & Hin).
    apply list_elem_of_filter in Hin as [Hne _]. by apply Hne.
  - apply NoDup_singleton.
Qed.

Lemma appendAll_unique (embedded : list TypeField) : ∀ fields fields',
  NoDup (map f_Name fields) →
  appendAll fields embedded = Some fields' →
  NoDup (map f_Name fields').
Proof.
  induction embedded as [|x rest IH]; simpl; intros fields fields' Hnd.
  - by intros [= <-].
  - rewrite appendOrOverride_spec by done. apply IH. by apply override_keeps_unique.
Qed.

Lemma uniq_bind {A} (m : M A) (f : A → M (list TypeField)) :
  (∀ a, uniq (f a)) → uniq (bind m f).
Proof.
  intros Hf st r st'. unfold bind.
  destruct (m st) as [[a|e|e] st1|]; try discriminate. apply Hf.
Qed.

Lemma uniq_bind_some {A} (o : option A) (f : A → M (list TypeField)) :
  (∀ a, o = Some a → uniq (f a)) → uniq (bind (liftPanic o) f).
Proof.
  intros Hf st r st'. destruct o as [a|]; simpl; [|discriminate].
  unfold bind, ret. by apply Hf.
Qed.

Lemma structLoop_unique (p : Parser) rec typeName fields : ∀ i acc,
  NoDup (map f_Name acc) → uniq (structLoop p rec typeName fields i acc).
Proof.
  induction fields as [|[structField structTags] rest IH]; intros i acc Hnd; simpl.
  - intros st r st' [= <- <-]. exact Hnd.
  - destruct (negb (v_Exported structField)); [by apply IH|].
    destruct (_ || _).
    + apply uniq_bind. intros varType. apply uniq_bind. intros v.
      destruct (decide (Type_ v = T_Struct)); [|by apply IH].
      apply uniq_bind. intros embedded. apply uniq_bind_some. intros acc' Ha.
      apply IH. by eapply appendAll_unique.
    + apply uniq_bind. intros [f|]; [|by apply IH].
      apply uniq_bind_some. intros acc' Ha. apply IH.
      rewrite appendOrOverride_spec in Ha by done. injection Ha as <-.
      by apply override_keeps_unique.
Qed.

Lemma internal_structLoop_unique (p : Parser) GoTypeName GoTypeImport GetJsonTag
    ParseNamedType goTypeName fields : ∀ i acc,
  NoDup (map f_Name acc) →
  uniq (Internal.structLoop p GoTypeName GoTypeImport GetJsonTag ParseNamedType
          goTypeName fields i acc).
Proof.
  induction fields as [|[structField structTags] rest IH]; intros i acc Hnd; simpl.
  - intros st r st' [= <- <-]. exact Hnd.
  - destruct (negb (v_Exported structField)); [by apply IH|].
    destruct (String.eqb _ "-"); [by apply IH|].
    destruct (_ || _).
    + apply uniq_bind. intros varType. apply uniq_bind. intros v.
      destruct (decide (Type_ v = T_Struct)); [|by apply IH].
      apply uniq_bind. intros embedded. apply uniq_bind_some. intros acc' Ha.
      apply IH. by eapply appendAll_unique.
    + apply uniq_bind. intros [f|]; [|by apply IH].
      apply uniq_bind_some. intros acc' Ha. apply IH.
      rewrite appendOrOverride_spec in Ha by done. injection Ha as <-.
      by apply override_keeps_unique.
Qed.

(** C2. Appending a field to a list with unique names removes the entry of
    the same name, if there is one, keeps the other entries in their order
    and puts the new field last, so the names stay unique; and the field
    list of every struct record that parseStruct (types.go) or ParseStruct
    (internal/parser) appends to Schema.Types has unique names. *)
Theorem struct_field_names_unique :
  (∀ slice newItem,
     NoDup (map f_Name slice) →
     appendOrOverrideExistingField slice newItem
     = Some (filter (otherName (f_Name newItem)) slice ++ [newItem])
     ∧ NoDup (map f_Name (filter (otherName (f_Name newItem)) slice ++ [newItem])))
  ∧ (∀ (p : Parser) rec typeName fields st l st',
       parseStruct p rec typeName fields st = Done (Ok l) st' →
       ∃ ty, last (schemaTypes st') = Some ty
             ∧ t_Kind ty = "struct" ∧ t_Name ty = typeName
             ∧ NoDup (map f_Name (t_Fields ty)))
  ∧ (∀ (p : Parser) GoTypeName GoTypeImport GoTypeNameToWebrpc GetJsonTag
       ParseNamedType goTypeName fields st l st',
       Internal.ParseStruct p GoTypeName GoTypeImport GoTypeNameToWebrpc GetJsonTag
         ParseNamedType goTypeName fields st = Done (Ok l) st' →
       ∃ ty, last (schemaTypes st') = Some ty
             ∧ t_Kind ty = "struct" ∧ t_Name ty = GoTypeNameToWebrpc goTypeName
             ∧ NoDup (map f_Name (t_Fields ty))).
Proof.
  split; [|split].
  - intros slice newItem Hnd. split.
    + by apply appendOrOverride_spec.
    + by apply override_keeps_unique.
  - intros p rec typeName fields st l st'. unfold parseStruct, bind.
    destruct (structLoop p rec typeName fields 0 [] st) as [[r|e|e] st1|] eqn:E;
      try discriminate.
    unfold appendType, alloc. simpl. intros [= <- <-]. simpl.
    eexists. rewrite last_snoc. split; [reflexivity|]. repeat split.
    simpl. eapply structLoop_unique; [|exact E]. constructor.
  - intros p GoTypeName GoTypeImport GoTypeNameToWebrpc GetJsonTag ParseNamedType
      goTypeName fields st l st'. unfold Internal.ParseStruct, bind.
    destruct (Internal.structLoop p GoTypeName GoTypeImport GetJsonTag ParseNamedType
                goTypeName fields 0 [] st) as [[r|e|e] st1|] eqn:E; try discriminate.
    unfold appendType, alloc. simpl. intros [= <- <-]. simpl.
    eexists. rewrite last_snoc. split; [reflexivity|]. repeat split.
    simpl. eapply internal_structLoop_unique; [|exact E]. constructor.
Qed.

Lemma struct_field_names_unique_witness :
  appendOrOverrideExistingField
    [fieldNamed "Kind" "child"; fieldNamed "ID" "base"] (fieldNamed "Kind" "base")
  = Some [fieldNamed "ID" "base"; fieldNamed "Kind" "base"].
Proof.
  assert (H : NoDup (map f_Name [fieldNamed "Kind" "child"; fieldNamed "ID" "base"])).
  { apply NoDup_cons. split; [|apply NoDup_singleton].
    intros Hin. apply list_elem_of_singleton in Hin. discriminate Hin. }
  exact (proj1 (proj1 struct_field_names_unique _ (fieldNamed "Kind" "base") H)).
Defined.

(** ** The tag parser on the tags it accepts *)

Lemma append_cons x (a b : string) : String x a +:+ b = String x (a +:+ b).
Proof. reflexivity. Qed.

Lemma append_nil (b : string) : EmptyString +:+ b = b.
Proof. reflexivity. Qed.

Lemma append_assoc (a b c : string) : (a +:+ b) +:+ c = a +:+ (b +:+ c).
Proof. induction a as [|x a IH]; [done|]. by rewrite !append_cons, IH. Qed.

Lemma span_app p a b :
  allChars p a = true → stopsAt p b → GoStrings.span p (a +:+ b) = (a, b).
Proof.
  induction a as [|c a IH]; intros Ha Hb.
  - rewrite append_nil. destruct b as [|c b]; [done|]. simpl in *. by rewrite Hb.
  - rewrite append_cons. simpl in *.
    apply andb_true_iff in Ha as [Hc Ha]. rewrite Hc, IH by done. done.
Qed.

Lemma span_spec p s a b :
  GoStrings.span p s = (a, b) → s = a +:+ b ∧ allChars p a = true ∧ stopsAt p b.
Proof.
  revert a b. induction s as [|c s IH]; simpl; intros a b.
  - by intros [= <- <-].
  - destruct (p c) eqn:Hc.
    + destruct (GoStrings.span p s) as [a' b']. intros [= <- <-].
      destruct (IH _ _ eq_refl) as (-> & Ha & Hb). rewrite append_cons. simpl.
      by rewrite Hc, Ha.
    + intros [= <- <-]. simpl. done.
Qed.

Lemma allChars_app p a b : allChars p (a +:+ b) = allChars p a && allChars p b.
Proof.
  induction a as [|c a IH]; [done|]. rewrite append_cons. simpl.
  by rewrite IH, andb_assoc.
Qed.

Lemma allChars_weaken (p q : ascii → bool) s :
  (∀ c, p c = true → q c = true) → allChars p s = true → allChars q s = true.
Proof.
  intros H. induction s as [|c s IH]; simpl; [done|].
  intros [Hc Hs]%andb_true_iff. by rewrite (H _ Hc), IH.
Qed.

Lemma notCommaQuote_notQuote c : notCommaQuote c = true → notQuote c = true.
Proof. unfold notCommaQuote, notQuote. by intros [_ H]%andb_true_iff. Qed.

Lemma notCommaQuote_notComma c : notCommaQuote c = true → notComma c = true.
Proof. unfold notCommaQuote, notComma. by intros [H _]%andb_true_iff. Qed.

Lemma joinOptions_notQuote tokens :
  Forall (λ t, allChars notCommaQuote t = true) tokens →
  allChars notQuote (joinOptions tokens) = true.
Proof.
  induction 1 as [|t rest Ht _ IH]; simpl; [done|].
  rewrite allChars_app, IH, andb_true_r.
  eapply allChars_weaken; [apply notCommaQuote_notQuote|done].
Qed.

Lemma joinOptions_stops tokens : stopsAt notCommaQuote (joinOptions tokens +:+ GoStrings.q).
Proof. destruct tokens; reflexivity. Qed.

Lemma matchTagBody_tokens name tokens :
  allChars notCommaQuote name = true →
  Forall (λ t, allChars notCommaQuote t = true) tokens →
  matchTagBody (name +:+ joinOptions tokens +:+ GoStrings.q)
  = Some (name, joinOptions tokens).
Proof.
  intros Hn Ht. unfold matchTagBody.
  rewrite span_app by (done || apply joinOptions_stops).
  destruct tokens as [|t rest]; [reflexivity|].
  simpl joinOptions. rewrite append_cons. simpl.
  rewrite span_app; [done| |done].
  apply (joinOptions_notQuote (t :: rest)) in Ht. exact Ht.
Qed.

Lemma notComma_neq c : notComma c = true → c ≠ ","%char.
Proof. unfold notComma. intros H ->. discriminate H. Qed.

Lemma prefix_cons c k d (s : string) :
  String.prefix (String c k) (String d s)
  = if Ascii.eqb c d then String.prefix k s else false.
Proof.
  simpl. destruct (ascii_dec c d) as [->|Hn].
  - by rewrite Ascii.eqb_refl.
  - apply Ascii.eqb_neq in Hn. by rewrite Hn.
Qed.

Lemma prefix_nil_r c k : String.prefix (String c k) EmptyString = false.
Proof. reflexivity. Qed.

Lemma Contains_cons c (s sub : string) :
  GoStrings.Contains (String c s) sub
  = String.prefix sub (String c s) || GoStrings.Contains s sub.
Proof. reflexivity. Qed.

Lemma prefix_app_stop k : ∀ t J,
  allChars notComma k = true → stopsAt notComma J →
  String.prefix k (t +:+ J) = String.prefix k t.
Proof.
  induction k as [|c k IH]; intros t J Hk HJ; [by destruct t, J|].
  simpl in Hk. apply andb_true_iff in Hk as [Hc Hk].
  destruct t as [|d t].
  - rewrite append_nil, prefix_nil_r. destruct J as [|e J]; [done|].
    rewrite prefix_cons. simpl in HJ.
    destruct (Ascii.eqb c e) eqn:He; [|done].
    apply Ascii.eqb_eq in He as ->. by rewrite Hc in HJ.
  - rewrite append_cons, !prefix_cons. destruct (Ascii.eqb c d); [by apply IH|done].
Qed.

Lemma Contains_skip k t J :
  allChars notComma t = true →
  GoStrings.Contains (t +:+ J) (String ","%char k)
  = GoStrings.Contains J (String ","%char k).
Proof.
  induction t as [|d t IH]; intros Ht; [done|].
  simpl in Ht. apply andb_true_iff in Ht as [Hd Ht].
  rewrite append_cons, Contains_cons, prefix_cons.
  unfold notComma in Hd. rewrite Ascii.eqb_sym in Hd.
  apply negb_true_iff in Hd. rewrite Hd. by apply IH.
Qed.

Lemma joinOptions_stopsAt tokens : stopsAt notComma (joinOptions tokens).
Proof. destruct tokens; reflexivity. Qed.

Lemma Contains_joinOptions k tokens :
  allChars notComma k = true →
  Forall (λ t, allChars notComma t = true) tokens →
  GoStrings.Contains (joinOptions tokens) (String ","%char k)
  = existsb (String.prefix k) tokens.
Proof.
  intros Hk. induction 1 as [|t rest Ht _ IH]; [done|].
  simpl joinOptions. rewrite Contains_cons, prefix_cons, Ascii.eqb_refl.
  rewrite prefix_app_stop by (done || apply joinOptions_stopsAt).
  by rewrite Contains_skip, IH.
Qed.

Lemma tokens_notComma tokens :
  Forall (λ t, allChars notCommaQuote t = true) tokens →
  Forall (λ t, allChars notComma t = true) tokens.
Proof.
  intros H. eapply Forall_impl; [exact H|].
  intros t. apply allChars_weaken, notCommaQuote_notComma.
Qed.

Lemma prefix_append (a b : string) : String.prefix a (a +:+ b) = true.
Proof.
  induction a as [|c a IH]; [by destruct b|].
  by rewrite append_cons, prefix_cons, Ascii.eqb_refl.
Qed.

Lemma drop_append (a b : string) : GoStrings.drop (String.length a) (a +:+ b) = b.
Proof. induction a as [|c a IH]; [done|]. by rewrite append_cons. Qed.

Lemma Contains_prefix (s sub : string) :
  String.prefix sub s = true → GoStrings.Contains s sub = true.
Proof.
  intros H. destruct s as [|c s].
  - change (GoStrings.Contains EmptyString sub)
      with (String.prefix sub EmptyString || false). by rewrite H.
  - by rewrite Contains_cons, H.
Qed.

Lemma findJsonTag_eq s :
  findJsonTag s
  = match (if String.prefix jsonKey s
           then matchTagBody (GoStrings.drop (String.length jsonKey) s)
           else None) with
    | Some r => Some r
    | None => match s with
              | EmptyString => None
              | String _ s' => findJsonTag s'
              end
    end.
Proof. destruct s; reflexivity. Qed.

(** X1. A json tag that is a name followed by comma-separated options, all
    free of commas and quotes, is accepted: the Name is the name, the Value
    is the whole tag body, IsString holds exactly when some option starts
    with string, and Omitempty exactly when some option starts with
    omitempty, wherever the option stands. *)
Theorem getJsonTag_options (name : string) (tokens : list string) :
  allChars notCommaQuote name = true →
  Forall (λ t, allChars notCommaQuote t = true) tokens →
  getJsonTag (tagOf (name +:+ joinOptions tokens))
  = (mkJsonTag name (name +:+ joinOptions tokens)
       (existsb (String.prefix "string") tokens)
       (existsb (String.prefix "omitempty") tokens),
     true).
Proof.
  intros Hn Ht. unfold getJsonTag, tagOf.
  rewrite Contains_prefix by apply prefix_append.
  rewrite findJsonTag_eq, prefix_append, drop_append.
  rewrite append_assoc, matchTagBody_tokens by done.
  simpl negb. cbv iota beta.
  apply tokens_notComma in Ht.
  rewrite (Contains_joinOptions "string") by done.
  rewrite (Contains_joinOptions "omitempty") by done.
  done.
Qed.

Lemma getJsonTag_options_witness :
  getJsonTag (tagOf "id,omitempty,string")
  = (mkJsonTag "id" "id,omitempty,string" true true, true).
Proof.
  apply (getJsonTag_options "id" ["omitempty"; "string"]);
    [reflexivity|repeat constructor].
Defined.

Lemma prefix_drop (a s : string) :
  String.prefix a s = true → s = a +:+ GoStrings.drop (String.length a) s.
Proof.
  revert s. induction a as [|c a IH]; intros s H; [done|].
  destruct s as [|d s]; [discriminate H|].
  rewrite prefix_cons in H. destruct (Ascii.eqb c d) eqn:E; [|discriminate H].
  apply Ascii.eqb_eq in E as ->. rewrite append_cons. simpl. f_equal. by apply IH.
Qed.

Lemma Contains_tail c (s sub : string) :
  GoStrings.Contains s sub = true → GoStrings.Contains (String c s) sub = true.
Proof. intros H. rewrite Contains_cons, H. apply orb_true_r. Qed.

Lemma matchTagBody_spec s g1 g2 :
  matchTagBody s = Some (g1, g2) →
  allChars notCommaQuote g1 = true
  ∧ (g2 = EmptyString ∨ ∃ o, g2 = String ","%char o ∧ allChars notQuote o = true)
  ∧ String.prefix (g1 +:+ g2 +:+ GoStrings.q) s = true.
Proof.
  unfold matchTagBody.
  destruct (GoStrings.span notCommaQuote s) as [name r1] eqn:E1.
  apply span_spec in E1 as (-> & Hn & Hs).
  destruct r1 as [|c r2]; [discriminate|].
  destruct (Ascii.eqb c GoStrings.dquote) eqn:Ec.
  - intros [= <- <-]. apply Ascii.eqb_eq in Ec as ->.
    split; [done|]. split; [by left|].
    rewrite append_nil.
    replace (name +:+ String GoStrings.dquote r2)
      with ((name +:+ GoStrings.q) +:+ r2)
      by (by rewrite append_assoc).
    apply prefix_append.
  - destruct (GoStrings.span notQuote r2) as [opts r3] eqn:E2.
    apply span_spec in E2 as (-> & Ho & Hs2).
    destruct r3 as [|d r3]; [discriminate|]. intros [= <- <-].
    simpl in Hs, Hs2.
    assert (c = ","%char) as ->.
    { unfold notCommaQuote in Hs. rewrite Ec in Hs.
      destruct (Ascii.eqb c ","%char) eqn:Ecomma; [|discriminate Hs].
      by apply Ascii.eqb_eq in Ecomma. }
    assert (d = GoStrings.dquote) as ->.
    { unfold notQuote in Hs2.
      destruct (Ascii.eqb d GoStrings.dquote) eqn:Eq; [|discriminate Hs2].
      by apply Ascii.eqb_eq in Eq. }
    split; [done|]. split; [right; by exists opts|].
    replace (name +:+ String ","%char (opts +:+ String GoStrings.dquote r3))
      with ((name +:+ String ","%char opts +:+ GoStrings.q) +:+ r3).
    + apply prefix_append.
    + by rewrite ?append_assoc, ?append_cons, ?append_assoc, ?append_nil.
Qed.

Lemma findJsonTag_spec s g1 g2 :
  findJsonTag s = Some (g1, g2) →
  allChars notCommaQuote g1 = true
  ∧ (g2 = EmptyString ∨ ∃ o, g2 = String ","%char o ∧ allChars notQuote o = true)
  ∧ GoStrings.Contains s (jsonKey +:+ g1 +:+ g2 +:+ GoStrings.q) = true.
Proof.
  induction s as [|c s IH]; rewrite findJsonTag_eq.
  - discriminate.
  - destruct (String.prefix jsonKey (String c s)) eqn:Hp.
    + destruct (matchTagBody _) as [[a b]|] eqn:Hm.
      * intros [= <- <-]. apply matchTagBody_spec in Hm as (H1 & H2 & H3).
        split; [done|]. split; [done|].
        apply Contains_prefix. rewrite (prefix_drop _ _ Hp).
        apply prefix_drop in H3. rewrite H3.
        rewrite <- !append_assoc. apply prefix_append.
      * intros H. destruct (IH H) as (H1 & H2 & H3).
        split; [done|]. split; [done|]. by apply Contains_tail.
    + intros H. destruct (IH H) as (H1 & H2 & H3).
      split; [done|]. split; [done|]. by apply Contains_tail.
Qed.

(** X2. Whatever the struct tag is, when getJsonTag accepts it the Name has
    no comma and no quote, the Value is the Name followed by the options,
    which are empty or a comma and a text without quote, both flags are read
    off the options alone, and the key json, the Value and a closing quote
    stand in the struct tag as they are. *)
Theorem getJsonTag_shape (structTags : string) (jsonTag : jsonTag) :
  getJsonTag structTags = (jsonTag, true) →
  allChars notCommaQuote (tag_Name jsonTag) = true
  ∧ ∃ opts,
      tag_Value jsonTag = tag_Name jsonTag +:+ opts
      ∧ (opts = EmptyString
         ∨ ∃ o, opts = String ","%char o ∧ allChars notQuote o = true)
      ∧ tag_IsString jsonTag = GoStrings.Contains opts ",string"
      ∧ tag_Omitempty jsonTag = GoStrings.Contains opts ",omitempty"
      ∧ GoStrings.Contains structTags (jsonKey +:+ tag_Value jsonTag +:+ GoStrings.q)
        = true.
Proof.
  unfold getJsonTag.
  destruct (negb (GoStrings.Contains structTags jsonKey)); [discriminate|].
  destruct (findJsonTag structTags) as [[g1 g2]|] eqn:Hf; [|discriminate].
  intros [= <-]. simpl. apply findJsonTag_spec in Hf as (H1 & H2 & H3).
  split; [done|]. exists g2. repeat split; try done.
  by rewrite append_assoc.
Qed.

Lemma getJsonTag_shape_witness :
  ∃ jsonTag,
    getJsonTag (tagOf "id,omitempty") = (jsonTag, true)
    ∧ allChars notCommaQuote (tag_Name jsonTag) = true.
Proof.
  exists (mkJsonTag "id" "id,omitempty" false true). split; [reflexivity|].
  exact (proj1 (getJsonTag_shape (tagOf "id,omitempty") _ eq_refl)).
Defined.

(** ** Embedded fields and repeated names *)

Lemma filter_notIn_nil (l : list TypeField) : filter (notIn []) l = l.
Proof.
  induction l as [|x l IH]; [done|].
  rewrite filter_cons_True; [by rewrite IH|]. unfold notIn. apply not_elem_of_nil.
Qed.

Lemma sample_names_unique :
  NoDup (map f_Name [fieldNamed "Kind" "child"; fieldNamed "ID" "base"]).
Proof.
  apply NoDup_cons. split; [|apply NoDup_singleton].
  intros Hin. apply list_elem_of_singleton in Hin. discriminate Hin.
Qed.

(** X3. Merging the fields of an embedded struct into the fields so far, both
    with unique names, never runs out of the slice: the result is the fields
    so far without those whose name the embedded struct also has, followed by
    the embedded fields in their order. *)
Theorem appendAll_last_write_wins (fields embedded : list TypeField) :
  NoDup (map f_Name fields) → NoDup (map f_Name embedded) →
  appendAll fields embedded
  = Some (filter (notIn (map f_Name embedded)) fields ++ embedded).
Proof.
  revert fields. induction embedded as [|x rest IH]; intros fields Hf He.
  - simpl. by rewrite filter_notIn_nil, app_nil_r.
  - simpl in *. apply NoDup_cons in He as [Hx He].
    rewrite appendOrOverride_spec by done.
    rewrite IH by (done || by apply override_keeps_unique).
    f_equal. rewrite filter_app, <- app_assoc. f_equal.
    + rewrite list_filter_filter. apply list_filter_iff. intros f.
      unfold notIn, otherName. rewrite not_elem_of_cons. tauto.
    + rewrite filter_cons_True by done. done.
Qed.

Lemma appendAll_last_write_wins_witness :
  appendAll [fieldNamed "Kind" "child"; fieldNamed "ID" "base"]
    [fieldNamed "Kind" "base"]
  = Some [fieldNamed "ID" "base"; fieldNamed "Kind" "base"].
Proof.
  exact (appendAll_last_write_wins _ [fieldNamed "Kind" "base"] sample_names_unique
           (NoDup_singleton _)).
Defined.

(** X4. On a slice with unique names appendOrOverrideExistingField returns,
    the new field is the last entry of the result, the length stays or grows
    by one, and appending the same field once more changes nothing. *)
Theorem appendOrOverride_idempotent (slice : list TypeField) (newItem : TypeField) :
  NoDup (map f_Name slice) →
  ∃ slice',
    appendOrOverrideExistingField slice newItem = Some slice'
    ∧ appendOrOverrideExistingField slice' newItem = Some slice'
    ∧ length slice ≤ length slice' ≤ S (length slice)
    ∧ last slice' = Some newItem.
Proof.
  intros Hnd. eexists. split; [by apply appendOrOverride_spec|].
  pose proof (override_keeps_unique slice newItem Hnd) as Hnd'.
  split; [|split].
  - rewrite appendOrOverride_spec by done. f_equal.
    rewrite filter_app, list_filter_filter.
    rewrite filter_cons_False by (unfold otherName; tauto).
    rewrite filter_nil, app_nil_r. f_equal.
    apply list_filter_iff. intros f. tauto.
  - rewrite length_app. simpl.
    pose proof (length_filter (otherName (f_Name newItem)) slice) as Hle.
    split; [|lia].
    destruct (decide (f_Name newItem ∈ map f_Name slice)) as [Hin|Hout].
    + destruct (names_split _ _ Hnd Hin) as (l1 & x & l2 & -> & Hx & H1 & H2).
      rewrite filter_app, filter_cons_False by (unfold otherName; tauto).
      rewrite !filter_other_all by done. rewrite !length_app. simpl. lia.
    + rewrite filter_other_all by done. lia.
  - apply last_snoc.
Qed.

Lemma appendOrOverride_idempotent_witness :
  ∃ slice',
    appendOrOverrideExistingField [fieldNamed "Kind" "child"; fieldNamed "ID" "base"]
      (fieldNamed "Kind" "base") = Some slice'
    ∧ appendOrOverrideExistingField slice' (fieldNamed "Kind" "base") = Some slice'.
Proof.
  destruct (appendOrOverride_idempotent _ (fieldNamed "Kind" "base") sample_names_unique)
    as (slice' & H1 & H2 & _).
  exists slice'. split; [exact H1|exact H2].
Defined.

(** ** The name canonicalizer *)

Lemma take_append (a b : string) : GoStrings.take (String.length a) (a +:+ b) = a.
Proof.
  induction a as [|c a IH]; [by destruct b|].
  rewrite append_cons. simpl. by rewrite IH.
Qed.

Lemma findFirstLetterFrom_append pre rest i :
  allChars notLetter pre = true → startsWithLetter rest →
  findFirstLetterFrom (pre +:+ rest) i = Some (i + String.length pre).
Proof.
  revert i. induction pre as [|c pre IH]; intros i Hp Hr.
  - rewrite append_nil. destruct rest as [|d rest]; [done|]. simpl in *.
    rewrite Hr. f_equal. lia.
  - rewrite append_cons. simpl in *. apply andb_true_iff in Hp as [Hc Hp].
    unfold notLetter in Hc. apply negb_true_iff in Hc. rewrite Hc.
    rewrite IH by done. f_equal. lia.
Qed.

Lemma findFirstLetter_append pre rest :
  allChars notLetter pre = true → startsWithLetter rest →
  findFirstLetter (pre +:+ rest) = String.length pre.
Proof.
  intros Hp Hr. unfold findFirstLetter.
  by rewrite findFirstLetterFrom_append.
Qed.


Lemma rev_app_append (a b c : string) :
  String.rev_app (a +:+ b) c = String.rev_app b (String.rev_app a c).
Proof.
  revert c. induction a as [|x a IH]; intros c; [done|].
  rewrite append_cons. simpl. apply IH.
Qed.

Lemma lastElemRev_rev_app l : ∀ X acc,
  allChars notSlash l = true →
  GoStrings.lastElemRev (String.rev_app l X) acc
  = GoStrings.lastElemRev X (l +:+ acc).
Proof.
  induction l as [|c l IH]; intros X acc Hl; [done|].
  simpl in Hl. apply andb_true_iff in Hl as [Hc Hl].
  simpl. rewrite IH by done. simpl.
  unfold notSlash in Hc. apply negb_true_iff in Hc. by rewrite Hc.
Qed.

Lemma lastElemRev_stop X acc : slashOrEnd X → GoStrings.lastElemRev X acc = acc.
Proof. destruct X as [|c X]; [done|]. simpl. by intros ->. Qed.

Lemma stripSlashes_rev_app l : ∀ X,
  allChars notSlash l = true →
  (l ≠ EmptyString ∨ ∃ c Y, X = String c Y ∧ GoStrings.isSlash c = false) →
  GoStrings.stripSlashes (String.rev_app l X) = String.rev_app l X.
Proof.
  induction l as [|c l IH]; intros X Hl Hne.
  - destruct Hne as [|(c & Y & -> & Hc)]; [done|]. simpl. by rewrite Hc.
  - simpl in Hl. apply andb_true_iff in Hl as [Hc Hl]. simpl.
    apply IH; [done|]. right. exists c, X. split; [done|].
    unfold notSlash in Hc. by apply negb_true_iff in Hc.
Qed.

Lemma append_nil_r (l : string) : l +:+ EmptyString = l.
Proof. induction l as [|c l IH]; [done|]. by rewrite append_cons, IH. Qed.

(** The last element of a path: what follows the last slash. *)
Lemma Base_last (dir l : string) :
  allChars notSlash l = true → l ≠ EmptyString →
  slashOrEnd (String.rev dir) →
  GoStrings.Base (dir +:+ l) = l.
Proof.
  intros Hl Hne Hd. unfold GoStrings.Base.
  assert (Hnn : dir +:+ l ≠ EmptyString).
  { destruct dir; [by rewrite append_nil|by rewrite append_cons]. }
  destruct (dir +:+ l) as [|c0 s0] eqn:Eq; [done|]. rewrite <- Eq. clear Eq Hnn.
  unfold String.rev. rewrite rev_app_append.
  rewrite stripSlashes_rev_app by (done || by left).
  rewrite lastElemRev_rev_app by done.
  rewrite lastElemRev_stop by done.
  rewrite append_nil_r. by destruct l.
Qed.





Lemma LastIndex_none s :
  allChars isIdentChar s = true → GoStrings.LastIndex s "."%char = None.
Proof.
  induction s as [|c s IH]; [done|]. simpl. intros [Hc Hs]%andb_true_iff.
  rewrite IH by done.
  destruct (Ascii.eqb c "."%char) eqn:E; [|done].
  apply Ascii.eqb_eq in E as ->. discriminate Hc.
Qed.

Lemma LastIndex_append path name :
  allChars isIdentChar name = true →
  GoStrings.LastIndex (path +:+ "." +:+ name) "."%char = Some (String.length path).
Proof.
  intros Hn. induction path as [|c path IH].
  - rewrite append_nil, append_cons, append_nil. simpl.
    by rewrite LastIndex_none.
  - rewrite append_cons. simpl. by rewrite IH.
Qed.

(** X6. The import of a qualified type is the package path in front of the
    last dot, without the prefix, and it is empty for the schema package,
    for command-line-arguments and for time. The prefix is ASCII text and
    the path starts with an ASCII letter. *)
Theorem goTypeImport_qualified (schemaPkg pre path name : string) :
  allChars isASCII pre = true →
  allChars notLetter pre = true →
  startsWithLetter path →
  allChars isIdentChar name = true →
  goTypeImportOf schemaPkg (pre +:+ path +:+ "." +:+ name)
  = if String.eqb path schemaPkg || String.eqb path "command-line-arguments"
       || String.eqb path "time"
    then EmptyString else path.
Proof.
  intros _ Hpre Hpath Hid. unfold goTypeImportOf. cbv zeta.
  assert (Hs : startsWithLetter (path +:+ "." +:+ name)).
  { destruct path; [done|]. rewrite append_cons. exact Hpath. }
  rewrite findFirstLetter_append by done. rewrite drop_append.
  rewrite LastIndex_append by done.
  destruct path as [|c path]; [done|].
  cbn [String.length]. 
  change (S (String.length path)) with (String.length (String c path)).
  by rewrite take_append.
Qed.

Lemma goTypeImport_qualified_witness :
  goTypeImportOf samplePkg "[]*github.com/golang-cz/gospeak/pkg.Typ"
  = "github.com/golang-cz/gospeak/pkg".
Proof.
  apply (goTypeImport_qualified samplePkg "[]*" "github.com/golang-cz/gospeak/pkg" "Typ");
    reflexivity.
Defined.

(** X7. The Go name of a type outside the schema package keeps the prefix
    and the last element of the path: the directories in front of the last
    slash are dropped, and a name without a path, such as that of a basic
    type, is kept as it is. The prefix is ASCII text and the path starts
    with an ASCII letter. *)
Theorem goTypeName_foreign_package (schemaPkg pre dir last : string) :
  allChars isASCII pre = true →
  allChars notLetter pre = true →
  startsWithLetter (dir +:+ last) →
  GoStrings.HasPrefix (dir +:+ last) (schemaPkg +:+ ".") = false →
  GoStrings.HasPrefix (dir +:+ last) "command-line-arguments." = false →
  slashOrEnd (String.rev dir) →
  allChars notSlash last = true → last ≠ EmptyString → last ≠ "invalid type" →
  goTypeNameOf schemaPkg (pre +:+ dir +:+ last) = pre +:+ last.
Proof.
  intros _ Hpre Hs Hp1 Hp2 Hd Hl Hne Hinv. unfold goTypeNameOf. cbv zeta.
  rewrite findFirstLetter_append by done. rewrite take_append, drop_append.
  unfold GoStrings.TrimPrefix. rewrite Hp1, Hp2. rewrite Base_last by done.
  destruct (String.eqb last "invalid type") eqn:E; [|done].
  by apply String.eqb_eq in E.
Qed.

Lemma goTypeName_foreign_package_witness :
  goTypeNameOf samplePkg "[]*github.com/golang-cz/gospeak/pkg.Typ" = "[]*pkg.Typ".
Proof.
  apply (goTypeName_foreign_package samplePkg "[]*" "github.com/golang-cz/gospeak/"
           "pkg.Typ"); try reflexivity; discriminate.
Defined.

(** ** The states a parse can reach *)

Lemma runs_grow (p : Parser) (calls : list (nat * string * tid)) (st st' : State) :
  runs p calls st = Some st' →
  extends st st' ∧ (WF p st → WF p st').
Proof.
  revert st. induction calls as [|[[fuel typeName] typ] rest IH]; intros st; simpl.
  - intros [= <-]. split; [apply extends_refl|done].
  - destruct (parseNamedType p fuel typeName typ st) as [r st1|] eqn:E; [|discriminate].
    intros H. destruct (IH _ H) as [H1 H2].
    split.
    + eapply extends_trans; [by eapply parseNamedType_extends|done].
    + intros Hwf. apply H2. by eapply parseNamedType_WF.
Qed.

(** X8. In every state a parse can reach from the empty one, two types never
    share a memo record, every memo record exists, and a type that has a
    memo entry is answered from the memo, with the state unchanged, whatever
    the parent name is. *)
Theorem reachable_memo (p : Parser) (calls : list (nat * string * tid)) (st : State) :
  runs p calls initState = Some st →
  (∀ t1 t2 l, parsedTypes st !! t1 = Some l → parsedTypes st !! t2 = Some l → t1 = t2)
  ∧ (∀ t l, parsedTypes st !! t = Some l → is_Some (heap st !! l))
  ∧ (∀ t l fuel typeName,
       parsedTypes st !! t = Some l →
       parseNamedType p (S fuel) typeName t st = Done (Ok l) st).
Proof.
  intros H. destruct (runs_grow _ _ _ _ H) as [_ Hwf].
  destruct (Hwf (WF_initState p)) as (Ha & Hb & _).
  split; [exact Hb|]. split.
  - intros t l Hl. apply lookup_lt_is_Some_2. eauto.
  - intros t l fuel typeName Hl. by apply parseNamedType_hit.
Qed.

Lemma reachable_memo_witness :
  ∃ st,
    runs (sampleParser cyclicGraph) [(5, EmptyString, 0)] initState = Some st
    ∧ ∀ t l, parsedTypes st !! t = Some l → is_Some (heap st !! l).
Proof.
  destruct (runs (sampleParser cyclicGraph) [(5, EmptyString, 0)] initState)
    as [st|] eqn:E; [|vm_compute in E; discriminate E].
  exists st. split; [reflexivity|].
  exact (proj1 (proj2 (reachable_memo _ _ _ E))).
Defined.

(** X9. A pointer type is its element: the record of the pointer type is a
    copy of the record that the element call returned, as it was at that
    moment, the element is translated under the name of the pointer type when
    the call gives none, and an error of the element comes back without any
    added context. *)
Theorem pointer_is_transparent (p : Parser) (fuel : nat) (typeName : string)
    (typ elem : tid) (st : State) :
  shapeOf p typ = Pointer elem →
  parsedTypes st !! typ = None →
  let name := if String.eqb typeName "" then goTypeName p typ else typeName in
  (∀ l st1 v,
     parseNamedType p fuel name elem (claim typeName typ st) = Done (Ok l) st1 →
     heap st1 !! l = Some v →
     parseNamedType p (S fuel) typeName typ st
     = Done (Ok (length (heap st)))
         (mkState (parsedTypes st1) (<[length (heap st) := v]> (heap st1))
            (schemaTypes st1)))
  ∧ (∀ e st1,
       parseNamedType p fuel name elem (claim typeName typ st) = Done (Err e) st1 →
       parseNamedType p (S fuel) typeName typ st = Done (Err e) st1).
Proof.
  intros Hs Hm name. split.
  - intros l st1 v E Hv. rewrite parseNamedType_miss by done.
    unfold dispatch. rewrite Hs. subst name.
    destruct (String.eqb typeName ""); rewrite E; by apply fill_Ok.
  - intros e st1 E. rewrite parseNamedType_miss by done.
    unfold dispatch. rewrite Hs. subst name.
    destruct (String.eqb typeName ""); by rewrite E.
Qed.

Lemma pointer_is_transparent_witness :
  ∃ l st1 v,
    parseNamedType (sampleParser pointerGraph) 1 "*int64" 1 (claim "" 0 initState)
    = Done (Ok l) st1
    ∧ heap st1 !! l = Some v
    ∧ parseNamedType (sampleParser pointerGraph) 2 "" 0 initState
      = Done (Ok 0)
          (mkState (parsedTypes st1) (<[0 := v]> (heap st1)) (schemaTypes st1)).
Proof.
  destruct (parseNamedType (sampleParser pointerGraph) 1 "*int64" 1
              (claim "" 0 initState)) as [[l| |] st1|] eqn:E;
    try (vm_compute in E; discriminate E).
  destruct (heap st1 !! l) as [v|] eqn:Hv.
  2:{ exfalso. vm_compute in E. injection E as <- <-. vm_compute in Hv.
      discriminate Hv. }
  exists l, st1, v. split; [reflexivity|]. split; [exact Hv|].
  exact (proj1 (pointer_is_transparent (sampleParser pointerGraph) 1 "" 0 1 initState
                  eq_refl eq_refl) l st1 v E Hv).
Defined.

(** X10. The record of a slice type is a list whose element is the very
    record the memo holds for the element type (not a copy) and whose
    expression is the element's behind brackets; an error of the element is
    wrapped with the slice context. *)
Theorem slice_shares_element (p : Parser) (fuel : nat) (typeName : string)
    (typ elem : tid) (st : State) :
  shapeOf p typ = Slice elem →
  parsedTypes st !! typ = None →
  (∀ l st1 e,
     parseNamedType p fuel typeName elem (claim typeName typ st) = Done (Ok l) st1 →
     heap st1 !! l = Some e →
     ∃ st',
       parseNamedType p (S fuel) typeName typ st = Done (Ok (length (heap st))) st'
       ∧ heap st' !! length (heap st)
         = Some (mkVarType ("[]" +:+ Expr e) T_List (Some l) None None)
       ∧ parsedTypes st' !! elem = Some l
       ∧ schemaTypes st' = schemaTypes st1)
  ∧ (∀ e st1,
       parseNamedType p fuel typeName elem (claim typeName typ st) = Done (Err e) st1 →
       parseNamedType p (S fuel) typeName typ st
       = Done (Err ("failed to parse slice type: " +:+ e)) st1).
Proof.
  intros Hs Hm. split.
  - intros l st1 e E He.
    pose proof (parseNamedType_extends _ _ _ _ _ _ _ E) as (_ & Hheap & _).
    pose proof (parseNamedType_memoized _ _ _ _ _ _ _ E) as Hl.
    eexists. split; [|split; [|split]].
    + rewrite parseNamedType_miss by done.
      unfold dispatch. rewrite Hs. unfold parseSlice, bind, wrapErr. rewrite E.
      unfold deref. rewrite He. unfold alloc.
      apply fill_Ok. cbn [heap]. rewrite lookup_app_r by done.
      by replace (length (heap st1) - length (heap st1)) with 0 by lia.
    + cbn [heap]. eapply lookup_after_fill.
      simpl in Hheap. destruct Hheap as [k ->]. rewrite <- app_assoc.
      by apply prefix_app_r.
    + exact Hl.
    + reflexivity.
  - intros e st1 E. rewrite parseNamedType_miss by done.
    unfold dispatch. rewrite Hs. unfold parseSlice, bind, wrapErr. by rewrite E.
Qed.

Lemma slice_shares_element_witness :
  ∃ l st1 e st',
    parseNamedType (sampleParser sliceGraph) 1 "" 1 (claim "" 0 initState)
    = Done (Ok l) st1
    ∧ heap st1 !! l = Some e
    ∧ parseNamedType (sampleParser sliceGraph) 2 "" 0 initState = Done (Ok 0) st'
    ∧ heap st' !! 0 = Some (mkVarType ("[]" +:+ Expr e) T_List (Some l) None None)
    ∧ parsedTypes st' !! 1 = Some l.
Proof.
  destruct (parseNamedType (sampleParser sliceGraph) 1 "" 1 (claim "" 0 initState))
    as [[l| |] st1|] eqn:E; try (vm_compute in E; discriminate E).
  destruct (heap st1 !! l) as [e|] eqn:He.
  2:{ exfalso. vm_compute in E. injection E as <- <-. vm_compute in He.
      discriminate He. }
  destruct (proj1 (slice_shares_element (sampleParser sliceGraph) 1 "" 0 1 initState
                     eq_refl eq_refl) l st1 e E He) as (st' & H1 & H2 & H3 & _).
  exists l, st1, e, st'. split; [reflexivity|]. split; [exact He|].
  split; [exact H1|]. split; [exact H2|exact H3].
Defined.

(** ** Marshalers, arrays and struct fields *)

(** X11. In both walkers a named type that is a text marshaler is a string,
    whatever its underlying type: the underlying type is not translated, no
    type is appended to the schema, and the call cannot fail. *)
Theorem text_marshaler_is_string :
  (∀ (p : Parser) fuel typeName typ info st,
     shapeOf p typ = Named info →
     n_TextMarshaler info = true →
     String.eqb (goTypeName p typ) "Time" = false →
     GoStrings.HasPrefix (goTypeName p typ) "Enum[" = false →
     parsedTypes st !! typ = None →
     parseNamedType p (S fuel) typeName typ st
     = Done (Ok (length (heap st)))
         (mkState (<[typ := length (heap st)]> (parsedTypes st))
            (heap st ++ [stringVarType; stringVarType]) (schemaTypes st)))
  ∧ (∀ (p : Parser) enums GoTypeName ParseBasic ParseStruct ParseSlice ParseAny
       ParseMap fuel parent typ info st,
       shapeOf p typ = Named info →
       n_TextMarshaler info = true →
       String.eqb (GoTypeName (Some typ)) "time.Time" = false →
       enums !! String_ (typeObj p typ) = None →
       parsedTypes st !! typ = None →
       Internal.ParseNamedType p enums GoTypeName ParseBasic ParseStruct ParseSlice
         ParseAny ParseMap (S fuel) parent typ st
       = Done (Ok (length (heap st)))
           (mkState (<[typ := length (heap st)]> (parsedTypes st))
              (heap st ++ [stringVarType; stringVarType]) (schemaTypes st))).
Proof.
  split.
  - intros p fuel typeName typ info st Hs Ht Htime Henum Hm.
    rewrite parseNamedType_miss by done.
    unfold dispatch. rewrite Hs. unfold parseNamed. rewrite Ht, Htime, Henum.
    destruct (n_PkgPath info) as [path|]; [|by apply claim_then_alloc].
    rewrite !andb_false_r, andb_false_l. by apply claim_then_alloc.
  - intros p enums GoTypeName PB PS PSl PA PM fuel parent typ info st
      Hs Ht Htime Henum Hm.
    simpl. rewrite Hm. unfold Internal.dispatch. rewrite Hs.
    unfold Internal.parseNamed. rewrite Htime, Henum, Ht, andb_false_r.
    by apply claim_then_alloc.
Qed.

Lemma text_marshaler_is_string_witness :
  parseNamedType (sampleParser uuidGraph) 1 "" 0 initState
  = Done (Ok 0) (mkState (<[0 := 0]> ∅) [stringVarType; stringVarType] []).
Proof.
  exact (proj1 text_marshaler_is_string (sampleParser uuidGraph) 0 "" 0 uuidInfo
           initState eq_refl eq_refl eq_refl eq_refl eq_refl).
Defined.

Lemma claim_then_list_of_any c typeName typ st :
  c = length (heap st) →
  fill c ((elem <- alloc anyVarType ;;
           alloc (mkVarType "[]any" T_List (Some elem) None None))
            (claim typeName typ st))
  = Done (Ok c)
      (mkState (<[typ := c]> (parsedTypes st))
         (heap st ++ [mkVarType "[]any" T_List (Some (S c)) None None;
                      anyVarType;
                      mkVarType "[]any" T_List (Some (S c)) None None])
         (schemaTypes st)).
Proof.
  intros ->. unfold bind, alloc, claim. cbn [heap parsedTypes schemaTypes].
  rewrite length_app. cbn [length].
  replace (length (heap st) + 1) with (S (length (heap st))) by lia.
  erewrite fill_Ok.
  2:{ cbn [heap]. rewrite lookup_app_r by (rewrite !length_app; simpl; lia).
      rewrite !length_app. cbn [length].
      by replace (length (heap st) + 1 + 1 - (length (heap st) + 1 + 1)) with 0 by lia. }
  cbn [heap parsedTypes schemaTypes]. f_equal. f_equal.
  rewrite <- !app_assoc. cbn [app]. rewrite insert_app_r_alt by done.
  rewrite ?length_app. cbn [length]. by rewrite ?Nat.add_1_r, Nat.sub_diag.
Qed.

(** X12. A named type that is a JSON marshaler, and not a text marshaler, is
    any, or a list of any when its underlying type is a slice or an array;
    its underlying type is not translated. A named pointer type is excepted:
    there the marshaler is not consulted. *)
Theorem json_marshaler_is_any (p : Parser) (fuel : nat) (typeName : string)
    (typ : tid) (info : NamedInfo) (st : State) :
  shapeOf p typ = Named info →
  n_TextMarshaler info = false →
  n_JsonMarshaler info = true →
  String.eqb (goTypeName p typ) "Time" = false →
  GoStrings.HasPrefix (goTypeName p typ) "Enum[" = false →
  isPointer (shapeOf p (n_Underlying info)) = false →
  parsedTypes st !! typ = None →
  ∃ st',
    parseNamedType p (S fuel) typeName typ st = Done (Ok (length (heap st))) st'
    ∧ parsedTypes st' = <[typ := length (heap st)]> (parsedTypes st)
    ∧ schemaTypes st' = schemaTypes st
    ∧ ∃ v, heap st' !! length (heap st) = Some v
           ∧ match shapeOf p (n_Underlying info) with
             | Slice _ | Array _ =>
                 Expr v = "[]any" ∧ Type_ v = T_List
                 ∧ ∃ elem, List_ v = Some elem ∧ heap st' !! elem = Some anyVarType
             | _ => v = anyVarType
             end.
Proof.
  intros Hs Ht Hj Htime Henum Hptr Hm.
  rewrite parseNamedType_miss by done.
  unfold dispatch. rewrite Hs. unfold parseNamed. rewrite Ht, Htime, Henum.
  assert (E : (match n_PkgPath info with
               | Some path =>
                   if String.eqb path "time" && false then alloc timestampVarType
                   else if String.eqb path gospeakPkgPath && false
                           && GoStrings.HasSuffix (goTypeName p typ) "]"
                        then parseEnum p (parseNamedType p fuel) info
                               (goTypeName p (n_Underlying info))
                        else parseNamedUnderlying p (parseNamedType p fuel) info
                               (goTypeName p typ)
               | None => parseNamedUnderlying p (parseNamedType p fuel) info
                           (goTypeName p typ)
               end)
              = parseNamedUnderlying p (parseNamedType p fuel) info (goTypeName p typ)).
  { destruct (n_PkgPath info) as [path|]; [|done].
    by rewrite !andb_false_r, andb_false_l. }
  rewrite E. clear E. unfold parseNamedUnderlying. rewrite Hj.
  assert (Hany : ∃ st',
    fill (length (heap st)) (alloc anyVarType (claim typeName typ st))
    = Done (Ok (length (heap st))) st'
    ∧ parsedTypes st' = <[typ := length (heap st)]> (parsedTypes st)
    ∧ schemaTypes st' = schemaTypes st
    ∧ heap st' !! length (heap st) = Some anyVarType).
  { rewrite claim_then_alloc by done. eexists. split; [reflexivity|].
    split; [reflexivity|]. split; [reflexivity|].
    cbn [heap]. rewrite lookup_app_r by done.
    by replace (length (heap st) - length (heap st)) with 0 by lia. }
  assert (Hlist : ∃ st',
    fill (length (heap st))
      ((elem <- alloc anyVarType ;;
        alloc (mkVarType "[]any" T_List (Some elem) None None))
         (claim typeName typ st))
    = Done (Ok (length (heap st))) st'
    ∧ parsedTypes st' = <[typ := length (heap st)]> (parsedTypes st)
    ∧ schemaTypes st' = schemaTypes st
    ∧ ∃ v, heap st' !! length (heap st) = Some v
           ∧ Expr v = "[]any" ∧ Type_ v = T_List
           ∧ ∃ elem, List_ v = Some elem ∧ heap st' !! elem = Some anyVarType).
  { rewrite claim_then_list_of_any by done. eexists. split; [reflexivity|].
    split; [reflexivity|]. split; [reflexivity|].
    eexists. split.
    - cbn [heap]. rewrite lookup_app_r by done.
      by replace (length (heap st) - length (heap st)) with 0 by lia.
    - split; [reflexivity|]. split; [reflexivity|]. eexists. split; [reflexivity|].
      cbn [heap]. rewrite lookup_app_r by lia.
      by replace (S (length (heap st)) - length (heap st)) with 1 by lia. }
  destruct (shapeOf p (n_Underlying info)) eqn:Hu; try discriminate Hptr.
  all: try (destruct Hany as (st' & E & H1 & H2 & H3); exists st';
            split; [exact E|]; split; [exact H1|]; split; [exact H2|];
            by exists anyVarType).
  all: destruct Hlist as (st' & E & H1 & H2 & H3); exists st';
       split; [exact E|]; split; [exact H1|]; split; [exact H2|]; exact H3.
Qed.

Lemma json_marshaler_is_any_witness :
  ∃ st',
    parseNamedType (sampleParser rawGraph) 1 "" 0 initState = Done (Ok 0) st'
    ∧ parsedTypes st' = <[0 := 0]> ∅
    ∧ schemaTypes st' = []
    ∧ ∃ v, heap st' !! 0 = Some v
           ∧ Expr v = "[]any" ∧ Type_ v = T_List
           ∧ ∃ elem, List_ v = Some elem ∧ heap st' !! elem = Some anyVarType.
Proof.
  exact (json_marshaler_is_any (sampleParser rawGraph) 0 "" 0 rawInfo initState
           eq_refl eq_refl eq_refl eq_refl eq_refl eq_refl eq_refl).
Defined.

(** X13. An array type has no case of its own in the type switch: it is
    refused, and so is a named array type whose elements are not of a basic
    type, which ends up in that switch with its underlying array. The
    placeholders claimed on the way stay in the memo. *)
Theorem array_is_refused (p : Parser) (fuel : nat) (typeName : string) (typ : tid)
    (st : State) :
  parsedTypes st !! typ = None →
  (∀ elem,
     shapeOf p typ = Array elem →
     parseNamedType p (S fuel) typeName typ st
     = Done (Err "unsupported argument type *types.Array") (claim typeName typ st))
  ∧ (∀ info elem,
       shapeOf p typ = Named info →
       n_TextMarshaler info = false →
       n_JsonMarshaler info = false →
       String.eqb (goTypeName p typ) "Time" = false →
       GoStrings.HasPrefix (goTypeName p typ) "Enum[" = false →
       shapeOf p (n_Underlying info) = Array elem →
       (∀ basic, shapeOf p (Underlying p elem) ≠ Basic basic) →
       parsedTypes st !! n_Underlying info = None →
       parseNamedType p (S (S fuel)) typeName typ st
       = Done (Err "unsupported argument type *types.Array")
           (claim (goTypeName p (n_Underlying info)) (n_Underlying info)
              (claim typeName typ st))).
Proof.
  intros Hm. split.
  - intros elem Hs. rewrite parseNamedType_miss by done.
    unfold dispatch. by rewrite Hs.
  - intros info elem Hs Ht Hj Htime Henum Hu Hnb Hmu.
    assert (Hne : n_Underlying info ≠ typ).
    { intros He. rewrite He in Hu. rewrite Hs in Hu. discriminate Hu. }
    rewrite parseNamedType_miss by done.
    unfold dispatch at 1. rewrite Hs. unfold parseNamed. rewrite Ht, Htime, Henum.
    assert (E : ∀ A (a b c : A),
               (match n_PkgPath info with
                | Some path =>
                    if String.eqb path "time" && false then a
                    else if String.eqb path gospeakPkgPath && false
                            && GoStrings.HasSuffix (goTypeName p typ) "]"
                         then b else c
                | None => c
                end) = c).
    { intros A a b c. destruct (n_PkgPath info) as [path|]; [|done].
      by rewrite !andb_false_r, andb_false_l. }
    rewrite E. clear E. unfold parseNamedUnderlying. rewrite Hu, Hj.
    assert (Hrec : parseNamedType p (S fuel) (goTypeName p (n_Underlying info))
                     (Underlying p (n_Underlying info)) (claim typeName typ st)
                   = Done (Err "unsupported argument type *types.Array")
                       (claim (goTypeName p (n_Underlying info)) (n_Underlying info)
                          (claim typeName typ st))).
    { unfold Underlying. rewrite Hu.
      rewrite parseNamedType_miss
        by (cbn [claim parsedTypes]; by rewrite lookup_insert_ne).
      unfold dispatch. by rewrite Hu. }
    destruct (shapeOf p (Underlying p elem)) eqn:He;
      try (by rewrite Hrec); by destruct (Hnb name).
Qed.

Lemma array_is_refused_witness :
  parseNamedType (sampleParser arrayGraph) 1 "" 0 initState
  = Done (Err "unsupported argument type *types.Array") (claim "" 0 initState)
  ∧ parseNamedType (sampleParser gridGraph) 2 "" 0 initState
    = Done (Err "unsupported argument type *types.Array")
        (claim "[3]Point" 1 (claim "" 0 initState)).
Proof.
  split.
  - exact (proj1 (array_is_refused (sampleParser arrayGraph) 0 "" 0 initState eq_refl)
             1 eq_refl).
  - refine (proj2 (array_is_refused (sampleParser gridGraph) 0 "" 0 initState eq_refl)
              gridInfo 2 eq_refl eq_refl eq_refl eq_refl eq_refl eq_refl _ eq_refl).
    intros basic H. discriminate H.
Defined.

(** X14. In both implementations a string-coerced field is a string field
    whatever its host type is: the host type is not translated, so the field
    cannot fail, and nothing but the string record is added to the state. *)
Theorem string_coerced_field_is_not_translated :
  (∀ (p : Parser) rec structTypeName field structTags jsonTag st,
     getJsonTag structTags = (jsonTag, true) →
     tag_Name jsonTag ≠ "-" →
     tag_IsString jsonTag = true →
     ∃ f,
       parseStructField p rec structTypeName field structTags st
       = Done (Ok (Some f))
           (mkState (parsedTypes st) (heap st ++ [stringVarType]) (schemaTypes st))
       ∧ f_Type f = Some (length (heap st))
       ∧ f_Optional f = tag_Omitempty jsonTag
       ∧ metaGet "go.field.type" (f_Meta f) = Some (goTypeName p (v_Type field)))
  ∧ (∀ (p : Parser) GoTypeName GoTypeImport ParseNamedType structTypeName field
       jsonTag st,
       Internal.Name jsonTag ≠ "-" →
       Internal.IsString jsonTag = true →
       ∃ f,
         Internal.parseStructField p GoTypeName GoTypeImport ParseNamedType
           structTypeName field jsonTag st
         = Done (Ok (Some f))
             (mkState (parsedTypes st) (heap st ++ [stringVarType]) (schemaTypes st))
         ∧ f_Type f = Some (length (heap st))
         ∧ f_Optional f = Internal.Omitempty jsonTag).
Proof.
  split.
  - intros p rec structTypeName field structTags jsonTag st Hg Hn Hs.
    unfold parseStructField. rewrite Hg, Hs.
    apply String.eqb_neq in Hn. rewrite Hn. cbn [andb].
    eexists. split; [reflexivity|]. repeat split.
  - intros p GoTypeName GoTypeImport ParseNamedType structTypeName field jsonTag st
      Hn Hs.
    unfold Internal.parseStructField. rewrite Hs.
    apply String.eqb_neq in Hn. rewrite Hn.
    eexists. split; [reflexivity|]. repeat split.
Qed.

Lemma string_coerced_field_is_not_translated_witness :
  ∃ f,
    parseStructField (sampleParser fieldGraph) noRec "S" fieldID (tagOf "id,string")
      initState
    = Done (Ok (Some f)) (mkState ∅ [stringVarType] [])
    ∧ f_Type f = Some 0
    ∧ f_Optional f = false
    ∧ metaGet "go.field.type" (f_Meta f) = Some "int64".
Proof.
  refine (proj1 string_coerced_field_is_not_translated (sampleParser fieldGraph) noRec
            "S" fieldID (tagOf "id,string") (mkJsonTag "id" "id,string" true false)
            initState eq_refl _ eq_refl).
  discriminate.
Defined.

(** X15. The name and the Meta of every field that parseStructField of
    types.go emits: the name is the name of the tag, or the Go name when the
    tag gives none; the Meta starts with the Go name and the Go type
    expression, then has the import path when there is one, then the tag
    value when the field is string-coerced or the value is not empty. *)
Theorem field_name_and_meta (p : Parser) rec structTypeName field structTags st f st' :
  parseStructField p rec structTypeName field structTags st = Done (Ok (Some f)) st' →
  let jsonTag := fst (getJsonTag structTags) in
  f_Name f = (if String.eqb (tag_Name jsonTag) "" then v_Name field
              else tag_Name jsonTag)
  ∧ f_Value f = EmptyString
  ∧ f_Meta f
    = [("go.field.name", v_Name field);
       ("go.field.type", goTypeName p (v_Type field))]
      ++ (if String.eqb (goTypeImport p (v_Type field)) "" then []
          else [("go.type.import", goTypeImport p (v_Type field))])
      ++ (if tag_IsString jsonTag || negb (String.eqb (tag_Value jsonTag) "")
          then [("go.tag.json", tag_Value jsonTag)] else []).
Proof.
  unfold parseStructField.
  destruct (getJsonTag structTags) as [jsonTag ok] eqn:Hg. cbn [fst].
  destruct ok; cbn [andb].
  - destruct (String.eqb (tag_Name jsonTag) "-"); [discriminate|].
    destruct (tag_IsString jsonTag); cbn [orb].
    + intros [= <- <-]. cbn [f_Name f_Value f_Meta]. unfold metaOf.
      by destruct (String.eqb (tag_Name jsonTag) "").
    + unfold bind, wrapErr.
      destruct (rec _ (v_Type field) st) as [[v|e|e] st1|]; try discriminate.
      intros [= <- <-]. cbn [f_Name f_Value f_Meta]. unfold metaOf.
      by destruct (String.eqb (tag_Name jsonTag) ""),
                  (String.eqb (tag_Value jsonTag) "").
  - rewrite (getJsonTag_not_ok _ _ Hg). cbn [andb].
    unfold bind, wrapErr.
    destruct (rec _ (v_Type field) st) as [[v|e|e] st1|]; try discriminate.
    intros [= <- <-]. repeat split.
Qed.

Lemma field_name_and_meta_witness :
  ∃ f st',
    parseStructField (sampleParser fieldGraph) (parseNamedType (sampleParser fieldGraph) 3)
      "P" fieldEmail (tagOf "email,omitempty") initState
    = Done (Ok (Some f)) st'
    ∧ f_Name f = "email"
    ∧ f_Meta f = [("go.field.name", "Email"); ("go.field.type", "string");
                  ("go.tag.json", "email,omitempty")].
Proof.
  destruct (parseStructField (sampleParser fieldGraph)
              (parseNamedType (sampleParser fieldGraph) 3) "P" fieldEmail
              (tagOf "email,omitempty") initState) as [[[f|]| |] st'|] eqn:E;
    try (vm_compute in E; discriminate E).
  exists f, st'. split; [reflexivity|].
  pose proof (field_name_and_meta _ _ _ _ _ _ _ _ E) as H. cbv zeta in H.
  destruct H as (H1 & _ & H3). split; [exact H1|exact H3].
Defined.

(** ** Named lists of basic types, and hidden fields *)

Lemma claim_then_list_of c typeName typ st v :
  c = length (heap st) →
  fill c ((b <- deref (S c) ;;
           alloc (mkVarType ("[]" +:+ Expr b) T_List (Some (S c)) None None))
            (mkState (<[typ := c]> (parsedTypes st))
               (heap st ++ [mkVarType typeName T_Invalid None None None; v])
               (schemaTypes st)))
  = Done (Ok c)
      (mkState (<[typ := c]> (parsedTypes st))
         (heap st ++ [mkVarType ("[]" +:+ Expr v) T_List (Some (S c)) None None;
                      v;
                      mkVarType ("[]" +:+ Expr v) T_List (Some (S c)) None None])
         (schemaTypes st)).
Proof.
  intros ->. unfold bind, deref, alloc. cbn [heap parsedTypes schemaTypes].
  rewrite lookup_app_r by lia.
  replace (S (length (heap st)) - length (heap st)) with 1 by lia. cbn [lookup list_lookup].
  erewrite fill_Ok.
  2:{ cbn [heap]. rewrite lookup_app_r by (rewrite !length_app; simpl; lia).
      rewrite !length_app. cbn [length].
      by replace (length (heap st) + 2 - (length (heap st) + 2)) with 0 by lia. }
  cbn [heap parsedTypes schemaTypes]. f_equal. f_equal.
  rewrite <- !app_assoc. cbn [app]. rewrite insert_app_r_alt by done.
  by rewrite Nat.sub_diag.
Qed.

(** X21. A named slice or array type whose element has a basic underlying
    type is a list of that basic type: the basic type is translated in
    place, so that neither the element type nor the underlying slice or array
    gets a memo entry, an element type that is named or an alias is
    flattened to its basic type, and an array is accepted here although the
    type switch has no case for arrays. An unknown basic type is the only way
    to fail. *)
Theorem named_list_of_basic (p : Parser) (fuel : nat) (typeName : string)
    (typ : tid) (info : NamedInfo) (uElem : tid) (basic : string) (st : State) :
  shapeOf p typ = Named info →
  n_TextMarshaler info = false →
  n_JsonMarshaler info = false →
  String.eqb (goTypeName p typ) "Time" = false →
  GoStrings.HasPrefix (goTypeName p typ) "Enum[" = false →
  shapeOf p (n_Underlying info) = Slice uElem
  ∨ shapeOf p (n_Underlying info) = Array uElem →
  shapeOf p (Underlying p uElem) = Basic basic →
  parsedTypes st !! typ = None →
  let c := length (heap st) in
  (∀ v, ParseVarTypeExpr p (schemaTypes st) basic = inl v →
        let list := mkVarType ("[]" +:+ Expr v) T_List (Some (S c)) None None in
        parseNamedType p (S fuel) typeName typ st
        = Done (Ok c)
            (mkState (<[typ := c]> (parsedTypes st)) (heap st ++ [list; v; list])
               (schemaTypes st)))
  ∧ (∀ e, ParseVarTypeExpr p (schemaTypes st) basic = inr e →
          parseNamedType p (S fuel) typeName typ st
          = Done (Err ("failed to parse []namedBasicType: failed to parse basic type: "
                       +:+ basic +:+ ": " +:+ e))
              (claim typeName typ st)).
Proof.
  intros Hs Ht Hj Htime Henum Hu Hb Hm c.
  assert (E : parseNamedType p (S fuel) typeName typ st
              = fill c ((basicType <- wrapErr "failed to parse []namedBasicType: "
                                        (parseBasic p basic) ;;
                         b <- deref basicType ;;
                         alloc (mkVarType ("[]" +:+ Expr b) T_List (Some basicType)
                                  None None))
                          (claim typeName typ st))).
  { rewrite parseNamedType_miss by done.
    unfold dispatch. rewrite Hs. unfold parseNamed. rewrite Ht, Htime, Henum.
    assert (E : ∀ A (a b c : A),
               (match n_PkgPath info with
                | Some path =>
                    if String.eqb path "time" && false then a
                    else if String.eqb path gospeakPkgPath && false
                            && GoStrings.HasSuffix (goTypeName p typ) "]"
                         then b else c
                | None => c
                end) = c).
    { intros A a b c0. destruct (n_PkgPath info) as [path|]; [|done].
      by rewrite !andb_false_r, andb_false_l. }
    rewrite E. unfold parseNamedUnderlying.
    destruct Hu as [Hu|Hu]; rewrite Hu, Hj, Hb; reflexivity. }
  rewrite E. clear E. split.
  - intros v Hv list. unfold bind at 1, wrapErr, parseBasic, bind at 1, getTypes, claim.
    cbn [schemaTypes]. rewrite Hv. unfold alloc at 1. cbn [heap parsedTypes schemaTypes].
    rewrite length_app. cbn [length].
    replace (length (heap st) + 1) with (S c) by (subst c; lia).
    rewrite <- app_assoc. cbn [app].
    by apply (claim_then_list_of c).
  - intros e He. unfold bind at 1, wrapErr, parseBasic, bind at 1, getTypes, claim.
    cbn [schemaTypes]. rewrite He. unfold fail. cbn [fill].
    reflexivity.
Qed.

Lemma named_list_of_basic_witness :
  parseNamedType (sampleParser idsGraph) 1 "" 0 initState
  = Done (Ok 0)
      (mkState (<[0 := 0]> ∅)
         [mkVarType "[]int64" T_List (Some 1) None None;
          mkVarType "int64" T_Int64 None None None;
          mkVarType "[]int64" T_List (Some 1) None None] [])
  ∧ parseNamedType (sampleParser aliasedGraph) 1 "" 0 initState
    = Done (Ok 0)
        (mkState (<[0 := 0]> ∅)
           [mkVarType "[]int" T_List (Some 1) None None;
            mkVarType "int" T_Int None None None;
            mkVarType "[]int" T_List (Some 1) None None] []).
Proof.
  split.
  - exact (proj1 (named_list_of_basic (sampleParser idsGraph) 0 "" 0 idsInfo 2 "int64"
                    initState eq_refl eq_refl eq_refl eq_refl eq_refl
                    (or_introl eq_refl) eq_refl eq_refl)
             (mkVarType "int64" T_Int64 None None None) eq_refl).
  - exact (proj1 (named_list_of_basic (sampleParser aliasedGraph) 0 "" 0 aliasedInfo 2
                    "int" initState eq_refl eq_refl eq_refl eq_refl eq_refl
                    (or_introl eq_refl) eq_refl eq_refl)
             (mkVarType "int" T_Int None None None) eq_refl).
Defined.

Lemma bind_assoc {A B C} (m : M A) (f : A → M B) (g : B → M C) st :
  bind (bind m f) g st = bind m (λ a, bind (f a) g) st.
Proof. unfold bind. by destruct (m st) as [[a|e|e] st1|]. Qed.

Lemma bind_ext {A B} (m : M A) (f g : A → M B) st :
  (∀ a st1, f a st1 = g a st1) → bind m f st = bind m g st.
Proof. intros H. unfold bind. by destruct (m st) as [[a|e|e] st1|]. Qed.

Lemma structLoop_app p rec typeName l2 l1 : ∀ i acc st,
  structLoop p rec typeName (l1 ++ l2) i acc st
  = bind (structLoop p rec typeName l1 i acc)
      (λ acc', structLoop p rec typeName l2 (i + length l1) acc') st.
Proof.
  induction l1 as [|[structField structTags] rest IH]; intros i acc st.
  - simpl. unfold bind, ret. by rewrite Nat.add_0_r.
  - assert (IH' : ∀ acc0 st0,
              structLoop p rec typeName (rest ++ l2) (S i) acc0 st0
              = bind (structLoop p rec typeName rest (S i) acc0)
                  (λ acc', structLoop p rec typeName l2 (i + length ((structField, structTags) :: rest)) acc')
                  st0).
    { intros acc0 st0. rewrite IH. apply bind_ext. intros a st1. simpl.
      by replace (i + S (length rest)) with (S (i + length rest)) by lia. }
    cbn [app structLoop].
    destruct (negb (v_Exported structField)); [apply IH'|].
    destruct (_ || _).
    + rewrite bind_assoc. apply bind_ext. intros varType st1.
      rewrite bind_assoc. apply bind_ext. intros v st2.
      destruct (decide (Type_ v = T_Struct)); [|apply IH'].
      rewrite bind_assoc. apply bind_ext. intros embedded st3.
      rewrite bind_assoc. apply bind_ext. intros acc' st4. apply IH'.
    + rewrite bind_assoc. apply bind_ext. intros [f|] st1; [|apply IH'].
      rewrite bind_assoc. apply bind_ext. intros acc' st2. apply IH'.
Qed.

(** X22. A field that the JSON encoding hides (unexported, or tagged with a
    dash) is skipped by the loop of parseStruct wherever it stands: its type
    is never translated, so it cannot make the struct fail, and the fields
    before and after it are handled as if it were not there, except that
    the field indexes of the error messages still count it. *)
Theorem hidden_field_is_skipped (p : Parser) (rec : string → tid → M loc)
    (typeName : string) (before after : list (Var * string)) (field : Var)
    (structTags : string) (i : nat) (acc : list TypeField) (st : State) :
  hidden field structTags →
  structLoop p rec typeName (before ++ (field, structTags) :: after) i acc st
  = (acc' <- structLoop p rec typeName before i acc ;;
     structLoop p rec typeName after (S (i + length before)) acc') st.
Proof.
  intros Hh. rewrite structLoop_app. apply bind_ext. intros acc' st1.
  cbn [structLoop]. destruct Hh as [He|(Hemb & Hinl & jsonTag & Hg & Hn)].
  - by rewrite He.
  - destruct (v_Exported field); [|done]. cbn [negb].
    rewrite Hemb, Hinl. cbn [orb].
    unfold bind at 1, wrapErr, parseStructField. rewrite Hg, Hn. reflexivity.
Qed.

Lemma hidden_field_is_skipped_witness :
  structLoop (sampleParser mapChanGraph) (parseNamedType (sampleParser mapChanGraph) 3)
    "T" hiddenFields 0 [] initState
  = structLoop (sampleParser mapChanGraph) (parseNamedType (sampleParser mapChanGraph) 3)
      "T" [(mkVar "ID" true false 1, tagOf "id")] 1 [] initState.
Proof.
  refine (hidden_field_is_skipped (sampleParser mapChanGraph) _ "T" []
            [(mkVar "ID" true false 1, tagOf "id")] (mkVar "Done" true false 2) (tagOf "-")
            0 [] initState _).
  right. split; [reflexivity|]. split; [reflexivity|].
  exists (mkJsonTag "-" "-" false false). split; reflexivity.
Defined.

(** ** The walker never panics *)

Lemma structRefOk_weaken types types' v :
  types `prefix_of` types' → structRefOk types v → structRefOk types' v.
Proof.
  intros Hp H Hk. destruct (H Hk) as (n & i & ty & H1 & H2 & H3).
  exists n, i, ty. split; [done|]. split; [|done].
  by eapply prefix_lookup_Some.
Qed.

Lemma stable_True : stable (λ _, True).
Proof. by intros st st' _ _. Qed.

Lemma stable_and P Q : stable P → stable Q → stable (λ st, P st ∧ Q st).
Proof. intros HP HQ st st' He [H1 H2]. split; eauto. Qed.

Lemma stable_validLoc l : stable (validLoc l).
Proof.
  intros st st' (_ & Hh & _) H. unfold validLoc in *.
  apply prefix_length in Hh. lia.
Qed.

Lemma stable_structRefOk v : stable (λ st, structRefOk (schemaTypes st) v).
Proof. intros st st' (_ & _ & Ht). by apply structRefOk_weaken. Qed.

Lemma stable_typeAt i t : stable (λ st, schemaTypes st !! i = Some t).
Proof. intros st st' (_ & _ & Ht) H. by eapply prefix_lookup_Some. Qed.

Lemma stable_pure (φ : Prop) : stable (λ _, φ).
Proof. by intros st st' _ H. Qed.

Lemma Sound_conseq {A} (P P' : State → Prop) (Q Q' : A → State → Prop) m :
  Sound P Q m → (∀ st, P' st → P st) → (∀ a st, Q a st → Q' a st) → Sound P' Q' m.
Proof.
  intros H HP HQ st Hv Hp r st' E.
  destruct (H st Hv (HP _ Hp) r st' E) as (H1 & H2 & H3).
  split; [done|]. split; [done|]. destruct r; auto.
Qed.

Lemma Sound_ret {A} (P : State → Prop) (Q : A → State → Prop) a :
  (∀ st, P st → Q a st) → Sound P Q (ret a).
Proof.
  intros H st Hv Hp r st' [= <- <-]. split; [done|]. split; [apply extends_refl|auto].
Qed.

Lemma Sound_fail {A} (P : State → Prop) (Q : A → State → Prop) msg :
  Sound P Q (fail msg).
Proof.
  intros st Hv Hp r st' [= <- <-]. split; [done|]. split; [apply extends_refl|done].
Qed.

Lemma Sound_bind {A B} (P : State → Prop) (Q : A → State → Prop)
    (R : B → State → Prop) (m : M A) (f : A → M B) :
  Sound P Q m → stable P → (∀ a, Sound (λ st, P st ∧ Q a st) R (f a)) →
  Sound P R (bind m f).
Proof.
  intros Hm HP Hf st Hv Hp r st' E. unfold bind in E.
  destruct (m st) as [[a|e|e] st1|] eqn:Em; [| | |discriminate E].
  - destruct (Hm st Hv Hp _ _ Em) as (Hv1 & He1 & Hq).
    destruct (Hf a st1 Hv1 (conj (HP _ _ He1 Hp) Hq) _ _ E) as (Hv2 & He2 & Hr).
    split; [done|]. split; [by eapply extends_trans|done].
  - injection E as <- <-. destruct (Hm st Hv Hp _ _ Em) as (Hv1 & He1 & _). done.
  - injection E as <- <-. by destruct (Hm st Hv Hp _ _ Em) as (_ & _ & []).
Qed.

Lemma Sound_wrapErr {A} (P : State → Prop) (Q : A → State → Prop) prefix m :
  Sound P Q m → Sound P Q (wrapErr prefix m).
Proof.
  intros Hm st Hv Hp r st' E. unfold wrapErr in E.
  destruct (m st) as [[a|e|e] st1|] eqn:Em; [| | |discriminate E];
    injection E as <- <-; destruct (Hm st Hv Hp _ _ Em) as (H1 & H2 & H3); done.
Qed.

Lemma Valid_alloc st v :
  Valid st → structRefOk (schemaTypes st) v →
  Valid (mkState (parsedTypes st) (heap st ++ [v]) (schemaTypes st)).
Proof.
  intros [Ha Hb] Hv. split; simpl.
  - intros t l Hl. rewrite length_app. specialize (Ha _ _ Hl). lia.
  - intros l w Hl. apply lookup_app_Some in Hl as [Hl|[_ Hl]]; [eauto|].
    apply list_lookup_singleton_Some in Hl as [_ <-]. done.
Qed.

Lemma Sound_alloc (P : State → Prop) v :
  (∀ st, P st → structRefOk (schemaTypes st) v) → Sound P validLoc (alloc v).
Proof.
  intros H st Hv Hp r st' [= <- <-]. split; [by apply Valid_alloc; auto|].
  split.
  - repeat split; simpl; [done|by apply prefix_app_r|done].
  - unfold validLoc. simpl. rewrite length_app. simpl. lia.
Qed.

Lemma Sound_deref (P : State → Prop) l :
  (∀ st, P st → validLoc l st) →
  Sound P (λ v st, structRefOk (schemaTypes st) v) (deref l).
Proof.
  intros H st Hv Hp r st' E. unfold deref in E.
  destruct (heap st !! l) as [v|] eqn:Hl.
  2:{ apply lookup_ge_None_1 in Hl. specialize (H _ Hp). unfold validLoc in H. lia. }
  injection E as <- <-.
  split; [done|]. split; [apply extends_refl|]. destruct Hv as [_ Hb]. eauto.
Qed.

Lemma Sound_appendType (P : State → Prop) t :
  Sound P (λ i st, schemaTypes st !! i = Some t) (appendType t).
Proof.
  intros st [Ha Hb] Hp r st' [= <- <-]. split; [split; simpl|split].
  - done.
  - intros l v Hl. eapply structRefOk_weaken; [|by eapply Hb]. by apply prefix_app_r.
  - repeat split; simpl; [done|done|by apply prefix_app_r].
  - simpl. rewrite lookup_app_r by done. by rewrite Nat.sub_diag.
Qed.

Lemma Sound_liftPanic {A} (P : State → Prop) (Q : A → State → Prop) o :
  (∃ a, o = Some a ∧ ∀ st, P st → Q a st) → Sound P Q (liftPanic o).
Proof. intros (a & -> & H). by apply Sound_ret. Qed.

Lemma notStruct_ok types v : Type_ v ≠ T_Struct → structRefOk types v.
Proof. intros H Hk. by destruct H. Qed.

Ltac solve_stable :=
  repeat first [ apply stable_and | apply stable_True | apply stable_validLoc
               | apply stable_structRefOk | apply stable_typeAt | apply stable_pure ].

Section SoundWalker.
Variable p : Parser.
Hypothesis Hpvt : resolvesStructs p.
Variable rec : string → tid → M loc.
Hypothesis Hrec : ∀ name t, Sound (λ _, True) validLoc (rec name t).

Lemma Sound_pre {A} (P : State → Prop) (Q : A → State → Prop) m :
  Sound (λ _, True) Q m → Sound P Q m.
Proof. intros H. eapply Sound_conseq; [exact H|done|done]. Qed.

Lemma Sound_parseBasic name : Sound (λ _, True) validLoc (parseBasic p name).
Proof.
  intros st Hv Hp r st' E. unfold parseBasic, bind, getTypes in E.
  destruct (ParseVarTypeExpr p (schemaTypes st) name) as [v|e] eqn:Ev.
  - eapply (Sound_alloc (λ s, s = st)); [|exact Hv|reflexivity|exact E].
    intros ? ->. by eapply Hpvt.
  - injection E as <- <-. split; [done|]. split; [apply extends_refl|done].
Qed.

Lemma Sound_parseSlice name e : Sound (λ _, True) validLoc (parseSlice rec name e).
Proof.
  unfold parseSlice. eapply Sound_bind; [apply Sound_wrapErr, Hrec|solve_stable|].
  intros elem. eapply Sound_bind; [apply Sound_deref; tauto|solve_stable|].
  intros v. apply Sound_alloc. intros st _. by apply notStruct_ok.
Qed.

Lemma Sound_parseMap name k e : Sound (λ _, True) validLoc (parseMap rec name k e).
Proof.
  unfold parseMap. eapply Sound_bind; [apply Sound_wrapErr, Hrec|solve_stable|].
  intros key.
  eapply Sound_bind; [apply Sound_wrapErr, Sound_pre, Hrec|solve_stable|].
  intros value. eapply Sound_bind; [apply Sound_deref; tauto|solve_stable|].
  intros kv. eapply Sound_bind; [apply Sound_deref; tauto|solve_stable|].
  intros vv. apply Sound_alloc. intros st _. by apply notStruct_ok.
Qed.

Lemma Sound_parseStructField name f tags :
  Sound (λ _, True) (λ _ _, True) (parseStructField p rec name f tags).
Proof.
  unfold parseStructField. destruct (getJsonTag tags) as [jt ok]. cbv beta iota zeta.
  destruct (ok && _); [by apply Sound_ret|].
  destruct (ok && _).
  - eapply Sound_bind; [apply Sound_alloc|solve_stable|].
    + intros st _. by apply notStruct_ok.
    + intros l. by apply Sound_ret.
  - eapply Sound_bind; [apply Sound_wrapErr, Hrec|solve_stable|].
    intros l. by apply Sound_ret.
Qed.

Lemma Sound_structFieldsOf v :
  Type_ v = T_Struct →
  Sound (λ st, structRefOk (schemaTypes st) v) (λ _ _, True) (structFieldsOf v).
Proof.
  intros Hk st Hv Hp r st' E. destruct (Hp Hk) as (n & i & ty & H1 & H2 & H3).
  unfold structFieldsOf in E. rewrite H1 in E. unfold bind, getTypes in E.
  rewrite H2 in E. injection E as <- <-.
  split; [done|]. split; [apply extends_refl|done].
Qed.

Lemma appendAll_total acc embedded :
  NoDup (map f_Name acc) →
  ∃ acc', appendAll acc embedded = Some acc' ∧ NoDup (map f_Name acc').
Proof.
  revert acc. induction embedded as [|x rest IH]; intros acc Hnd; simpl.
  - by exists acc.
  - rewrite appendOrOverride_spec by done. apply IH. by apply override_keeps_unique.
Qed.

Lemma Sound_structLoop name fields : ∀ i acc,
  NoDup (map f_Name acc) →
  Sound (λ _, True) (λ r _, NoDup (map f_Name r)) (structLoop p rec name fields i acc).
Proof.
  induction fields as [|[structField structTags] rest IH]; intros i acc Hnd; simpl.
  - by apply Sound_ret.
  - destruct (negb (v_Exported structField)); [by apply IH|].
    destruct (_ || _).
    + eapply Sound_bind; [apply Sound_wrapErr, Hrec|solve_stable|].
      intros varType. eapply Sound_bind; [apply Sound_deref; tauto|solve_stable|].
      intros v. destruct (decide (Type_ v = T_Struct)) as [Hk|];
        [|by apply Sound_pre, IH].
      eapply Sound_bind;
        [eapply Sound_conseq; [by apply Sound_structFieldsOf|tauto|done]
        |solve_stable|].
      intros embedded.
      destruct (appendAll_total acc embedded Hnd) as (acc' & Ha & Hnd').
      rewrite Ha. eapply Sound_bind; [by apply (Sound_ret _ (λ a _, a = acc'))|solve_stable|].
      intros a. intros st Hv [_ ->]. by apply IH.
    + eapply Sound_bind; [apply Sound_wrapErr, Sound_parseStructField|solve_stable|].
      intros [f|]; [|by apply Sound_pre, IH].
      rewrite appendOrOverride_spec by done.
      eapply Sound_bind;
        [by apply (Sound_ret _ (λ a _, a = filter (otherName (f_Name f)) acc ++ [f]))
        |solve_stable|].
      intros a. intros st Hv [_ ->]. apply IH; [|done|done].
      by apply override_keeps_unique.
Qed.

Lemma Sound_parseStruct name fields :
  Sound (λ _, True) validLoc (parseStruct p rec name fields).
Proof.
  unfold parseStruct.
  eapply Sound_bind; [by apply Sound_structLoop, NoDup_nil|solve_stable|].
  intros structFields. eapply Sound_bind; [apply Sound_appendType|solve_stable|].
  intros i. apply Sound_alloc. intros st [_ Hi] _.
  eexists _, _, _. split; [reflexivity|]. split; [exact Hi|reflexivity].
Qed.

Lemma Sound_parseEnum info uname :
  Sound (λ _, True) validLoc (parseEnum p rec info uname).
Proof.
  unfold parseEnum.
  eapply Sound_bind; [apply Sound_wrapErr, Hrec|solve_stable|].
  intros elem. eapply Sound_bind; [apply Sound_appendType|solve_stable|].
  intros i. apply Sound_alloc. intros st [_ Hi] _.
  eexists _, _, _. split; [reflexivity|]. split; [exact Hi|reflexivity].
Qed.

Lemma Sound_alloc_plain v :
  Type_ v ≠ T_Struct → Sound (λ _, True) validLoc (alloc v).
Proof. intros H. apply Sound_alloc. intros st _. by apply notStruct_ok. Qed.

Lemma Sound_list_of_any :
  Sound (λ _, True) validLoc
    (elem <- alloc anyVarType ;; alloc (mkVarType "[]any" T_List (Some elem) None None)).
Proof.
  eapply Sound_bind; [by apply Sound_alloc_plain|solve_stable|].
  intros elem. by apply Sound_pre, Sound_alloc_plain.
Qed.

Lemma Sound_parseNamedUnderlying info name :
  Sound (λ _, True) validLoc (parseNamedUnderlying p rec info name).
Proof.
  assert (Hb : ∀ basic, Sound (λ _, True) validLoc
            (basicType <- wrapErr "failed to parse []namedBasicType: " (parseBasic p basic) ;;
             b <- deref basicType ;;
             alloc (mkVarType ("[]" +:+ Expr b) T_List (Some basicType) None None))).
  { intros basic.
    eapply Sound_bind; [apply Sound_wrapErr, Sound_parseBasic|solve_stable|].
    intros l. eapply Sound_bind; [apply Sound_deref; tauto|solve_stable|].
    intros b. by apply Sound_pre, Sound_alloc_plain. }
  unfold parseNamedUnderlying.
  destruct (shapeOf p (n_Underlying info)); try apply Hrec;
    destruct (n_JsonMarshaler info);
    try apply Sound_list_of_any; try apply Hrec; try (by apply Sound_alloc_plain);
    destruct (shapeOf p (Underlying p elem)); try apply Hrec; apply Hb.
Qed.

Lemma Sound_parseNamed typ info : Sound (λ _, True) validLoc (parseNamed p rec typ info).
Proof.
  unfold parseNamed. cbv zeta.
  assert (Hr : Sound (λ _, True) validLoc
                 (if n_TextMarshaler info then alloc stringVarType
                  else parseNamedUnderlying p rec info (goTypeName p typ))).
  { destruct (n_TextMarshaler info);
      [by apply Sound_alloc_plain|apply Sound_parseNamedUnderlying]. }
  destruct (n_PkgPath info) as [path|]; [|exact Hr].
  destruct (_ && _); [by apply Sound_alloc_plain|].
  destruct (_ && _); [apply Sound_parseEnum|exact Hr].
Qed.

Lemma Sound_dispatch name typ : Sound (λ _, True) validLoc (dispatch p rec name typ).
Proof.
  unfold dispatch. destruct (shapeOf p typ).
  - apply Sound_parseNamed.
  - apply Sound_parseBasic.
  - apply Sound_parseStruct.
  - apply Sound_parseSlice.
  - apply Sound_fail.
  - apply Sound_parseMap.
  - destruct (String.eqb name ""); apply Hrec.
  - by apply Sound_alloc_plain.
  - apply Sound_fail.
  - apply Sound_fail.
Qed.

End SoundWalker.

Lemma Sound_parseNamedType (p : Parser) :
  resolvesStructs p →
  ∀ fuel name typ, Sound (λ _, True) validLoc (parseNamedType p fuel name typ).
Proof.
  intros Hpvt. induction fuel as [|fuel IH]; intros name typ st Hv _ r st' E.
  - discriminate E.
  - destruct (parsedTypes st !! typ) as [l|] eqn:Hm.
    + rewrite (parseNamedType_hit _ _ _ _ _ _ Hm) in E. injection E as <- <-.
      split; [done|]. split; [apply extends_refl|]. destruct Hv as [Ha _]. by eapply Ha.
    + pose proof (parseNamedType_extends _ _ _ _ _ _ _ E) as Hext.
      rewrite parseNamedType_miss in E by done.
      assert (Hvc : Valid (claim name typ st)).
      { destruct Hv as [Ha Hb]. split; simpl.
        - intros t l. rewrite length_app, lookup_insert. case_decide.
          + intros [= <-]. simpl. lia.
          + intros Hl. specialize (Ha _ _ Hl). lia.
        - intros l v Hl. apply lookup_app_Some in Hl as [Hl|[_ Hl]]; [eauto|].
          apply list_lookup_singleton_Some in Hl as [_ <-]. by apply notStruct_ok. }
      destruct (dispatch p (parseNamedType p fuel) name typ (claim name typ st))
        as [r2 st2|] eqn:ED; [|discriminate E].
      destruct (Sound_dispatch p Hpvt _ IH name typ _ Hvc I _ _ ED)
        as (Hv2 & Hext2 & Hr2).
      destruct r2 as [v|e|e]; [| |done].
      * unfold validLoc in Hr2. simpl in E.
        destruct (heap st2 !! v) as [x|] eqn:Hx.
        2:{ apply lookup_ge_None_1 in Hx. lia. }
        injection E as <- <-. split; [|split; [done|]].
        -- destruct Hv2 as [Ha Hb]. split; simpl.
           ++ intros t l Hl. rewrite length_insert. eauto.
           ++ intros l w Hl. destruct (decide (l = length (heap st))) as [->|Hne].
              ** assert (length (heap st) < length (heap st2)).
                 { destruct Hext2 as (_ & Hh & _). apply prefix_length in Hh.
                   simpl in Hh. rewrite length_app in Hh. simpl in Hh. lia. }
                 rewrite list_lookup_insert_eq in Hl by done.
                 injection Hl as <-. eauto.
              ** rewrite list_lookup_insert_ne in Hl by done. eauto.
        -- unfold validLoc. simpl. rewrite length_insert.
           destruct Hext2 as (_ & Hh & _). apply prefix_length in Hh.
           simpl in Hh. rewrite length_app in Hh. simpl in Hh. lia.
      * simpl in E. injection E as <- <-. done.
Qed.

Lemma sample_resolvesStructs (g : list (tid * TypeObj)) : resolvesStructs (sampleParser g).
Proof.
  intros types name v. simpl. unfold sampleParseVarTypeExpr.
  destruct (sampleCoreOf name) as [k|] eqn:Hk; [|discriminate].
  intros [= <-]. apply notStruct_ok. simpl. intros ->. unfold sampleCoreOf in Hk.
  repeat (destruct (String.eqb _ _); [discriminate Hk|]). discriminate Hk.
Qed.

Lemma Valid_initState : Valid initState.
Proof. split; simpl; intros *; [by rewrite lookup_empty|by rewrite lookup_nil]. Qed.

(** X16. The walker of types.go never panics: from a state whose memo
    records exist and whose struct records refer to types of the schema, a
    call whose recursion budget exceeds the number of types without a memo
    entry returns a record or an error, and no call returns a panic: the
    override loop never runs out of its slice and no nil record is read.
    The state a call leaves is again such a state. *)
Theorem parseNamedType_never_panics (p : Parser) (fuel : nat) (typeName : string)
    (typ : tid) (st : State) :
  resolvesStructs p → Valid st →
  (unclaimed p st < fuel →
     ∃ r st', parseNamedType p fuel typeName typ st = Done r st'
              ∧ (∀ msg, r ≠ Panic msg) ∧ Valid st')
  ∧ (∀ r st', parseNamedType p fuel typeName typ st = Done r st' →
       (∀ msg, r ≠ Panic msg) ∧ Valid st').
Proof.
  intros Hp Hv.
  assert (H : ∀ r st', parseNamedType p fuel typeName typ st = Done r st' →
                (∀ msg, r ≠ Panic msg) ∧ Valid st').
  { intros r st' E.
    destruct (Sound_parseNamedType p Hp fuel typeName typ st Hv I r st' E)
      as (Hv' & _ & Hr).
    split; [|done]. intros msg ->. done. }
  split; [|exact H]. intros Hfuel.
  destruct (proj1 (safe_parseNamedType p fuel typeName typ st) Hfuel) as (r & st' & E).
  exists r, st'. split; [exact E|]. by apply H.
Qed.

Lemma parseNamedType_never_panics_witness :
  ∃ r st',
    parseNamedType (sampleParser cyclicGraph) 5 "" 0 initState = Done r st'
    ∧ (∀ msg, r ≠ Panic msg) ∧ Valid st'.
Proof.
  assert (H : unclaimed (sampleParser cyclicGraph) initState < 5) by (vm_compute; lia).
  exact (proj1 (parseNamedType_never_panics (sampleParser cyclicGraph) 5 "" 0 initState
                  (sample_resolvesStructs _) Valid_initState) H).
Defined.

Lemma runs_Valid (p : Parser) (calls : list (nat * string * tid)) (st st' : State) :
  resolvesStructs p → runs p calls st = Some st' → Valid st → Valid st'.
Proof.
  intros Hp. revert st. induction calls as [|[[fuel typeName] typ] rest IH];
    intros st; simpl.
  - by intros [= <-].
  - destruct (parseNamedType p fuel typeName typ st) as [r st1|] eqn:E; [|discriminate].
    intros H Hv. apply (IH _ H).
    by destruct (Sound_parseNamedType p Hp fuel typeName typ st Hv I r st1 E).
Qed.

(** X17. After any parse, every record of struct kind, wherever it is
    referred to, names a record of Schema.Types that carries the same
    name. *)
Theorem struct_refs_resolve (p : Parser) (calls : list (nat * string * tid))
    (st : State) :
  resolvesStructs p →
  runs p calls initState = Some st →
  ∀ l v, heap st !! l = Some v → Type_ v = T_Struct →
         ∃ n i ty, Struct_ v = Some (n, i) ∧ schemaTypes st !! i = Some ty
                   ∧ t_Name ty = n.
Proof.
  intros Hp H l v Hl Hk.
  destruct (runs_Valid _ _ _ _ Hp H Valid_initState) as [_ Hb].
  by apply (Hb l v Hl).
Qed.

Lemma struct_refs_resolve_witness :
  ∃ st,
    runs (sampleParser cyclicGraph) [(5, EmptyString, 0)] initState = Some st
    ∧ ∀ l v, heap st !! l = Some v → Type_ v = T_Struct →
             ∃ n i ty, Struct_ v = Some (n, i) ∧ schemaTypes st !! i = Some ty
                       ∧ t_Name ty = n.
Proof.
  destruct (runs (sampleParser cyclicGraph) [(5, EmptyString, 0)] initState)
    as [st|] eqn:E; [|vm_compute in E; discriminate E].
  exists st. split; [reflexivity|].
  exact (struct_refs_resolve _ _ _ (sample_resolvesStructs _) E).
Defined.

(** ** The doc lines of an enum *)

Lemma prefix_nil_l (s : string) : String.prefix EmptyString s = true.
Proof. by destruct s. Qed.

Lemma Cut_cons c (s sep : string) :
  GoStrings.Cut (String c s) sep
  = if String.prefix sep (String c s)
    then (EmptyString, GoStrings.drop (String.length sep) (String c s), true)
    else let '(before, after, found) := GoStrings.Cut s sep in
         if found then (String c before, after, true)
         else (String c s, EmptyString, false).
Proof. reflexivity. Qed.

Lemma Cut_first (name value : string) :
  allChars notEquals name = true →
  GoStrings.Cut (name +:+ "=" +:+ value) "=" = (name, value, true).
Proof.
  induction name as [|c name IH]; intros Hn.
  - rewrite append_nil, append_cons, append_nil, Cut_cons, prefix_cons.
    by rewrite Ascii.eqb_refl, prefix_nil_l.
  - simpl in Hn. apply andb_true_iff in Hn as [Hc Hn].
    rewrite append_cons, Cut_cons, prefix_cons.
    unfold notEquals in Hc. rewrite Ascii.eqb_sym in Hc.
    apply negb_true_iff in Hc. rewrite Hc. by rewrite IH.
Qed.

Lemma Cut_none (s : string) :
  allChars notEquals s = true → GoStrings.Cut s "=" = (s, EmptyString, false).
Proof.
  induction s as [|c s IH]; intros Hs; [reflexivity|].
  simpl in Hs. apply andb_true_iff in Hs as [Hc Hs].
  rewrite Cut_cons, prefix_cons.
  unfold notEquals in Hc. rewrite Ascii.eqb_sym in Hc.
  apply negb_true_iff in Hc. rewrite Hc. by rewrite IH.
Qed.

Lemma rev_involutive (s : string) : String.rev (String.rev s) = s.
Proof.
  unfold String.rev at 2.
  assert (H : ∀ a b, String.rev (String.rev_app a b) = String.rev_app b a).
  { induction a as [|c a IH]; intros b; simpl; [done|]. by rewrite IH. }
  rewrite H. reflexivity.
Qed.

Lemma allChars_rev_app p (a b : string) :
  allChars p (String.rev_app a b) = allChars p a && allChars p b.
Proof.
  revert b. induction a as [|c a IH]; intros b; simpl; [done|].
  rewrite IH. cbn [allChars].
  by rewrite andb_assoc, (andb_comm (allChars p a) (p c)).
Qed.

Lemma trimLeft_id (s : string) : allChars notSpace s = true → GoStrings.trimLeft s = s.
Proof.
  destruct s as [|c s]; [done|]. simpl. intros [Hc _]%andb_true_iff.
  unfold notSpace in Hc. apply negb_true_iff in Hc. by rewrite Hc.
Qed.

Lemma TrimSpace_id (s : string) : allChars notSpace s = true → GoStrings.TrimSpace s = s.
Proof.
  intros H. unfold GoStrings.TrimSpace. rewrite (trimLeft_id s) by done.
  rewrite trimLeft_id; [apply rev_involutive|].
  unfold String.rev. by rewrite allChars_rev_app, H.
Qed.

Lemma string_of_uint_notSpace (d : Decimal.uint) :
  allChars notSpace (NilEmpty.string_of_uint d) = true.
Proof. induction d; simpl; [done|by rewrite IHd..]. Qed.

Lemma TrimSpace_itoa (i : nat) : GoStrings.TrimSpace (GoStrings.itoa i) = GoStrings.itoa i.
Proof. apply TrimSpace_id, string_of_uint_notSpace. Qed.

(** X18. In ASCII text, a doc line NAME = VALUE gives the variant NAME with
    the value VALUE, both without the ASCII blanks around them; a doc line
    with no equals sign gives the variant named by the line, with its index
    in the doc block as value. *)
Theorem enum_comment_line (i : nat) (name value : string) :
  allChars isASCII name = true →
  allChars isASCII value = true →
  allChars notEquals name = true →
  enumValueOf i ("//" +:+ name +:+ "=" +:+ value)
  = mkTypeField (GoStrings.TrimSpace name) None (GoStrings.TrimSpace value) [] false
  ∧ enumValueOf i ("//" +:+ name)
    = mkTypeField (GoStrings.TrimSpace name) None (GoStrings.itoa i) [] false.
Proof.
  intros _ _ Hn. unfold enumValueOf, GoStrings.CutPrefix, GoStrings.HasPrefix.
  rewrite !prefix_append, !drop_append. cbn [fst].
  rewrite Cut_first, Cut_none by done. by rewrite TrimSpace_itoa.
Qed.

Lemma enum_comment_line_witness :
  enumValueOf 1 "// approved = 0" = mkTypeField "approved" None "0" [] false
  ∧ enumValueOf 1 "// pending" = mkTypeField "pending" None "1" [] false.
Proof.
  split.
  - exact (proj1 (enum_comment_line 1 " approved " " 0" eq_refl eq_refl eq_refl)).
  - exact (proj2 (enum_comment_line 1 " pending" EmptyString eq_refl eq_refl eq_refl)).
Defined.

(** ** The patterns of the marshaler probes *)

(** The methods of uuid.UUID of the test package make a text marshaler and
    no JSON marshaler; MarshalText with another result does not. *)
Example probe_test_types :
  isTextMarshaler
    (Some "func (github.com/golang-cz/gospeak/internal/parser/test/uuid.UUID).MarshalText() ([]byte, error)")
    (Some "func (*github.com/golang-cz/gospeak/internal/parser/test/uuid.UUID).UnmarshalText(data []byte) error")
  = true
  ∧ isJsonMarshaller
      (Some "func (example.com/p.T).MarshalText() ([]byte, error)")
      (Some "func (*example.com/p.T).UnmarshalText(data []byte) error")
    = false
  ∧ isTextMarshaler (Some "func (example.com/p.T).MarshalText() (string, error)")
      (Some "func (*example.com/p.T).UnmarshalText(data []byte) error") = false.
Proof. repeat split; vm_compute; reflexivity. Qed.

Lemma append_eq_nil (a b : string) :
  a +:+ b = EmptyString → a = EmptyString ∧ b = EmptyString.
Proof. destruct a; [by rewrite append_nil|by rewrite append_cons]. Qed.

Lemma nullable_lang r : nullable r = true ↔ lang r EmptyString.
Proof.
  split.
  - induction r; simpl; intros H; try discriminate H.
    + constructor.
    + apply andb_true_iff in H as [H1 H2].
      change EmptyString with (EmptyString +:+ EmptyString). constructor; auto.
    + apply orb_true_iff in H as [H|H]; [apply lang_AltL|apply lang_AltR]; auto.
    + constructor.
  - intros H. remember EmptyString as s eqn:Hs.
    induction H; simpl; try discriminate Hs; try done.
    + apply append_eq_nil in Hs as [-> ->]. by rewrite IHlang1, IHlang2.
    + by rewrite IHlang.
    + rewrite IHlang by done. apply orb_true_r.
Qed.

Lemma lang_deriv_sound c r : ∀ s, lang (deriv c r) s → lang r (String c s).
Proof.
  induction r; intros s H; simpl in H.
  - inversion H.
  - inversion H.
  - destruct (Ascii.eqb c c0) eqn:E; inversion H; subst.
    apply Ascii.eqb_eq in E as ->. constructor.
  - destruct (notNewline c) eqn:E; inversion H; subst. by constructor.
  - destruct (isLower c) eqn:E; inversion H; subst. by constructor.
  - destruct (nullable r1) eqn:En.
    + inversion H; subst.
      * inversion H3; subst.
        change (String c (s1 +:+ s2)) with (String c s1 +:+ s2).
        constructor; auto.
      * change (String c s) with (EmptyString +:+ String c s).
        constructor; [by apply nullable_lang|auto].
    + inversion H; subst.
      change (String c (s1 +:+ s2)) with (String c s1 +:+ s2).
      constructor; auto.
  - inversion H; subst; [apply lang_AltL|apply lang_AltR]; auto.
  - inversion H; subst.
    change (String c (s1 +:+ s2)) with (String c s1 +:+ s2).
    constructor; auto.
Qed.

Lemma lang_deriv_complete c r s0 :
  lang r s0 → ∀ s, s0 = String c s → lang (deriv c r) s.
Proof.
  induction 1 as [|d|d Hd|d Hd|r1 r2 s1 s2 H1 IH1 H2 IH2|r1 r2 s0 H IH|r1 r2 s0 H IH
                 | r|r s1 s2 H1 IH1 H2 IH2]; intros s Hs; simpl.
  - discriminate Hs.
  - injection Hs as <- <-. rewrite Ascii.eqb_refl. constructor.
  - injection Hs as <- <-. rewrite Hd. constructor.
  - injection Hs as <- <-. rewrite Hd. constructor.
  - destruct s1 as [|e s1].
    + rewrite append_nil in Hs. apply nullable_lang in H1. rewrite H1.
      apply lang_AltR. by apply IH2.
    + rewrite append_cons in Hs. injection Hs as -> <-.
      assert (HL : lang (Seq (deriv c r1) r2) (s1 +:+ s2))
        by (constructor; [by apply IH1|done]).
      destruct (nullable r1); [by apply lang_AltL|done].
  - apply lang_AltL. by apply IH.
  - apply lang_AltR. by apply IH.
  - discriminate Hs.
  - destruct s1 as [|e s1].
    + rewrite append_nil in Hs. by apply IH2.
    + rewrite append_cons in Hs. injection Hs as -> <-.
      constructor; [by apply IH1|done].
Qed.

Lemma MatchString_lang r s : MatchString r s = true ↔ lang r s.
Proof.
  revert r. induction s as [|c s IH]; intros r; simpl.
  - apply nullable_lang.
  - rewrite IH. split; [apply lang_deriv_sound|].
    intros H. by eapply lang_deriv_complete.
Qed.

Lemma lang_Seq_iff r1 r2 s :
  lang (Seq r1 r2) s ↔ ∃ s1 s2, s = s1 +:+ s2 ∧ lang r1 s1 ∧ lang r2 s2.
Proof.
  split.
  - intros H. inversion H; subst. eauto.
  - intros (s1 & s2 & -> & H1 & H2). by constructor.
Qed.

Lemma lang_Alt_iff r1 r2 s : lang (Alt r1 r2) s ↔ lang r1 s ∨ lang r2 s.
Proof.
  split.
  - intros H. inversion H; subst; auto.
  - intros [H|H]; [by apply lang_AltL|by apply lang_AltR].
Qed.

Lemma lang_Eps_iff s : lang Eps s ↔ s = EmptyString.
Proof. split; [by inversion 1|intros ->; constructor]. Qed.

Lemma lang_Chr_iff c s : lang (Chr c) s ↔ s = String c EmptyString.
Proof. split; [by inversion 1|intros ->; constructor]. Qed.

Lemma lang_Lit_iff k s : lang (Lit k) s ↔ s = k.
Proof.
  revert s. induction k as [|c k IH]; intros s; simpl.
  - apply lang_Eps_iff.
  - rewrite lang_Seq_iff. split.
    + intros (s1 & s2 & -> & H1 & H2). apply lang_Chr_iff in H1 as ->.
      apply IH in H2 as ->. reflexivity.
    + intros ->. exists (String c EmptyString), k.
      split; [reflexivity|]. split; [constructor|by apply IH].
Qed.

Lemma lang_Opt_iff r s : lang (Opt r) s ↔ s = EmptyString ∨ lang r s.
Proof. unfold Opt. rewrite lang_Alt_iff, lang_Eps_iff. tauto. Qed.

Lemma classOf_AnyChar : classOf notNewline AnyChar.
Proof.
  intros s. split.
  - inversion 1; subst. eauto.
  - intros (c & -> & Hc). by constructor.
Qed.

Lemma classOf_Lower : classOf isLower Lower.
Proof.
  intros s. split.
  - inversion 1; subst. eauto.
  - intros (c & -> & Hc). by constructor.
Qed.

Lemma lang_Star_class p r s : classOf p r → lang (Star r) s ↔ allChars p s = true.
Proof.
  intros Hc. split.
  - intros H. remember (Star r) as r0 eqn:Hr.
    induction H; try discriminate Hr; [done|].
    injection Hr as ->. apply Hc in H as (c & -> & Hp).
    rewrite append_cons, append_nil. simpl. rewrite Hp. by apply IHlang2.
  - induction s as [|c s IH]; simpl; intros H; [constructor|].
    apply andb_true_iff in H as [H1 H2].
    change (String c s) with (String c EmptyString +:+ s).
    constructor; [apply Hc; eauto|by apply IH].
Qed.

Lemma lang_Plus_class p r s : classOf p r → lang (Plus r) s ↔ word p s.
Proof.
  intros Hc. unfold Plus, word. rewrite lang_Seq_iff. split.
  - intros (s1 & s2 & -> & H1 & H2). apply Hc in H1 as (c & -> & Hp).
    rewrite append_cons, append_nil. split; [done|]. simpl. rewrite Hp.
    by apply (lang_Star_class p r).
  - intros [Hne H]. destruct s as [|c s]; [done|]. simpl in H.
    apply andb_true_iff in H as [H1 H2].
    exists (String c EmptyString), s. split; [done|].
    split; [apply Hc; eauto|by apply (lang_Star_class p r)].
Qed.

Lemma lang_optWord p r s :
  classOf p r → lang (Opt (Seq (Plus r) (Chr " "))) s ↔ optWord p s.
Proof.
  intros Hc. rewrite lang_Opt_iff, lang_Seq_iff. unfold optWord. split.
  - intros [->|(s1 & s2 & -> & H1 & H2)]; [by left|right].
    apply lang_Chr_iff in H2 as ->. exists s1. split; [done|].
    by apply (lang_Plus_class p r).
  - intros [->|(w & -> & Hw)]; [by left|right].
    exists w, " ". split; [done|]. split; [by apply (lang_Plus_class p r)|constructor].
Qed.

Lemma lang_optChr c s :
  lang (Opt (Chr c)) s ↔ s = EmptyString ∨ s = String c EmptyString.
Proof. by rewrite lang_Opt_iff, lang_Chr_iff. Qed.

(** The marshaler pattern accepts exactly the texts of its shape. *)
Lemma marshaler_regex_shape (method s : string) :
  MatchString (marshalerRegex method) s = true ↔ marshalerShape method s.
Proof.
  rewrite MatchString_lang. unfold marshalerRegex, marshalerShape. split.
  - intros H.
    apply lang_Seq_iff in H as (a1 & t1 & -> & H1 & H).
    apply lang_Seq_iff in H as (a2 & t2 & -> & H2 & H).
    apply lang_Seq_iff in H as (a3 & t3 & -> & H3 & H).
    apply lang_Seq_iff in H as (a4 & t4 & -> & H4 & H).
    apply lang_Seq_iff in H as (a5 & t5 & -> & H5 & H).
    apply lang_Seq_iff in H as (a6 & t6 & -> & H6 & H7).
    apply lang_Lit_iff in H1 as ->, H3 as ->, H5 as ->, H7 as ->.
    apply (lang_Plus_class _ _ _ classOf_AnyChar) in H2.
    apply (lang_optWord _ _ _ classOf_AnyChar) in H4.
    apply (lang_optWord _ _ _ classOf_Lower) in H6.
    by exists a2, a4, a6.
  - intros (recv & res & err & -> & H2 & H4 & H6).
    apply lang_Seq; [by apply lang_Lit_iff|].
    apply lang_Seq; [by apply (lang_Plus_class _ _ _ classOf_AnyChar)|].
    apply lang_Seq; [by apply lang_Lit_iff|].
    apply lang_Seq; [by apply (lang_optWord _ _ _ classOf_AnyChar)|].
    apply lang_Seq; [by apply lang_Lit_iff|].
    apply lang_Seq; [by apply (lang_optWord _ _ _ classOf_Lower)|].
    by apply lang_Lit_iff.
Qed.

(** The unmarshaler pattern accepts exactly the texts of its shape. *)
Lemma unmarshaler_regex_shape (method s : string) :
  MatchString (unmarshalerRegex method) s = true ↔ unmarshalerShape method s.
Proof.
  rewrite MatchString_lang. unfold unmarshalerRegex, unmarshalerShape. split.
  - intros H.
    apply lang_Seq_iff in H as (a1 & t1 & -> & H1 & H).
    apply lang_Seq_iff in H as (a2 & t2 & -> & H2 & H).
    apply lang_Seq_iff in H as (a3 & t3 & -> & H3 & H).
    apply lang_Seq_iff in H as (a4 & t4 & -> & H4 & H).
    apply lang_Seq_iff in H as (a5 & t5 & -> & H5 & H).
    apply lang_Seq_iff in H as (a6 & t6 & -> & H6 & H).
    apply lang_Seq_iff in H as (a7 & t7 & -> & H7 & H).
    apply lang_Seq_iff in H as (a8 & t8 & -> & H8 & H9).
    apply lang_Lit_iff in H1 as ->, H3 as ->, H5 as ->, H8 as ->.
    apply (lang_Plus_class _ _ _ classOf_AnyChar) in H2.
    apply (lang_optWord _ _ _ classOf_AnyChar) in H4.
    apply lang_optChr in H6.
    apply (lang_optWord _ _ _ classOf_AnyChar) in H7.
    apply lang_optChr in H9.
    by exists a2, a4, a6, a7, t8.
  - intros (recv & param & paren & res & close & -> & H2 & H4 & H6 & H7 & H9).
    apply lang_Seq; [by apply lang_Lit_iff|].
    apply lang_Seq; [by apply (lang_Plus_class _ _ _ classOf_AnyChar)|].
    apply lang_Seq; [by apply lang_Lit_iff|].
    apply lang_Seq; [by apply (lang_optWord _ _ _ classOf_AnyChar)|].
    apply lang_Seq; [by apply lang_Lit_iff|].
    apply lang_Seq; [by apply lang_optChr|].
    apply lang_Seq; [by apply (lang_optWord _ _ _ classOf_AnyChar)|].
    apply lang_Seq; [by apply lang_Lit_iff|].
    by apply lang_optChr.
Qed.

Lemma probe_iff (marshaler unmarshaler : Regex) (marshalMethod unmarshalMethod : option string) :
  probe marshaler unmarshaler marshalMethod unmarshalMethod = true
  ↔ ∃ m u, marshalMethod = Some m ∧ unmarshalMethod = Some u
           ∧ MatchString marshaler m = true ∧ MatchString unmarshaler u = true.
Proof.
  unfold probe. split.
  - destruct marshalMethod as [m|]; [|discriminate].
    destruct (MatchString marshaler m) eqn:Em; [|discriminate].
    destruct unmarshalMethod as [u|]; [|discriminate]. simpl. intros Eu.
    by exists m, u.
  - intros (m & u & -> & -> & Hm & Hu). by rewrite Hm, Hu.
Qed.

(** X19. A type is a text marshaler exactly when both MarshalText and
    UnmarshalText are found and the printed signature of each has the shape
    of its pattern: a receiver, the method name, for MarshalText no
    parameter and the results []byte and error (the first may be named by
    any text, the second by lower-case letters only), for UnmarshalText one
    []byte parameter, named or not, and the result error, named or not, in
    parentheses or not. One method alone does not make a marshaler. *)
Theorem isTextMarshaler_iff (marshalMethod unmarshalMethod : option string) :
  isTextMarshaler marshalMethod unmarshalMethod = true
  ↔ ∃ m u, marshalMethod = Some m ∧ unmarshalMethod = Some u
           ∧ marshalerShape "MarshalText" m ∧ unmarshalerShape "UnmarshalText" u.
Proof.
  unfold isTextMarshaler, textMarshalerRegex, textUnmarshalerRegex.
  rewrite probe_iff. split; intros (m & u & H1 & H2 & H3 & H4); exists m, u;
    (split; [done|]); (split; [done|]);
    (split; [by apply marshaler_regex_shape|by apply unmarshaler_regex_shape]).
Qed.

(** X20. A type is a JSON marshaler exactly when both MarshalJSON and
    UnmarshalJSON are found and the printed signature of each has the shape
    of its pattern, which is that of the text marshaler with the other
    method names. *)
Theorem isJsonMarshaller_iff (marshalMethod unmarshalMethod : option string) :
  isJsonMarshaller marshalMethod unmarshalMethod = true
  ↔ ∃ m u, marshalMethod = Some m ∧ unmarshalMethod = Some u
           ∧ marshalerShape "MarshalJSON" m ∧ unmarshalerShape "UnmarshalJSON" u.
Proof.
  unfold isJsonMarshaller, jsonMarshalerRegex, jsonUnmarshalerRegex.
  rewrite probe_iff. split; intros (m & u & H1 & H2 & H3 & H4); exists m, u;
    (split; [done|]); (split; [done|]);
    (split; [by apply marshaler_regex_shape|by apply unmarshaler_regex_shape]).
Qed.
